(** * An M-Tree with its split policies, mutation engine and nearest-neighbour
      query, embedded from [functions.h] and [mtree.h].

    Conventions of the embedding.

    - [Data] is [Z]: the driver instantiates [mt::mtree] with [int] data
      and a pointer to a function from two [int] to [size_t] as distance.
    - A [double] that holds a distance is an integer ([Z]); the places where
      the source uses [numeric_limits<double>::infinity()] use [xdist], the
      integers extended by [Infty].
    - [std::set<Data>] and [std::map<Data, IndexItem*>] are lists kept in
      strictly ascending key order, because the source iterates over them and
      the iteration order is observable.  The cache of
      [cached_distance_function], which is only looked up, is a [gmap].
    - [rand()] is a stream [rand_stream : nat -> Z]; the state threaded
      through the operations is the number of calls made so far.
    - Exceptions used as control flow are values of [signal], returned next to
      the updated receiver.
    - Recursion that is not structural takes a [fuel]; [None] is "no result":
      fuel exhausted, a failed [assert], a null dereference, or an exception
      nobody catches. *)

From stdpp Require Import gmap list sorting.

Local Open Scope Z_scope.

Definition Data := Z.

(** ** Distances extended by +infinity *)

Inductive xdist := Fin (z : Z) | Infty.

(** [a < x] and [a <= x] for a finite [a]. *)
Definition lt_x (a : Z) (x : xdist) : bool :=
  match x with Fin b => a <? b | Infty => true end.

Definition le_x (a : Z) (x : xdist) : bool :=
  match x with Fin b => a <=? b | Infty => true end.

(** ** [std::set<Data>] as an ascending list *)

Fixpoint set_insert (x : Data) (s : list Data) : list Data :=
  match s with
  | [] => [x]
  | y :: s' =>
      if x <? y then x :: y :: s'
      else if x =? y then y :: s'
      else y :: set_insert x s'
  end.

Definition set_mem (x : Data) (s : list Data) : bool :=
  existsb (Z.eqb x) s.

(** ** functions.h: [cached_distance_function] *)

Module Cache.

(** The object state: the [cache] map, and a log of the calls made to the
    wrapped [distance_function] (the log is instrumentation: the source
    has no such field, each entry stands for one evaluation of line 227). *)
Record t := mk {
  cache : gmap (Data * Data) Z;
  calls : list (Data * Data)
}.

Definition fresh : t := mk ∅ [].

(** [std::map::insert]: no effect when the key is present. *)
Definition map_insert (k : Data * Data) (v : Z) (m : gmap (Data * Data) Z)
  : gmap (Data * Data) Z :=
  match m !! k with
  | Some _ => m
  | None => <[k := v]> m
  end.

(** [operator()(data1, data2)] *)
Definition call (distance_function : Data -> Data -> Z)
    (c : t) (data1 data2 : Data) : Z * t :=
  match cache c !! (data1, data2) with
  | Some v => (v, c)
  | None =>
      match cache c !! (data2, data1) with
      | Some v => (v, c)
      | None =>
          let distance := distance_function data1 data2 in
          (distance,
           mk (map_insert (data2, data1) distance
                 (map_insert (data1, data2) distance (cache c)))
              (calls c ++ [(data1, data2)]))
      end
  end.

(** A sequence of calls on one object, collecting the returned values. *)
Fixpoint run (distance_function : Data -> Data -> Z) (c : t)
    (args : list (Data * Data)) : list Z * t :=
  match args with
  | [] => ([], c)
  | (a, b) :: rest =>
      let '(v, c1) := call distance_function c a b in
      let '(vs, c2) := run distance_function c1 rest in
      (v :: vs, c2)
  end.

(** The states a cached distance function can be in. *)
Definition reachable (distance_function : Data -> Data -> Z) (c : t) : Prop :=
  exists args, (run distance_function fresh args).2 = c.

(** [p] and [q] are the same unordered pair. *)
Definition same_pair (p q : Data * Data) : Prop :=
  p = q \/ p = (q.2, q.1).

(** No two entries of the log are the same unordered pair. *)
Fixpoint once_per_pair (l : list (Data * Data)) : Prop :=
  match l with
  | [] => True
  | p :: l' => (forall q, q ∈ l' -> ~ same_pair p q) /\ once_per_pair l'
  end.

Definition computed (c : t) (a b : Data) : Prop :=
  is_Some (cache c !! (a, b)) \/ is_Some (cache c !! (b, a)).

End Cache.

(** ** functions.h: the split policies *)

Section SplitPolicies.

Variable rand_stream : nat -> Z.

(** [random_sample_n(first, last, out, n)] of libstdc++'s [<ext/algorithm>]
    (selection sampling).  [remaining] is [std::distance(first, last)] and
    [m] the number of elements still to pick; [seed] counts the calls of
    [rand()].  The output iterator is an [inserter] at the front of an
    empty vector, which keeps the order of selection. *)
Fixpoint random_sample_n (l : list Data) (remaining m : Z) (seed : nat)
  : list Data * nat :=
  match l with
  | [] => ([], seed)
  | x :: l' =>
      if 0 <? m then
        if Z.rem (rand_stream seed) remaining <? m then
          let '(out, seed') := random_sample_n l' (remaining - 1) (m - 1) (S seed) in
          (x :: out, seed')
        else random_sample_n l' (remaining - 1) m (S seed)
      else ([], seed)
  end.

(** [random_promotion::operator()]; the [assert(promoted.size() == 2)] fails
    on a set of fewer than two objects. *)
Definition random_promotion (data_objects : list Data) (seed : nat)
  : option ((Data * Data) * nat) :=
  let remaining := Z.of_nat (length data_objects) in
  match random_sample_n data_objects remaining (Z.min 2 remaining) seed with
  | ([p0; p1], seed') => Some ((p0, p1), seed')
  | _ => None
  end.

Variable distance_function : Data -> Data -> Z.

(** [std::sort] with the comparator of [balanced_partition],
    [comp(data1, data2) := distance_function(data1, promoted) <
    distance_function(data2, promoted)], on the cached distance: an
    insertion sort, which is what libstdc++ runs on ranges of up to 16
    elements.  Elements at the same distance keep their order. *)
Fixpoint sort_insert (promoted x : Data) (sorted : list Data) (c : Cache.t)
  : list Data * Cache.t :=
  match sorted with
  | [] => ([x], c)
  | y :: rest =>
      let '(distance1, c1) := Cache.call distance_function c x promoted in
      let '(distance2, c2) := Cache.call distance_function c1 y promoted in
      if distance1 <? distance2 then (x :: y :: rest, c2)
      else
        let '(rest', c3) := sort_insert promoted x rest c2 in
        (y :: rest', c3)
  end.

Fixpoint sort_by_distance_from (promoted : Data) (sorted todo : list Data)
    (c : Cache.t) : list Data * Cache.t :=
  match todo with
  | [] => (sorted, c)
  | x :: todo' =>
      let '(sorted', c') := sort_insert promoted x sorted c in
      sort_by_distance_from promoted sorted' todo' c'
  end.

Definition sort_by_distance (promoted : Data) (v : list Data) (c : Cache.t)
  : list Data * Cache.t :=
  sort_by_distance_from promoted [] v c.

(** One inner [while] of [balanced_partition]: advance the iterator over
    [queue] up to and including the first object that is not in [other];
    that object, if there is one, is inserted into [mine]. *)
Fixpoint take_next (queue : list Data) (other mine : list Data)
  : list Data * list Data :=
  match queue with
  | [] => ([], mine)
  | data :: queue' =>
      if set_mem data other then take_next queue' other mine
      else (queue', set_insert data mine)
  end.

(** The outer [while(i1 != queue1.end() || i2 != queue2.end())].  Every
    round with a non-empty queue shortens one of them, so
    [length queue1 + length queue2] rounds are enough. *)
Fixpoint distribute (rounds : nat) (queue1 queue2 : list Data)
    (first_partition second_partition : list Data)
  : list Data * list Data :=
  match rounds with
  | O => (first_partition, second_partition)
  | S rounds' =>
      match queue1, queue2 with
      | [], [] => (first_partition, second_partition)
      | _, _ =>
          let '(queue1', first') :=
            take_next queue1 second_partition first_partition in
          let '(queue2', second') :=
            take_next queue2 first' second_partition in
          distribute rounds' queue1' queue2' first' second'
      end
  end.

(** [balanced_partition::operator()]: returns the two partitions and the
    cache. *)
Definition balanced_partition (promoted : Data * Data)
    (first_partition second_partition : list Data) (c : Cache.t)
  : (list Data * list Data) * Cache.t :=
  let '(queue1, c1) := sort_by_distance promoted.1 first_partition c in
  let '(queue2, c2) := sort_by_distance promoted.2 first_partition c1 in
  (distribute (length queue1 + length queue2) queue1 queue2 [] second_partition,
   c2).

(** [split_function<random_promotion, balanced_partition>::operator()] *)
Definition split_function (first_partition second_partition : list Data)
    (c : Cache.t) (seed : nat)
  : option ((Data * Data) * (list Data * list Data) * Cache.t * nat) :=
  match random_promotion first_partition seed with
  | None => None
  | Some (promoted, seed') =>
      let '(parts, c') :=
        balanced_partition promoted first_partition second_partition c in
      Some (promoted, parts, c', seed')
  end.

End SplitPolicies.

(** ** mtree.h: the node model *)

(** The four concrete node classes. *)
Inductive NodeClass := RootLeafNode | RootNode | InternalNode | LeafNode.

(** [IndexItem] with its two families of subclasses: [Entry] and the
    classes derived from [Node].  [children] is the [ChildrenMap]. *)
#[warnings="-register-all"]
Inductive IndexItem :=
| Entry (data : Data) (radius distanceToParent : Z)
| Node (cls : NodeClass) (data : Data) (radius distanceToParent : Z)
       (children : list (Data * IndexItem)).

Definition ChildrenMap := list (Data * IndexItem).

Definition item_data (i : IndexItem) : Data :=
  match i with Entry d _ _ => d | Node _ d _ _ _ => d end.

Definition item_radius (i : IndexItem) : Z :=
  match i with Entry _ r _ => r | Node _ _ r _ _ => r end.

Definition item_distanceToParent (i : IndexItem) : Z :=
  match i with Entry _ _ p => p | Node _ _ _ p _ => p end.

Definition item_children (i : IndexItem) : ChildrenMap :=
  match i with Entry _ _ _ => [] | Node _ _ _ _ ch => ch end.

Definition set_distanceToParent (i : IndexItem) (p : Z) : IndexItem :=
  match i with
  | Entry d r _ => Entry d r p
  | Node c d r _ ch => Node c d r p ch
  end.

Definition set_children (i : IndexItem) (ch : ChildrenMap) : IndexItem :=
  match i with
  | Entry d r p => Entry d r p
  | Node c d r p _ => Node c d r p ch
  end.

Definition is_entry (i : IndexItem) : bool :=
  match i with Entry _ _ _ => true | Node _ _ _ _ _ => false end.

(** [IndexItem(data)]: radius 0, distanceToParent -1. *)
Definition new_entry (data : Data) : IndexItem := Entry data 0 (-1).
Definition new_node (cls : NodeClass) (data : Data) : IndexItem :=
  Node cls data 0 (-1) [].

(** [children.find(key)] *)
Fixpoint map_find (key : Data) (m : ChildrenMap) : option IndexItem :=
  match m with
  | [] => None
  | (k, v) :: m' => if key =? k then Some v else map_find key m'
  end.

(** [children[key] = v] *)
Fixpoint map_set (key : Data) (v : IndexItem) (m : ChildrenMap) : ChildrenMap :=
  match m with
  | [] => [(key, v)]
  | (k, w) :: m' =>
      if key <? k then (key, v) :: (k, w) :: m'
      else if key =? k then (k, v) :: m'
      else (k, w) :: map_set key v m'
  end.

(** [children.erase(key)] *)
Fixpoint map_erase (key : Data) (m : ChildrenMap) : ChildrenMap :=
  match m with
  | [] => []
  | (k, w) :: m' => if key =? k then m' else (k, w) :: map_erase key m'
  end.

(** [children.size()] as a [size_t]. *)
Definition map_size (m : ChildrenMap) : Z := Z.of_nat (length m).

(** Which of [LeafNodeTrait] / [NonLeafNodeTrait] a class derives from. *)
Definition is_leaf_class (cls : NodeClass) : bool :=
  match cls with RootLeafNode | LeafNode => true | RootNode | InternalNode => false end.

(** The exception classes, plus [Normal] for a call that returns. *)
Inductive signal :=
| Normal
| SplitNodeReplacement (newNodes0 newNodes1 : IndexItem)
| RootNodeReplacement (newRoot : option IndexItem)
| NodeUnderCapacity
| DataNotFound (data : Data).

(** The class [mtree] without its function objects. *)
Record mtree := mk_mtree {
  minNodeCapacity : Z;
  maxNodeCapacity : Z;
  root : option IndexItem
}.

Definition SIZE_MAX : Z := 2 ^ 64 - 1.

(** The constructor: [max_node_capacity == size_t(-1)] selects
    [2 * min_node_capacity - 1], computed in [size_t]. *)
Definition mtree_new (min_node_capacity max_node_capacity : Z) : mtree :=
  mk_mtree min_node_capacity
    (if max_node_capacity =? SIZE_MAX
     then (2 * min_node_capacity - 1) mod 2 ^ 64
     else max_node_capacity)
    None.


(** [getMinCapacity]: 1 in [RootLeafNode], 2 in [RootNode],
    [minNodeCapacity] in [NonRootNodeTrait]. *)
Definition getMinCapacity (mt : mtree) (cls : NodeClass) : Z :=
  match cls with
  | RootLeafNode => 1
  | RootNode => 2
  | InternalNode | LeafNode => minNodeCapacity mt
  end.

(** [newSplitNodeReplacement] *)
Definition newSplitNodeReplacement (cls : NodeClass) (data : Data) : IndexItem :=
  new_node (if is_leaf_class cls then LeafNode else InternalNode) data.

(** [updateRadius(child)] *)
Definition updateRadius (this child : IndexItem) : IndexItem :=
  match this with
  | Entry d r p => Entry d r p
  | Node c d r p ch =>
      Node c d (Z.max r (item_distanceToParent child + item_radius child)) p ch
  end.

(** [this->children[child->data] = child; updateMetrics(child, distance);] *)
Definition store_child (this child : IndexItem) (distance : Z) : IndexItem :=
  let child' := set_distanceToParent child distance in
  updateRadius
    (set_children this (map_set (item_data child) child' (item_children this)))
    child'.

(** The local struct of [NonLeafNodeTrait::doAddData]. *)
Record CandidateChild := mk_candidate {
  cand_node : option IndexItem;
  cand_distance : Z;
  cand_metric : xdist
}.

(** ** mtree.h: the mutation engine *)

Section Engine.

Variable rand_stream : nat -> Z.
Variable distance_function : Data -> Data -> Z.

(** The loop of [NonLeafNodeTrait::doAddData] over the children, in key
    order, keeping the two candidates. *)
Fixpoint scan_candidates (data : Data) (children : ChildrenMap)
    (minRadiusIncreaseNeeded nearestDistance : CandidateChild)
  : option (CandidateChild * CandidateChild) :=
  match children with
  | [] => Some (minRadiusIncreaseNeeded, nearestDistance)
  | (_, child) :: rest =>
      if is_entry child then None
      else
        let distance := distance_function (item_data child) data in
        if distance >? item_radius child then
          let radiusIncrease := distance - item_radius child in
          if lt_x radiusIncrease (cand_metric minRadiusIncreaseNeeded) then
            scan_candidates data rest
              (mk_candidate (Some child) distance (Fin radiusIncrease))
              nearestDistance
          else scan_candidates data rest minRadiusIncreaseNeeded nearestDistance
        else
          if lt_x distance (cand_metric nearestDistance) then
            scan_candidates data rest minRadiusIncreaseNeeded
              (mk_candidate (Some child) distance (Fin distance))
          else scan_candidates data rest minRadiusIncreaseNeeded nearestDistance
  end.

(** The candidate [chosen] by [NonLeafNodeTrait::doAddData]. *)
Definition choose_child (data : Data) (children : ChildrenMap)
  : option CandidateChild :=
  match scan_candidates data children
          (mk_candidate None (-1) Infty) (mk_candidate None (-1) Infty) with
  | None => None
  | Some (minRadiusIncreaseNeeded, nearestDistance) =>
      Some (match cand_node nearestDistance with
            | Some _ => nearestDistance
            | None => minRadiusIncreaseNeeded
            end)
  end.

(** The [for] loop of [NonLeafNodeTrait::addChild] that transfers the
    children of [newChild] to [existingChild]; [add] is [addChild]. *)
Fixpoint transfer_children
    (add : IndexItem -> IndexItem -> Z -> nat -> option (IndexItem * nat))
    (existing : IndexItem) (l : ChildrenMap) (seed : nat)
  : option (IndexItem * nat) :=
  match l with
  | [] => Some (existing, seed)
  | (_, grandchild) :: l' =>
      match add existing grandchild (item_distanceToParent grandchild) seed with
      | None => None
      | Some (existing', seed') => transfer_children add existing' l' seed'
      end
  end.

(** The inner [for] loop of [checkMaxCapacity]: move the children named by
    [partition] from [children] into [newNode]; [add] is [addChild]. *)
Fixpoint move_children
    (add : IndexItem -> IndexItem -> Z -> nat -> option (IndexItem * nat))
    (promotedData : Data) (newNode : IndexItem) (partition : list Data)
    (children : ChildrenMap) (c : Cache.t) (seed : nat)
  : option (IndexItem * ChildrenMap * Cache.t * nat) :=
  match partition with
  | [] => Some (newNode, children, c, seed)
  | data :: partition' =>
      match map_find data children with
      | None => None
      | Some child =>
          let '(distance, c') :=
            Cache.call distance_function c promotedData data in
          match add newNode child distance seed with
          | None => None
          | Some (newNode', seed') =>
              move_children add promotedData newNode' partition'
                (map_erase data children) c' seed'
          end
      end
  end.

(** The keys of a children map, as the [Partition] that
    [checkMaxCapacity] fills. *)
Definition key_set (children : ChildrenMap) : list Data :=
  fold_left (fun s kv => set_insert kv.1 s) children [].

(** [addChild], the loop of [NonLeafNodeTrait::addChild] over the vector
    [newChildren] (its back is the head of the list), and
    [checkMaxCapacity]. *)
Fixpoint addChild (fuel : nat) (mt : mtree) (this child : IndexItem)
    (distance : Z) (seed : nat) {struct fuel} : option (IndexItem * nat) :=
  match fuel with
  | O => None
  | S fuel' =>
      match this with
      | Entry _ _ _ => None
      | Node cls _ _ _ children =>
          if is_leaf_class cls then
            (* LeafNodeTrait::addChild *)
            match map_find (item_data child) children with
            | Some _ => None
            | None => Some (store_child this child distance, seed)
            end
          else
            (* NonLeafNodeTrait::addChild *)
            if is_entry child then None
            else addChild_loop fuel' mt this [(child, distance)] seed
      end
  end

with addChild_loop (fuel : nat) (mt : mtree) (this : IndexItem)
    (newChildren : list (IndexItem * Z)) (seed : nat) {struct fuel}
  : option (IndexItem * nat) :=
  match fuel with
  | O => None
  | S fuel' =>
      match newChildren with
      | [] => Some (this, seed)
      | (newChild, distance) :: newChildren' =>
          match map_find (item_data newChild) (item_children this) with
          | None =>
              addChild_loop fuel' mt (store_child this newChild distance)
                newChildren' seed
          | Some existingChild =>
              if is_entry existingChild then None
              else
                match transfer_children (addChild fuel' mt) existingChild
                        (item_children newChild) seed with
                | None => None
                | Some (existing1, seed1) =>
                    match checkMaxCapacity fuel' mt existing1 seed1 with
                    | None => None
                    | Some (existing2, Normal, seed2) =>
                        addChild_loop fuel' mt
                          (set_children this
                             (map_set (item_data existing2) existing2
                                (item_children this)))
                          newChildren' seed2
                    | Some (_, SplitNodeReplacement newNode0 newNode1, seed2) =>
                        let this' :=
                          set_children this
                            (map_erase (item_data existingChild)
                               (item_children this)) in
                        addChild_loop fuel' mt this'
                          ((newNode1,
                            distance_function (item_data this) (item_data newNode1))
                           :: (newNode0,
                               distance_function (item_data this) (item_data newNode0))
                           :: newChildren')
                          seed2
                    | Some (_, _, _) => None
                    end
                end
          end
      end
  end

with checkMaxCapacity (fuel : nat) (mt : mtree) (this : IndexItem)
    (seed : nat) {struct fuel} : option (IndexItem * signal * nat) :=
  match fuel with
  | O => None
  | S fuel' =>
      match this with
      | Entry _ _ _ => None
      | Node cls _ _ _ children =>
          if map_size children >? maxNodeCapacity mt then
            match split_function rand_stream distance_function
                    (key_set children) [] Cache.fresh seed with
            | None => None
            | Some (promoted, (firstPartition, secondPartition),
                    cachedDistanceFunction, seed') =>
                match move_children (addChild fuel' mt) promoted.1
                        (newSplitNodeReplacement cls promoted.1)
                        firstPartition children cachedDistanceFunction seed' with
                | None => None
                | Some (newNode0, children0, c0, seed0) =>
                    match move_children (addChild fuel' mt) promoted.2
                            (newSplitNodeReplacement cls promoted.2)
                            secondPartition children0 c0 seed0 with
                    | None => None
                    | Some (newNode1, children1, _, seed1) =>
                        match children1 with
                        | [] =>
                            Some (set_children this [],
                                  SplitNodeReplacement newNode0 newNode1, seed1)
                        | _ :: _ => None
                        end
                    end
                end
            end
          else Some (this, Normal, seed)
      end
  end.

(** The rest of [NonLeafNodeTrait::doAddData] once [child->addData] has
    returned or thrown: [result] is the outcome of that call. *)
Definition after_child_addData (fuel : nat) (mt : mtree) (this child : IndexItem)
    (result : option (IndexItem * signal * nat)) : option (IndexItem * nat) :=
  match result with
  | None => None
  | Some (child', Normal, seed') =>
      Some (updateRadius
              (set_children this
                 (map_set (item_data child') child' (item_children this)))
              child',
            seed')
  | Some (_, SplitNodeReplacement newChild0 newChild1, seed') =>
      let this' :=
        set_children this (map_erase (item_data child) (item_children this)) in
      match addChild fuel mt this' newChild0
              (distance_function (item_data this) (item_data newChild0))
              seed' with
      | None => None
      | Some (this'', seed'') =>
          addChild fuel mt this'' newChild1
            (distance_function (item_data this) (item_data newChild1))
            seed''
      end
  | Some (_, _, _) => None
  end.

(** [Node::addData] and the two [doAddData]. *)
Fixpoint addData (fuel : nat) (mt : mtree) (this : IndexItem) (data : Data)
    (distance : Z) (seed : nat) {struct fuel}
  : option (IndexItem * signal * nat) :=
  match fuel with
  | O => None
  | S fuel' =>
      match doAddData fuel' mt this data distance seed with
      | None => None
      | Some (this', seed') => checkMaxCapacity fuel mt this' seed'
      end
  end

with doAddData (fuel : nat) (mt : mtree) (this : IndexItem) (data : Data)
    (distance : Z) (seed : nat) {struct fuel} : option (IndexItem * nat) :=
  match fuel with
  | O => None
  | S fuel' =>
      match this with
      | Entry _ _ _ => None
      | Node cls _ _ _ children =>
          if is_leaf_class cls then
            (* LeafNodeTrait::doAddData *)
            match map_find data children with
            | Some _ => None
            | None => Some (store_child this (new_entry data) distance, seed)
            end
          else
            (* NonLeafNodeTrait::doAddData *)
            match choose_child data children with
            | None => None
            | Some chosen =>
                match cand_node chosen with
                | None => None
                | Some child =>
                    after_child_addData fuel mt this child
                      (addData fuel' mt child data (cand_distance chosen) seed)
                end
            end
      end
  end.

End Engine.

Section Removal.

Variable rand_stream : nat -> Z.
Variable distance_function : Data -> Data -> Z.

(** The first loop of [balanceChildren]: the nearest donor and the nearest
    merge candidate among the siblings of [theChild], each with its
    distance from [theChild]. *)
Fixpoint scan_siblings (mt : mtree) (theChild : IndexItem)
    (children : ChildrenMap)
    (nearestDonor : option IndexItem) (distanceNearestDonor : xdist)
    (nearestMergeCandidate : option IndexItem)
    (distanceNearestMergeCandidate : xdist)
  : option (option IndexItem * option IndexItem) :=
  match children with
  | [] => Some (nearestDonor, nearestMergeCandidate)
  | (_, anotherChild) :: rest =>
      match anotherChild with
      | Entry _ _ _ => None
      | Node acls adata _ _ achildren =>
          if adata =? item_data theChild then
            scan_siblings mt theChild rest nearestDonor distanceNearestDonor
              nearestMergeCandidate distanceNearestMergeCandidate
          else
            let distance := distance_function (item_data theChild) adata in
            if map_size achildren >? getMinCapacity mt acls then
              if lt_x distance distanceNearestDonor then
                scan_siblings mt theChild rest (Some anotherChild) (Fin distance)
                  nearestMergeCandidate distanceNearestMergeCandidate
              else
                scan_siblings mt theChild rest nearestDonor distanceNearestDonor
                  nearestMergeCandidate distanceNearestMergeCandidate
            else
              if lt_x distance distanceNearestMergeCandidate then
                scan_siblings mt theChild rest nearestDonor distanceNearestDonor
                  (Some anotherChild) (Fin distance)
              else
                scan_siblings mt theChild rest nearestDonor distanceNearestDonor
                  nearestMergeCandidate distanceNearestMergeCandidate
      end
  end.

(** The loop of the donation branch: the grandchild of the donor nearest
    to [theChild]. *)
Fixpoint scan_grandchildren (theChild : IndexItem) (grandchildren : ChildrenMap)
    (nearestGrandchild : option IndexItem) (nearestGrandchildDistance : xdist)
  : option IndexItem * xdist :=
  match grandchildren with
  | [] => (nearestGrandchild, nearestGrandchildDistance)
  | (_, grandchild) :: rest =>
      let distance := distance_function (item_data grandchild) (item_data theChild) in
      if lt_x distance nearestGrandchildDistance then
        scan_grandchildren theChild rest (Some grandchild) (Fin distance)
      else
        scan_grandchildren theChild rest nearestGrandchild nearestGrandchildDistance
  end.

(** [addChild] of every child in [l], each at the distance [dist] gives. *)
Fixpoint addChildren (fuel : nat) (mt : mtree) (this : IndexItem)
    (dist : IndexItem -> Z) (l : ChildrenMap) (seed : nat)
  : option (IndexItem * nat) :=
  match l with
  | [] => Some (this, seed)
  | (_, grandchild) :: l' =>
      match addChild rand_stream distance_function fuel mt this grandchild
              (dist grandchild) seed with
      | None => None
      | Some (this', seed') => addChildren fuel mt this' dist l' seed'
      end
  end.

(** [NonLeafNodeTrait::balanceChildren].  [theChild] is a child of [this]
    (already in its state after the removal); the result is the updated
    [this] and the node the source returns.  When [theChild] has no
    sibling both [nearestDonor] and [nearestMergeCandidate] stay null and
    the source dereferences the latter: no result. *)
Definition balanceChildren (fuel : nat) (mt : mtree) (this theChild : IndexItem)
    (seed : nat) : option (IndexItem * IndexItem * nat) :=
  match scan_siblings mt theChild (item_children this) None Infty None Infty with
  | None => None
  | Some (None, None) => None
  | Some (None, Some nearestMergeCandidate) =>
      (* Merge *)
      match addChildren fuel mt nearestMergeCandidate
              (fun grandchild =>
                 distance_function (item_data grandchild)
                   (item_data nearestMergeCandidate))
              (item_children theChild) seed with
      | None => None
      | Some (merged, seed') =>
          Some (set_children this
                  (map_erase (item_data theChild)
                     (map_set (item_data merged) merged (item_children this))),
                merged, seed')
      end
  | Some (Some nearestDonor, _) =>
      (* Donate *)
      match scan_grandchildren theChild (item_children nearestDonor) None Infty with
      | (Some nearestGrandchild, Fin nearestGrandchildDistance) =>
          let donor' :=
            set_children nearestDonor
              (map_erase (item_data nearestGrandchild) (item_children nearestDonor)) in
          match addChild rand_stream distance_function fuel mt theChild
                  nearestGrandchild nearestGrandchildDistance seed with
          | None => None
          | Some (theChild', seed') =>
              Some (set_children this
                      (map_set (item_data theChild') theChild'
                         (map_set (item_data donor') donor' (item_children this))),
                    theChild', seed')
          end
      | _ => None
      end
  end.

(** The body shared by every [removeData]: [Node::removeData] on top of
    the [doRemoveData] given as [doRemove]. *)
Definition Node_removeData (mt : mtree)
    (doRemove : option (IndexItem * signal * nat))
  : option (IndexItem * signal * nat) :=
  match doRemove with
  | Some (this', Normal, seed') =>
      match this' with
      | Entry _ _ _ => None
      | Node cls _ _ _ children =>
          if map_size children <? getMinCapacity mt cls
          then Some (this', NodeUnderCapacity, seed')
          else Some (this', Normal, seed')
      end
  | other => other
  end.

(** The [catch(NodeUnderCapacity&)] of [RootNode::removeData]: promote the
    only child. *)
Definition promote_only_child (fuel : nat) (mt : mtree) (this : IndexItem)
    (seed : nat) : option (IndexItem * signal * nat) :=
  match item_children this with
  | [] => None
  | (_, theChild) :: _ =>
      match theChild with
      | Entry _ _ _ => None
      | Node ccls cdata _ _ grandchildren =>
          match
            match ccls with
            | InternalNode => Some (new_node RootNode cdata)
            | LeafNode => Some (new_node RootLeafNode cdata)
            | _ => None
            end
          with
          | None => None
          | Some newRoot =>
              match addChildren fuel mt newRoot
                      (fun grandchild =>
                         distance_function (item_data newRoot) (item_data grandchild))
                      grandchildren seed with
              | None => None
              | Some (newRoot', seed') =>
                  Some (set_children this
                          (map_set cdata (set_children theChild [])
                             (item_children this)),
                        RootNodeReplacement (Some newRoot'), seed')
              end
          end
      end
  end.

(** The [for] loop of [NonLeafNodeTrait::doRemoveData] over the children
    [l] of [this]; [rm] is [removeData] and [balance] is [balanceChildren]. *)
Fixpoint try_children
    (rm : IndexItem -> Data -> Z -> nat -> option (IndexItem * signal * nat))
    (balance : IndexItem -> IndexItem -> nat -> option (IndexItem * IndexItem * nat))
    (data : Data) (distance : Z) (this : IndexItem) (l : ChildrenMap) (seed : nat)
  : option (IndexItem * signal * nat) :=
  match l with
  | [] => Some (this, DataNotFound data, seed)
  | (_, child) :: l' =>
      if is_entry child then None
      else if Z.abs (distance - item_distanceToParent child) <=? item_radius child then
        let distanceToChild := distance_function data (item_data child) in
        if distanceToChild <=? item_radius child then
          match rm child data distanceToChild seed with
          | None => None
          | Some (child', sig, seed') =>
              let this' :=
                set_children this
                  (map_set (item_data child') child' (item_children this)) in
              match sig with
              | Normal => Some (updateRadius this' child', Normal, seed')
              | DataNotFound _ =>
                  try_children rm balance data distance this' l' seed'
              | NodeUnderCapacity =>
                  match balance this' child' seed' with
                  | None => None
                  | Some (this'', expandedChild, seed'') =>
                      Some (updateRadius this'' expandedChild, Normal, seed'')
                  end
              | other => Some (this', other, seed')
              end
          end
        else try_children rm balance data distance this l' seed
      else try_children rm balance data distance this l' seed
  end.

(** [removeData] (virtual) and the two [doRemoveData]. *)
Fixpoint removeData (fuel : nat) (mt : mtree) (this : IndexItem) (data : Data)
    (distance : Z) (seed : nat) {struct fuel}
  : option (IndexItem * signal * nat) :=
  match fuel with
  | O => None
  | S fuel' =>
      let base := Node_removeData mt (doRemoveData fuel' mt this data distance seed) in
      match this with
      | Entry _ _ _ => None
      | Node RootLeafNode _ _ _ _ =>
          match base with
          | Some (this', NodeUnderCapacity, seed') =>
              match item_children this' with
              | [] => Some (this', RootNodeReplacement None, seed')
              | _ :: _ => None
              end
          | other => other
          end
      | Node RootNode _ _ _ _ =>
          match base with
          | Some (this', NodeUnderCapacity, seed') =>
              promote_only_child fuel mt this' seed'
          | other => other
          end
      | Node _ _ _ _ _ => base
      end
  end

with doRemoveData (fuel : nat) (mt : mtree) (this : IndexItem) (data : Data)
    (distance : Z) (seed : nat) {struct fuel}
  : option (IndexItem * signal * nat) :=
  match fuel with
  | O => None
  | S fuel' =>
      match this with
      | Entry _ _ _ => None
      | Node cls _ _ _ children =>
          if is_leaf_class cls then
            (* LeafNodeTrait::doRemoveData *)
            match map_find data children with
            | None => Some (this, DataNotFound data, seed)
            | Some _ => Some (set_children this (map_erase data children), Normal, seed)
            end
          else
            (* NonLeafNodeTrait::doRemoveData *)
            try_children (removeData fuel' mt) (balanceChildren fuel' mt)
              data distance this children seed
      end
  end.

(** ** mtree.h: the public mutations *)

(** [mtree::add] *)
Definition add (fuel : nat) (mt : mtree) (data : Data) (seed : nat)
  : option (mtree * nat) :=
  match root mt with
  | None =>
      match addData rand_stream distance_function fuel mt
              (new_node RootLeafNode data) data 0 seed with
      | Some (root', Normal, seed') =>
          Some (mk_mtree (minNodeCapacity mt) (maxNodeCapacity mt) (Some root'), seed')
      | _ => None
      end
  | Some r =>
      let distance := distance_function data (item_data r) in
      match addData rand_stream distance_function fuel mt r data distance seed with
      | Some (root', Normal, seed') =>
          Some (mk_mtree (minNodeCapacity mt) (maxNodeCapacity mt) (Some root'), seed')
      | Some (_, SplitNodeReplacement newNode0 newNode1, seed') =>
          let newRoot := new_node RootNode (item_data r) in
          match addChild rand_stream distance_function fuel mt newRoot newNode0
                  (distance_function (item_data newRoot) (item_data newNode0))
                  seed' with
          | None => None
          | Some (newRoot', seed'') =>
              match addChild rand_stream distance_function fuel mt newRoot' newNode1
                      (distance_function (item_data newRoot') (item_data newNode1))
                      seed'' with
              | None => None
              | Some (newRoot'', seed''') =>
                  Some (mk_mtree (minNodeCapacity mt) (maxNodeCapacity mt)
                          (Some newRoot''), seed''')
              end
          end
      | _ => None
      end
  end.

(** [mtree::remove]: the returned [bool], the tree and the [rand()] count. *)
Definition remove (fuel : nat) (mt : mtree) (data : Data) (seed : nat)
  : option (bool * mtree * nat) :=
  match root mt with
  | None => Some (false, mt, seed)
  | Some r =>
      let distanceToRoot := distance_function data (item_data r) in
      match removeData fuel mt r data distanceToRoot seed with
      | Some (root', Normal, seed') =>
          Some (true,
                mk_mtree (minNodeCapacity mt) (maxNodeCapacity mt) (Some root'),
                seed')
      | Some (_, RootNodeReplacement newRoot, seed') =>
          Some (true,
                mk_mtree (minNodeCapacity mt) (maxNodeCapacity mt) newRoot, seed')
      | Some (root', DataNotFound _, seed') =>
          Some (false,
                mk_mtree (minNodeCapacity mt) (maxNodeCapacity mt) (Some root'),
                seed')
      | _ => None
      end
  end.

End Removal.

(** ** mtree.h: the nearest-neighbour query *)

(** [query::iterator::ItemWithDistances<U>] *)
Record ItemWithDistances := mk_iwd {
  iwd_item : IndexItem;
  iwd_distance : Z;
  iwd_minDistance : Z
}.

(** [std::priority_queue<ItemWithDistances<U>>]: [operator<] makes the item
    of least [minDistance] the top.  The queue is the list of its items in
    the order [top]/[pop] deliver them; among items of equal [minDistance]
    (an order the standard leaves open) the earlier push comes first. *)
Fixpoint pq_push (x : ItemWithDistances) (q : list ItemWithDistances)
  : list ItemWithDistances :=
  match q with
  | [] => [x]
  | y :: q' =>
      if iwd_minDistance x <? iwd_minDistance y then x :: y :: q'
      else y :: pq_push x q'
  end.

(** [query]; [q_addr] stands for the address of the object, which
    [iterator::operator==] compares. *)
Record query := mk_query {
  q_addr : nat;
  q_mtree : mtree;
  q_data : Data;
  q_range : xdist;
  q_limit : Z
}.

(** [query::result_item] *)
Record result_item := mk_result {
  res_data : Data;
  res_distance : Z
}.

(** [query::iterator]; [it_query] is the pointer [_query]. *)
Record iterator := mk_iterator {
  it_query : option nat;
  currentResultItem : option result_item;
  isEnd : bool;
  pendingQueue : list ItemWithDistances;
  nextPendingMinDistance : xdist;
  nearestQueue : list ItemWithDistances;
  yieldedCount : Z
}.

(** [get_nearest(query_data, range, limit)] *)
Definition get_nearest (addr : nat) (mt : mtree) (query_data : Data)
    (range : xdist) (limit : Z) : query :=
  mk_query addr mt query_data range limit.




(** [iterator()], which [query::end] returns. *)
Definition end_iterator : iterator :=
  mk_iterator None None true [] Infty [] 0.

(** [iterator::operator==] *)
Definition iterator_eq (a b : iterator) : bool :=
  if isEnd a && isEnd b then true
  else if isEnd a || isEnd b then false
  else
    match it_query a, it_query b with
    | Some qa, Some qb => Nat.eqb qa qb && (yieldedCount a =? yieldedCount b)
    | None, None => yieldedCount a =? yieldedCount b
    | _, _ => false
    end.

Definition set_isEnd (it : iterator) : iterator :=
  mk_iterator (it_query it) (currentResultItem it) true (pendingQueue it)
    (nextPendingMinDistance it) (nearestQueue it) (yieldedCount it).

Section Query.

Variable distance_function : Data -> Data -> Z.

(** [prepareNextNearest] *)
Definition prepareNextNearest (it : iterator) : bool * iterator :=
  match nearestQueue it with
  | nextNearest :: nearestQueue' =>
      if le_x (iwd_distance nextNearest) (nextPendingMinDistance it) then
        (true,
         mk_iterator (it_query it)
           (Some (mk_result (item_data (iwd_item nextNearest))
                    (iwd_distance nextNearest)))
           (isEnd it) (pendingQueue it) (nextPendingMinDistance it)
           nearestQueue' (yieldedCount it + 1))
      else (false, it)
  | [] => (false, it)
  end.

(** The [for] loop of [fetchNext] over the children of the node just taken
    from the pending queue. *)
Fixpoint expand (q : query) (pending_distance : Z) (children : ChildrenMap)
    (pendingQueue nearestQueue : list ItemWithDistances)
  : list ItemWithDistances * list ItemWithDistances :=
  match children with
  | [] => (pendingQueue, nearestQueue)
  | (_, child) :: rest =>
      if le_x (Z.abs (pending_distance - item_distanceToParent child)
                 - item_radius child) (q_range q) then
        let childDistance := distance_function (q_data q) (item_data child) in
        let childMinDistance := Z.max (childDistance - item_radius child) 0 in
        if le_x childMinDistance (q_range q) then
          if is_entry child then
            expand q pending_distance rest pendingQueue
              (pq_push (mk_iwd child childDistance childMinDistance) nearestQueue)
          else
            expand q pending_distance rest
              (pq_push (mk_iwd child childDistance childMinDistance) pendingQueue)
              nearestQueue
        else expand q pending_distance rest pendingQueue nearestQueue
      else expand q pending_distance rest pendingQueue nearestQueue
  end.

(** The [while] loop of [fetchNext]. *)
Fixpoint fetch_loop (fuel : nat) (q : query) (it : iterator) : option iterator :=
  match fuel with
  | O => None
  | S fuel' =>
      match pendingQueue it, nearestQueue it with
      | [], [] => Some (set_isEnd it)
      | _, _ =>
          match prepareNextNearest it with
          | (true, it') => Some it'
          | (false, _) =>
              match pendingQueue it with
              | [] => None
              | pending :: pendingQueue' =>
                  let '(pendingQueue'', nearestQueue') :=
                    expand q (iwd_distance pending)
                      (item_children (iwd_item pending))
                      pendingQueue' (nearestQueue it) in
                  fetch_loop fuel' q
                    (mk_iterator (it_query it) (currentResultItem it) (isEnd it)
                       pendingQueue''
                       (match pendingQueue'' with
                        | [] => Infty
                        | top :: _ => Fin (iwd_minDistance top)
                        end)
                       nearestQueue' (yieldedCount it))
              end
          end
      end
  end.

(** [fetchNext] *)
Definition fetchNext (fuel : nat) (q : query) (it : iterator) : option iterator :=
  if isEnd it || (yieldedCount it >=? q_limit q) then Some (set_isEnd it)
  else fetch_loop fuel q it.

(** The constructor of [iterator] from a [query], which [query::begin]
    returns. *)
Definition begin (fuel : nat) (q : query) : option iterator :=
  match root (q_mtree q) with
  | None => Some (mk_iterator (Some (q_addr q)) None true [] Infty [] 0)
  | Some r =>
      let distance := distance_function (q_data q) (item_data r) in
      let minDistance := Z.max (distance - item_radius r) 0 in
      fetchNext fuel q
        (mk_iterator (Some (q_addr q)) None false
           [mk_iwd r distance minDistance] (Fin minDistance) [] 0)
  end.

(** A caller's loop [for (i = q.begin(); i != q.end(); ++i)] collecting the
    items it visits, bounded by [steps] results. *)
Fixpoint drain (steps fuel : nat) (q : query) (it : iterator)
  : option (list result_item) :=
  if negb (iterator_eq it end_iterator) then
    match steps with
    | O => None
    | S steps' =>
        match currentResultItem it, fetchNext fuel q it with
        | Some r, Some it' =>
            match drain steps' fuel q it' with
            | Some rs => Some (r :: rs)
            | None => None
            end
        | _, _ => None
        end
    end
  else Some [].

Definition results (steps fuel : nat) (q : query) : option (list result_item) :=
  match begin fuel q with
  | None => None
  | Some it => drain steps fuel q it
  end.

End Query.

(** ** Sequences of public operations *)

Inductive operation := Add (data : Data) | Remove (data : Data).

Section Runs.

Variable rand_stream : nat -> Z.
Variable distance_function : Data -> Data -> Z.

(** Apply the operations in order; the result carries the [bool] returned
    by each [remove]. *)
Fixpoint run (fuel : nat) (ops : list operation) (mt : mtree) (seed : nat)
  : option (mtree * list bool * nat) :=
  match ops with
  | [] => Some (mt, [], seed)
  | Add data :: ops' =>
      match add rand_stream distance_function fuel mt data seed with
      | None => None
      | Some (mt', seed') => run fuel ops' mt' seed'
      end
  | Remove data :: ops' =>
      match remove rand_stream distance_function fuel mt data seed with
      | None => None
      | Some (found, mt', seed') =>
          match run fuel ops' mt' seed' with
          | None => None
          | Some (mt'', founds, seed'') => Some (mt'', found :: founds, seed'')
          end
      end
  end.

End Runs.

(** The objects indexed by a subtree: the data of its entries, in key
    order of the children maps. *)
Fixpoint indexed (i : IndexItem) : list Data :=
  match i with
  | Entry data _ _ => [data]
  | Node _ _ _ _ children =>
      (fix over (l : ChildrenMap) : list Data :=
         match l with
         | [] => []
         | (_, child) :: l' => indexed child ++ over l'
         end) children
  end.

Definition indexed_objects (mt : mtree) : list Data :=
  match root mt with
  | None => []
  | Some r => indexed r
  end.

(** A metric on [Data]: the distance on the integer line. *)
Definition line_distance (a b : Data) : Z := Z.abs (a - b).

(** A [rand()] that returns the listed values, then 0. *)
Definition rand_of (values : list Z) : nat -> Z :=
  fun n => nth n values 0.

(** ** Properties the theorems are stated with *)

(** The pair [(a, b)], in either order, is in the log of computed pairs. *)
Definition previously_computed (c : Cache.t) (a b : Data) : Prop :=
  (a, b) ∈ Cache.calls c \/ (b, a) ∈ Cache.calls c.

(** What the cache of a reachable object holds, in terms of the log. *)
Record cache_inv (d : Data -> Data -> Z) (c : Cache.t) : Prop := {
  inv_sound : forall a b v, Cache.cache c !! (a, b) = Some v ->
      ((a, b) ∈ Cache.calls c /\ v = d a b)
      \/ ((b, a) ∈ Cache.calls c /\ v = d b a);
  inv_complete : forall a b, (a, b) ∈ Cache.calls c ->
      Cache.cache c !! (a, b) = Some (d a b)
      /\ Cache.cache c !! (b, a) = Some (d a b);
  inv_once : Cache.once_per_pair (Cache.calls c)
}.

(** A [std::set<Data>]: strictly ascending. *)
Definition is_set (s : list Data) : Prop := StronglySorted Z.lt s.

(** What a split function owes its caller: two distinct promoted objects
    of [S] and a partition of [S] into two sets, each holding its promoted
    object, of sizes that differ by at most one. *)
Definition split_ok (S : list Data) (promoted : Data * Data)
    (parts : list Data * list Data) : Prop :=
  promoted.1 <> promoted.2 /\ promoted.1 ∈ S /\ promoted.2 ∈ S
  /\ is_set parts.1 /\ is_set parts.2
  /\ (forall x, x ∈ parts.1 -> x ∉ parts.2)
  /\ (forall x, x ∈ S <-> x ∈ parts.1 \/ x ∈ parts.2)
  /\ promoted.1 ∈ parts.1 /\ promoted.2 ∈ parts.2
  /\ (Z.abs (Z.of_nat (length parts.1) - Z.of_nat (length parts.2)) <= 1).

(** A distance function that is not a metric: an object is at distance 10
    from itself. *)
Definition skewed_distance (x y : Data) : Z :=
  if x =? y then 10 else Z.abs (x - y).

(** [promoted], if it is in the queue, is at its front. *)
Definition front_ok (promoted : Data) (l : list Data) : Prop :=
  promoted ∈ l -> head l = Some promoted.

(** The invariant of the outer loop of [balanced_partition] on the set [S]. *)
Record distribute_inv (S queue1 queue2 first second : list Data) : Prop := {
  di_first_in : forall x, x ∈ first -> x ∈ S;
  di_second_in : forall x, x ∈ second -> x ∈ S;
  di_disjoint : forall x, x ∈ first -> x ∉ second;
  di_pending : forall x, x ∈ S -> x ∉ first -> x ∉ second ->
      x ∈ queue1 /\ x ∈ queue2;
  di_queue1_new : forall x, x ∈ queue1 -> x ∉ first;
  di_queue2_new : forall x, x ∈ queue2 -> x ∉ second;
  di_queue1_in : forall x, x ∈ queue1 -> x ∈ S;
  di_queue2_in : forall x, x ∈ queue2 -> x ∈ S;
  di_nodup1 : NoDup queue1;
  di_nodup2 : NoDup queue2;
  di_sizes : length first = length second
             \/ (length first = Datatypes.S (length second)
                 /\ forall x, x ∈ S -> x ∈ first \/ x ∈ second)
}.

(** [child] covers [data]: no growth of its radius is needed. *)
Definition covers (d : Data -> Data -> Z) (data : Data) (c : IndexItem) : Prop :=
  d (item_data c) data <= item_radius c.

(** The state of [nearestDistance] after the children in [seen]. *)
Definition nearest_ok (d : Data -> Data -> Z) (data : Data)
    (seen : list IndexItem) (nd : CandidateChild) : Prop :=
  match cand_node nd with
  | None => cand_metric nd = Infty /\ forall c, c ∈ seen -> ~ covers d data c
  | Some c =>
      c ∈ seen /\ covers d data c /\ cand_distance nd = d (item_data c) data
      /\ cand_metric nd = Fin (d (item_data c) data)
      /\ forall c', c' ∈ seen -> covers d data c' ->
           d (item_data c) data <= d (item_data c') data
  end.

(** The state of [minRadiusIncreaseNeeded] after the children in [seen]. *)
Definition increase_ok (d : Data -> Data -> Z) (data : Data)
    (seen : list IndexItem) (mri : CandidateChild) : Prop :=
  match cand_node mri with
  | None => cand_metric mri = Infty /\ forall c, c ∈ seen -> covers d data c
  | Some c =>
      c ∈ seen /\ ~ covers d data c /\ cand_distance mri = d (item_data c) data
      /\ cand_metric mri = Fin (d (item_data c) data - item_radius c)
      /\ forall c', c' ∈ seen -> ~ covers d data c' ->
           d (item_data c) data - item_radius c
           <= d (item_data c') data - item_radius c'
  end.

(** The metric invariant of [_checkChildMetrics], on every node below
    [i]: a child's [distanceToParent] is its distance from the node's
    routing object, and the child's ball lies inside the node's. *)
Fixpoint child_metrics_ok (d : Data -> Data -> Z) (i : IndexItem) : Prop :=
  match i with
  | Entry _ _ _ => True
  | Node _ data radius _ children =>
      (fix over (l : ChildrenMap) : Prop :=
         match l with
         | [] => True
         | (_, child) :: l' =>
             (item_distanceToParent child = d (item_data child) data
              /\ item_distanceToParent child + item_radius child <= radius
              /\ child_metrics_ok d child)
             /\ over l'
         end) children
  end.

(** The capacity invariant of [_checkMinCapacity] and [_checkMaxCapacity]
    on every node below [i]. *)
Fixpoint capacity_ok (mt : mtree) (i : IndexItem) : Prop :=
  match i with
  | Entry _ _ _ => True
  | Node cls _ _ _ children =>
      getMinCapacity mt cls <= map_size children <= maxNodeCapacity mt
      /\ (fix over (l : ChildrenMap) : Prop :=
            match l with
            | [] => True
            | (_, child) :: l' => capacity_ok mt child /\ over l'
            end) children
  end.

(** The distances of a result sequence never decrease. *)
Fixpoint non_decreasing (l : list result_item) : Prop :=
  match l with
  | [] => True
  | r :: l' =>
      match l' with
      | [] => True
      | r' :: _ => res_distance r <= res_distance r'
      end /\ non_decreasing l'
  end.

(** A run on a tree of capacities 2 and 4 whose last insertion splits a
    leaf and merges one half into a sibling with the same routing object. *)
Definition merge_run_ops : list operation :=
  [Add 0; Add 1; Add 2; Add 200; Add 201; Add 90; Add 100; Add 102; Add 85;
   Add 70; Add 101; Add 202; Add 210; Add 211; Remove 85; Remove 90; Add 80;
   Add 89; Add 121].

(** The outcomes of [rand()] during that run: four calls per split. *)
Definition merge_run_rand : nat -> Z :=
  rand_of [0; 3; 2; 0;  0; 3; 2; 0;  4; 3; 0; 0;  0; 3; 2; 0;  0; 3; 2; 0;
           4; 3; 0; 0].

(** The tree that run builds. *)
Definition merge_run_tree : mtree :=
  mk_mtree 2 4
    (Some
       (Node RootNode 0 211 (-1)
          [(0, Node InternalNode 0 110 0
                 [(0, Node LeafNode 0 2 0
                        [(0, Entry 0 0 0); (1, Entry 1 0 1); (2, Entry 2 0 2)]);
                  (89, Node LeafNode 89 19 89
                         [(70, Entry 70 0 19); (80, Entry 80 0 9);
                          (89, Entry 89 0 0)]);
                  (100, Node LeafNode 100 21 100
                          [(100, Entry 100 0 0); (101, Entry 101 0 1);
                           (102, Entry 102 0 2); (121, Entry 121 0 21)])]);
           (200, Node InternalNode 200 11 200
                   [(200, Node LeafNode 200 2 0
                            [(200, Entry 200 0 0); (201, Entry 201 0 1);
                             (202, Entry 202 0 2)]);
                    (210, Node LeafNode 210 1 10
                            [(210, Entry 210 0 0); (211, Entry 211 0 1)])])])).

(** ** The invariants of insertion and removal *)

(** The distance contract: identity, positivity, symmetry and the triangle
    inequality. *)
Record metric (d : Data -> Data -> Z) : Prop := {
  metric_refl : forall x, d x x = 0;
  metric_pos : forall x y, x <> y -> 0 < d x y;
  metric_sym : forall x y, d x y = d y x;
  metric_triangle : forall x y z, d x z <= d x y + d y z
}.

(** A children map: keys strictly ascending, each child stored under its
    own data. *)
Definition keys_ok (m : ChildrenMap) : Prop :=
  StronglySorted Z.lt m.*1 /\ Forall (fun kv => item_data kv.2 = kv.1) m.

(** The objects indexed below the children in [m]. *)
Definition indexed_in (m : ChildrenMap) : list Data :=
  m ≫= (fun kv => indexed kv.2).

(** The class of a node [h'] levels above the entries. *)
Definition class_at (is_root : bool) (h' : nat) : NodeClass :=
  match h', is_root with
  | O, true => RootLeafNode
  | O, false => LeafNode
  | S _, true => RootNode
  | S _, false => InternalNode
  end.

Definition item_class_is (cls : NodeClass) (i : IndexItem) : Prop :=
  match i with Entry _ _ _ => False | Node c _ _ _ _ => c = cls end.

(** What a node at height [h] (0 for an entry) must satisfy to be the child
    of another: its class, and at least two children of its own. *)
Definition child_shape (h : nat) (c : IndexItem) : Prop :=
  match h with
  | O => True
  | S h' => item_class_is (class_at false h') c
            /\ (2 <= length (item_children c))%nat
  end.

(** The invariant of a subtree of height [h]: the children map is well
    formed, every child is a well-formed subtree of height [h - 1] that
    records its distance from this node, and the radius covers every
    indexed object.  With [keyed], every node below is routed by one of
    the objects it indexes. *)
Fixpoint inv (d : Data -> Data -> Z) (keyed : bool) (h : nat) (i : IndexItem)
  : Prop :=
  match h with
  | O => match i with Entry _ r _ => r = 0 | Node _ _ _ _ _ => False end
  | S h' =>
      match i with
      | Entry _ _ _ => False
      | Node cls data radius _ children =>
          is_leaf_class cls = bool_decide (h' = O)
          /\ keys_ok children
          /\ Forall (fun kv =>
                       inv d keyed h' kv.2
                       /\ item_distanceToParent kv.2 = d (item_data kv.2) data
                       /\ child_shape h' kv.2
                       /\ (keyed = true -> item_data kv.2 ∈ indexed kv.2))
               children
          /\ (forall x, x ∈ indexed_in children -> d x data <= radius)
      end
  end.

(** The routing keys [n] levels below [i]. *)
Fixpoint keys_at (n : nat) (i : IndexItem) : list Data :=
  match n with
  | O => [item_data i]
  | S n' => item_children i ≫= (fun kv => keys_at n' kv.2)
  end.

(** No two nodes of the same level below [i] have the same routing key. *)
Definition level_distinct (i : IndexItem) : Prop :=
  forall n, NoDup (keys_at (S n) i).

(** The routing keys [n] levels below the children in [m]. *)
Definition keys_in (n : nat) (m : ChildrenMap) : list Data :=
  m ≫= (fun kv => keys_at n kv.2).

(** A subtree of height [h] that [addChild] may store in a node. *)
Definition child_ready (d : Data -> Data -> Z) (keyed : bool) (h : nat)
    (c : IndexItem) : Prop :=
  inv d keyed h c /\ child_shape h c
  /\ (keyed = true -> item_data c ∈ indexed c).

(** [this'] is [this] after the insertion of [x] below it. *)
Definition grown (d : Data -> Data -> Z) (h : nat) (this this' : IndexItem)
    (x : Data) : Prop :=
  inv d true (S h) this'
  /\ indexed this' ≡ₚ x :: indexed this
  /\ item_data this' = item_data this
  /\ item_distanceToParent this' = item_distanceToParent this
  /\ (forall cls, item_class_is cls this -> item_class_is cls this')
  /\ (length (item_children this) <= length (item_children this'))%nat.

(** The two halves that replace a node split by the insertion of [x]. *)
Definition halves (d : Data -> Data -> Z) (h : nat) (this N0 N1 : IndexItem)
    (x : Data) : Prop :=
  child_ready d true (S h) N0 /\ child_ready d true (S h) N1
  /\ indexed N0 ++ indexed N1 ≡ₚ x :: indexed this
  /\ item_data N0 <> item_data N1.

(** What the root of a tree of height [S h] must satisfy. *)
Definition root_ok (d : Data -> Data -> Z) (keyed : bool) (h : nat)
    (r : IndexItem) : Prop :=
  inv d keyed (S h) r
  /\ item_class_is (class_at true h) r
  /\ (1 <= length (item_children r))%nat
  /\ (h <> O -> (2 <= length (item_children r))%nat).

(** The children in [l] as they are stored in a new parent: each with the
    distance [dist] gives as its distance to the parent. *)
Definition retag (dist : IndexItem -> Z) (l : ChildrenMap) : ChildrenMap :=
  (fun kv => (kv.1, set_distanceToParent kv.2 (dist kv.2))) <$> l.

(** A sibling of [theChild] among [children]: a donor when it holds more
    than its minimum capacity, a merge candidate otherwise. *)
Definition sibling_of (mt : mtree) (theChild : IndexItem) (children : ChildrenMap)
    (donor : bool) (s : IndexItem) : Prop :=
  exists k, (k, s) ∈ children /\ item_data s <> item_data theChild
            /\ match s with
               | Entry _ _ _ => False
               | Node acls _ _ _ achildren =>
                   donor = (map_size achildren >? getMinCapacity mt acls)
               end.

(** A child of the node with routing object [data], at height [S h], as
    [balanceChildren] meets it: only the child under the key [kT] may have
    fewer than two children. *)
Definition sibling_ok (d : Data -> Data -> Z) (h : nat) (data kT : Data)
    (kv : Data * IndexItem) : Prop :=
  inv d false (S h) kv.2
  /\ item_distanceToParent kv.2 = d (item_data kv.2) data
  /\ item_class_is (class_at false h) kv.2
  /\ (kv.1 <> kT -> (2 <= length (item_children kv.2))%nat).

(** [this'] is [this] after the removal of [x] below it. *)
Definition shrunk (d : Data -> Data -> Z) (h : nat) (this this' : IndexItem)
    (x : Data) : Prop :=
  inv d false (S h) this'
  /\ indexed this ≡ₚ x :: indexed this'
  /\ item_data this' = item_data this
  /\ item_distanceToParent this' = item_distanceToParent this
  /\ (forall cls, item_class_is cls this -> item_class_is cls this')
  /\ (forall n, keys_at n this' ⊆+ keys_at n this)
  /\ (length (item_children this) <= S (length (item_children this')))%nat.

(** The outcome of [removeData] on a node that is not the root. *)
Definition removed_from (d : Data -> Data -> Z) (h : nat) (c c' : IndexItem)
    (sig : signal) (x : Data) : Prop :=
  shrunk d h c c' x
  /\ ((sig = Normal /\ (2 <= length (item_children c'))%nat)
      \/ (sig = NodeUnderCapacity /\ (1 <= length (item_children c'))%nat)).

(** [removeData] finds and removes whatever a node of height [S h] that is
    not the root indexes. *)
Definition rm_ok (rand_stream : nat -> Z) (d : Data -> Data -> Z)
    (h fuel : nat) (mt : mtree) : Prop :=
  forall c x seed,
    inv d false (S h) c -> level_distinct c -> x ∈ indexed c ->
    item_class_is (class_at false h) c ->
    (2 <= length (item_children c))%nat ->
    exists c' sig,
      removeData rand_stream d fuel mt c x (d x (item_data c)) seed
        = Some (c', sig, seed)
      /\ removed_from d h c c' sig x.

(** The tree after [x] has been removed from the tree of root [r]. *)
Definition root_after (d : Data -> Data -> Z) (h : nat) (r : IndexItem)
    (x : Data) (root' : option IndexItem) : Prop :=
  match root' with
  | None => indexed r ≡ₚ [x]
  | Some r' =>
      exists h', (h' <= h)%nat /\ root_ok d false h' r' /\ level_distinct r'
                 /\ indexed r ≡ₚ x :: indexed r'
  end.

(** A tree built by insertions alone, indexing the objects in [L]. *)
Definition built (d : Data -> Data -> Z) (mt : mtree) (L : list Data) : Prop :=
  match root mt with
  | None => L = []
  | Some r => exists h, root_ok d true h r /\ indexed r ≡ₚ L
  end.

(** A tree that insertions and removals have left indexing the objects in
    [L]. *)
Definition remaining (d : Data -> Data -> Z) (mt : mtree) (L : list Data) : Prop :=
  match root mt with
  | None => L = []
  | Some r => exists h, root_ok d false h r /\ level_distinct r /\ indexed r ≡ₚ L
  end.



(** ** Reference behaviour *)

(** What a sequence of [remove] calls does to a set of objects [L]: the
    [bool] each call returns, and the objects left. *)
Fixpoint set_removes (L R : list Data) : list bool * list Data :=
  match R with
  | [] => ([], L)
  | x :: R' =>
      let '(founds, L') := set_removes (filter (fun y => y <> x) L) R' in
      (bool_decide (x ∈ L) :: founds, L')
  end.

(** ** The state of a nearest-neighbour query *)





(** The object [y] is within the range of the query. *)
Definition in_range (d : Data -> Data -> Z) (q : query) (y : Data) : Prop :=
  le_x (d (q_data q) y) (q_range q) = true.

#[global] Instance in_range_dec d q y : Decision (in_range d q y).
Proof. unfold in_range. apply _. Defined.










(** The tree that the insertion of 3, 1, 2, 5 and 4 and the removal of 2
    leave, with capacities 2 and 3 and a [rand()] that returns 0. *)
Definition after_remove_tree : mtree :=
  mk_mtree 2 3
    (Some
       (Node RootNode 3 4 (-1)
          [(1, Node LeafNode 1 2 2 [(1, Entry 1 0 0); (3, Entry 3 0 2)]);
           (2, Node LeafNode 2 3 1 [(4, Entry 4 0 2); (5, Entry 5 0 3)])])).

(** ** mtree.h: the debug checks, as compiled without [NDEBUG] *)

(** [IndexItem::_checkRadius] *)
Definition _checkRadius (i : IndexItem) : bool := 0 <=? item_radius i.

(** [_checkDistanceToParent]: the one of [RootNodeTrait] for the two root
    classes, the one of [IndexItem] for the other items. *)
Definition _checkDistanceToParent (i : IndexItem) : bool :=
  match i with
  | Node RootLeafNode _ _ distanceToParent _
  | Node RootNode _ _ distanceToParent _ => distanceToParent =? -1
  | _ => 0 <=? item_distanceToParent i
  end.

(** [_checkMinCapacity] of [RootLeafNode], [RootNode] and
    [NonRootNodeTrait], and [Node::_checkMaxCapacity]. *)
Definition _checkMinCapacity (mt : mtree) (cls : NodeClass)
    (children : ChildrenMap) : bool :=
  match cls with
  | RootLeafNode => 1 <=? map_size children
  | RootNode => 2 <=? map_size children
  | InternalNode | LeafNode => minNodeCapacity mt <=? map_size children
  end.

Definition _checkMaxCapacity (mt : mtree) (children : ChildrenMap) : bool :=
  map_size children <=? maxNodeCapacity mt.

(** [_checkChildClass] of [LeafNodeTrait] and of [NonLeafNodeTrait]. *)
Definition _checkChildClass (cls : NodeClass) (child : IndexItem) : bool :=
  if is_leaf_class cls then is_entry child
  else
    match child with
    | Node InternalNode _ _ _ _ | Node LeafNode _ _ _ _ => true
    | _ => false
    end.

(** [Node::_checkChildMetrics] *)
Definition _checkChildMetrics (distance_function : Data -> Data -> Z)
    (data : Data) (radius : Z) (child : IndexItem) : bool :=
  let dist := distance_function (item_data child) data in
  (item_distanceToParent child =? dist)
  && (item_distanceToParent child + item_radius child <=? radius).

(** [IndexItem::_check] and [Node::_check]: the height the source returns,
    or [None] when an assertion fails.  The height of a node is that of
    its first child plus one (the comparison with the other children is
    commented out in the source); a node without children returns an
    uninitialised value, which is no result here. *)
Fixpoint _check (distance_function : Data -> Data -> Z) (mt : mtree)
    (i : IndexItem) : option nat :=
  match i with
  | Entry _ _ _ =>
      if _checkRadius i && _checkDistanceToParent i then Some 1%nat else None
  | Node cls data radius _ children =>
      if _checkRadius i && _checkDistanceToParent i
         && _checkMinCapacity mt cls children && _checkMaxCapacity mt children
      then
        (fix over (l : ChildrenMap) (childHeight : option nat) : option nat :=
           match l with
           | [] =>
               match childHeight with
               | Some height => Some (S height)
               | None => None
               end
           | (key, child) :: l' =>
               if (item_data child =? key) && _checkChildClass cls child
                  && _checkChildMetrics distance_function data radius child
               then
                 match _check distance_function mt child with
                 | None => None
                 | Some height =>
                     over l' (match childHeight with
                              | Some known => Some known
                              | None => Some height
                              end)
                 end
               else None
           end) children None
      else None
  end.

(** [mtree::_check]: [true] when no assertion fails. *)
Definition mtree_check (distance_function : Data -> Data -> Z) (mt : mtree)
  : bool :=
  match root mt with
  | None => true
  | Some r =>
      match _check distance_function mt r with
      | Some _ => true
      | None => false
      end
  end.

(** ** What the debug checks need beyond the search invariant *)

(** The capacity bounds of a node of height [h] that is not the root. *)
Definition cap_ok (mt : mtree) (h : nat) (c : IndexItem) : Prop :=
  match h with
  | O => True
  | S _ =>
      minNodeCapacity mt <= map_size (item_children c) <= maxNodeCapacity mt
  end.

(** Below a node of height [h]: radii are not negative, every ball lies
    inside the ball of its parent, and every node is within its capacity
    bounds. *)
Fixpoint tight (mt : mtree) (h : nat) (i : IndexItem) : Prop :=
  match h with
  | O => True
  | S h' =>
      0 <= item_radius i
      /\ Forall (fun kv =>
                   tight mt h' kv.2 /\ cap_ok mt h' kv.2
                   /\ item_distanceToParent kv.2 + item_radius kv.2
                      <= item_radius i)
           (item_children i)
  end.

(** What the root of a tree of height [S h] must satisfy for the checks. *)
Definition root_tight (mt : mtree) (h : nat) (r : IndexItem) : Prop :=
  tight mt (S h) r
  /\ map_size (item_children r) <= maxNodeCapacity mt
  /\ item_distanceToParent r = -1.

(** What [addData] leaves of the tightness of a node. *)
Definition added_tight (mt : mtree) (h : nat) (this' : IndexItem) (sig : signal)
  : Prop :=
  match sig with
  | Normal =>
      tight mt (S h) this'
      /\ map_size (item_children this') <= maxNodeCapacity mt
  | SplitNodeReplacement n0 n1 =>
      tight mt (S h) n0 /\ tight mt (S h) n1
      /\ cap_ok mt (S h) n0 /\ cap_ok mt (S h) n1
  | _ => True
  end.

(** A tree built by insertions alone, indexing the objects in [L], with
    what the checks need. *)
Definition built_tight (d : Data -> Data -> Z) (mt : mtree) (L : list Data)
  : Prop :=
  match root mt with
  | None => L = []
  | Some r =>
      exists h, root_ok d true h r /\ indexed r ≡ₚ L /\ root_tight mt h r
  end.

(** What [removeData] leaves of the tightness of a node that is not the
    root: a node that reports [NodeUnderCapacity] is one child short. *)
Definition removed_tight (mt : mtree) (h : nat) (c c' : IndexItem) (sig : signal)
  : Prop :=
  tight mt (S h) c'
  /\ match sig with
     | Normal => cap_ok mt (S h) c'
     | NodeUnderCapacity =>
         map_size (item_children c') = minNodeCapacity mt - 1
     | _ => True
     end.

Definition rm_tight (rand_stream : nat -> Z) (d : Data -> Data -> Z)
    (h fuel : nat) (mt : mtree) : Prop :=
  forall c x seed c' sig seed',
    inv d false (S h) c -> level_distinct c -> x ∈ indexed c ->
    item_class_is (class_at false h) c ->
    tight mt (S h) c -> cap_ok mt (S h) c ->
    removeData rand_stream d fuel mt c x (d x (item_data c)) seed
      = Some (c', sig, seed') ->
    removed_tight mt h c c' sig.

(** A tree that insertions and removals have left indexing the objects in
    [L], with what the checks need. *)
Definition remaining_tight (d : Data -> Data -> Z) (mt : mtree) (L : list Data)
  : Prop :=
  match root mt with
  | None => L = []
  | Some r =>
      exists h, root_ok d false h r /\ level_distinct r /\ indexed r ≡ₚ L
                /\ root_tight mt h r
  end.

(** The depth of every entry below an item: the number of nodes on the
    way down to it. *)
Fixpoint entry_depths (i : IndexItem) : list nat :=
  match i with
  | Entry _ _ _ => [O]
  | Node _ _ _ _ children =>
      (fix over (l : ChildrenMap) : list nat :=
         match l with
         | [] => []
         | (_, child) :: l' => map S (entry_depths child) ++ over l'
         end) children
  end.

(** All the entries of the tree are at the same depth. *)
Definition balanced (mt : mtree) : Prop :=
  match root mt with
  | None => True
  | Some r => exists depth, Forall (fun n => n = depth) (entry_depths r)
  end.

(** * Theorems *)

(** ** The cached distance function *)

Section CacheFacts.

Variable d : Data -> Data -> Z.

Lemma once_per_pair_snoc l p :
  Cache.once_per_pair l -> (forall q, q ∈ l -> ~ Cache.same_pair q p) ->
  Cache.once_per_pair (l ++ [p]).
Proof.
  induction l as [|x l IH]; simpl; intros Hl Hp.
  - split; [|done]. intros q Hq. by apply elem_of_nil in Hq.
  - destruct Hl as [Hx Hl]. split.
    + intros q Hq. apply elem_of_app in Hq as [Hq|Hq]; [by apply Hx|].
      apply list_elem_of_singleton in Hq as ->. apply Hp. by left.
    + apply IH; [done|]. intros q Hq. apply Hp. by right.
Qed.

Lemma map_insert_lookup k v m k' :
  Cache.map_insert k v m !! k' =
    match m !! k with
    | Some _ => m !! k'
    | None => if decide (k = k') then Some v else m !! k'
    end.
Proof.
  unfold Cache.map_insert. destruct (m !! k) eqn:E; [done|].
  destruct (decide (k = k')) as [->|Hne].
  - by rewrite lookup_insert_eq.
  - by rewrite lookup_insert_ne.
Qed.

Lemma fresh_inv : cache_inv d Cache.fresh.
Proof.
  split; simpl.
  - intros a b v H. by rewrite lookup_empty in H.
  - intros a b H. by apply elem_of_nil in H.
  - done.
Qed.

Lemma call_miss c a b :
  Cache.cache c !! (a, b) = None -> Cache.cache c !! (b, a) = None ->
  Cache.call d c a b =
    (d a b, Cache.mk (Cache.map_insert (b, a) (d a b)
                        (Cache.map_insert (a, b) (d a b) (Cache.cache c)))
                     (Cache.calls c ++ [(a, b)])).
Proof. intros H1 H2. unfold Cache.call. by rewrite H1, H2. Qed.

Lemma miss_lookup c a b x y :
  Cache.cache c !! (a, b) = None -> Cache.cache c !! (b, a) = None ->
  Cache.map_insert (b, a) (d a b)
    (Cache.map_insert (a, b) (d a b) (Cache.cache c)) !! (x, y)
  = if decide ((x, y) = (a, b) \/ (x, y) = (b, a)) then Some (d a b)
    else Cache.cache c !! (x, y).
Proof.
  intros H1 H2. rewrite !map_insert_lookup, H1.
  destruct (decide ((a, b) = (b, a))) as [E|E];
    destruct (decide ((b, a) = (x, y))) as [E'|E'];
    destruct (decide ((a, b) = (x, y))) as [E''|E''];
    destruct (decide ((x, y) = (a, b) \/ (x, y) = (b, a))) as [D|D];
    rewrite ?H2; try done; try congruence;
    try (destruct D; congruence);
    exfalso; apply D; (by left) || (by right).
Qed.

Lemma call_inv c a b : cache_inv d c -> cache_inv d (Cache.call d c a b).2.
Proof.
  intros [Hs Hc Ho]. unfold Cache.call.
  destruct (Cache.cache c !! (a, b)) eqn:E1; [by split|].
  destruct (Cache.cache c !! (b, a)) eqn:E2; [by split|].
  simpl. split; simpl.
  - intros x y v. rewrite miss_lookup by done.
    case_decide as Hxy.
    + intros [= <-]. destruct Hxy as [[= -> ->]|[= -> ->]].
      * left. split; [|done]. apply elem_of_app. right. by apply list_elem_of_singleton.
      * right. split; [|done]. apply elem_of_app. right. by apply list_elem_of_singleton.
    + intros Hv. destruct (Hs _ _ _ Hv) as [[? ?]|[? ?]].
      * left. split; [|done]. apply elem_of_app. by left.
      * right. split; [|done]. apply elem_of_app. by left.
  - intros x y Hxy. rewrite !miss_lookup by done.
    apply elem_of_app in Hxy as [Hxy|Hxy].
    + destruct (Hc _ _ Hxy) as [Hc1 Hc2].
      rewrite !decide_False; [done| |].
      * intros [[= -> ->]|[= -> ->]]; congruence.
      * intros [[= -> ->]|[= -> ->]]; congruence.
    + apply list_elem_of_singleton in Hxy as [= -> ->].
      rewrite decide_True by (left; done).
      rewrite decide_True by (right; done). done.
  - apply once_per_pair_snoc; [done|].
    intros [x y] Hq [Heq|Heq]; simpl in Heq.
    + injection Heq as -> ->. destruct (Hc _ _ Hq). congruence.
    + injection Heq as -> ->. destruct (Hc _ _ Hq). congruence.
Qed.

Lemma run_inv args : forall c, cache_inv d c -> cache_inv d (Cache.run d c args).2.
Proof.
  induction args as [|[a b] args IH]; intros c Hc; simpl; [done|].
  pose proof (call_inv c a b Hc) as H1.
  destruct (Cache.call d c a b) as [v c1]. simpl in H1.
  specialize (IH c1 H1). destruct (Cache.run d c1 args) as [vs c2]. done.
Qed.

End CacheFacts.

(** C9: over any sequence of calls on a fresh cached distance function,
    the wrapped function is evaluated at most once per unordered pair; a
    call on a pair computed before, in either order, returns the value of
    that computation and leaves the object as it is, and a call on a new
    pair evaluates the function once, stores the value under both
    orderings and returns it. *)
Theorem cached_distance_once_per_pair (d : Data -> Data -> Z) (args : list (Data * Data)) :
  let c := (Cache.run d Cache.fresh args).2 in
  Cache.once_per_pair (Cache.calls c)
  /\ (forall a b, previously_computed c a b ->
        exists v, Cache.call d c a b = (v, c)
          /\ (((a, b) ∈ Cache.calls c /\ v = d a b)
              \/ ((b, a) ∈ Cache.calls c /\ v = d b a)))
  /\ (forall a b, ~ previously_computed c a b ->
        exists c', Cache.call d c a b = (d a b, c')
          /\ Cache.calls c' = Cache.calls c ++ [(a, b)]
          /\ Cache.cache c' !! (a, b) = Some (d a b)
          /\ Cache.cache c' !! (b, a) = Some (d a b)).
Proof.
  intros c. pose proof (run_inv d args _ (fresh_inv d)) as Hinv. fold c in Hinv.
  destruct Hinv as [Hs Hc Ho]. split; [done|]. split.
  - intros a b Hp. unfold Cache.call.
    assert (is_Some (Cache.cache c !! (a, b)) /\ is_Some (Cache.cache c !! (b, a))) as [[v1 H1] [v2 H2]].
    { destruct Hp as [Hp|Hp]; destruct (Hc _ _ Hp); eauto. }
    rewrite H1. exists v1. split; [done|]. by apply Hs.
  - intros a b Hn.
    assert (Cache.cache c !! (a, b) = None) as H1.
    { destruct (Cache.cache c !! (a, b)) eqn:E; [|done].
      exfalso. apply Hn. destruct (Hs _ _ _ E) as [[? _]|[? _]]; [by left|by right]. }
    assert (Cache.cache c !! (b, a) = None) as H2.
    { destruct (Cache.cache c !! (b, a)) eqn:E; [|done].
      exfalso. apply Hn. destruct (Hs _ _ _ E) as [[? _]|[? _]]; [by right|by left]. }
    rewrite (call_miss d) by done. eexists. split; [done|]. simpl. split; [done|].
    rewrite !(miss_lookup d) by done.
    rewrite decide_True by (left; done). rewrite decide_True by (right; done). done.
Qed.

(** ** The split policies *)

(** *** Sets as ascending lists *)

Lemma set_mem_true x s : set_mem x s = true <-> x ∈ s.
Proof.
  unfold set_mem. induction s as [|y s IH]; simpl.
  - split; [done|]. intros H. by apply elem_of_nil in H.
  - rewrite orb_true_iff, IH, elem_of_cons. by rewrite Z.eqb_eq.
Qed.

Lemma set_mem_false x s : set_mem x s = false <-> x ∉ s.
Proof.
  rewrite <- set_mem_true. destruct (set_mem x s); split; try done.
Qed.

Lemma elem_of_set_insert x y s : x ∈ set_insert y s <-> x = y \/ x ∈ s.
Proof.
  induction s as [|z s IH]; simpl.
  - rewrite list_elem_of_singleton. split; [by left|].
    intros [?|H]; [done|]. by apply elem_of_nil in H.
  - destruct (Z.ltb_spec y z).
    + by rewrite !elem_of_cons.
    + destruct (Z.eqb_spec y z) as [->|Hne].
      * rewrite elem_of_cons. tauto.
      * rewrite !elem_of_cons, IH. tauto.
Qed.

Lemma length_set_insert y s :
  y ∉ s -> length (set_insert y s) = S (length s).
Proof.
  induction s as [|z s IH]; simpl; intros Hn; [done|].
  apply not_elem_of_cons in Hn as [Hne Hn].
  destruct (Z.ltb_spec y z); [done|].
  destruct (Z.eqb_spec y z); [done|]. simpl. by rewrite IH.
Qed.

(** *** [random_sample_n] *)

(** With [m] objects to pick among the [remaining = length l] left, exactly
    [m] are picked, in the order of [l]. *)
Lemma random_sample_n_sublist rand (l : list Data) :
  forall m seed, 0 <= m <= Z.of_nat (length l) ->
    let r := random_sample_n rand l (Z.of_nat (length l)) m seed in
    sublist r.1 l /\ Z.of_nat (length r.1) = m.
Proof.
  induction l as [|x l IH]; intros m seed Hm.
  - simpl in *. split; [done|]. lia.
  - cbn [random_sample_n length] in *. rewrite Nat2Z.inj_succ in *.
    replace (Z.succ (Z.of_nat (length l)) - 1) with (Z.of_nat (length l)) by lia.
    destruct (Z.ltb_spec 0 m) as [Hpos|Hz].
    + destruct (Z.ltb_spec (Z.rem (rand seed) (Z.succ (Z.of_nat (length l)))) m)
        as [Hpick|Hskip].
      * destruct (IH (m - 1) (S seed)) as [Hs Hl]; [lia|].
        destruct (random_sample_n rand l (Z.of_nat (length l)) (m - 1) (S seed))
          as [out seed'] eqn:E.
        simpl in *. split; [by apply sublist_skip|]. lia.
      * assert (m <= Z.of_nat (length l)) as Hle.
        { pose proof (Z.rem_bound_abs (rand seed) (Z.succ (Z.of_nat (length l)))).
          lia. }
        destruct (IH m (S seed)) as [Hs Hl]; [lia|].
        split; [by apply sublist_cons|done].
    + simpl. split; [apply sublist_nil_l|]. lia.
Qed.

Lemma random_promotion_spec rand (S : list Data) seed :
  NoDup S -> (2 <= length S)%nat ->
  exists p1 p2 seed',
    random_promotion rand S seed = Some ((p1, p2), seed')
    /\ p1 <> p2 /\ p1 ∈ S /\ p2 ∈ S.
Proof.
  intros Hnd Hlen. unfold random_promotion.
  destruct (random_sample_n_sublist rand S (Z.min 2 (Z.of_nat (length S))) seed)
    as [Hsub Hl]; [lia|].
  destruct (random_sample_n rand S _ _ seed) as [out seed'].
  simpl in *. rewrite Z.min_l in Hl by lia.
  destruct out as [|p1 [|p2 [|? ?]]]; simpl in Hl; try lia.
  exists p1, p2, seed'. split; [done|].
  pose proof (sublist_NoDup _ _ Hnd Hsub) as Hnd2.
  apply NoDup_cons in Hnd2 as [Hne _].
  split; [intros ->; apply Hne; apply list_elem_of_here|].
  split; (eapply elem_of_sublist; [|exact Hsub]); [apply list_elem_of_here|].
  apply list_elem_of_further, list_elem_of_here.
Qed.

Section SortFacts.

Variable d : Data -> Data -> Z.
Hypothesis d_refl : forall x, d x x = 0.
Hypothesis d_pos : forall x y, x <> y -> 0 < d x y.

Lemma call_value c a b :
  cache_inv d c ->
  (Cache.call d c a b).1 = d a b \/ (Cache.call d c a b).1 = d b a.
Proof.
  intros [Hs _ _]. unfold Cache.call.
  destruct (Cache.cache c !! (a, b)) as [v|] eqn:E1.
  { simpl. destruct (Hs _ _ _ E1) as [[_ ->]|[_ ->]]; [by left|by right]. }
  destruct (Cache.cache c !! (b, a)) as [v|] eqn:E2.
  { simpl. destruct (Hs _ _ _ E2) as [[_ ->]|[_ ->]]; [by right|by left]. }
  by left.
Qed.

Lemma call_sign c x p :
  cache_inv d c ->
  (x = p -> (Cache.call d c x p).1 = 0) /\ (x <> p -> 0 < (Cache.call d c x p).1).
Proof.
  intros Hc. split.
  - intros ->. destruct (call_value c p p Hc) as [->| ->]; apply d_refl.
  - intros Hne. destruct (call_value c x p Hc) as [->| ->]; apply d_pos; congruence.
Qed.

Lemma sort_insert_spec p x (sorted : list Data) :
  forall c, cache_inv d c ->
    let r := sort_insert d p x sorted c in
    cache_inv d r.2 /\ r.1 ≡ₚ x :: sorted /\ (front_ok p sorted -> front_ok p r.1).
Proof.
  induction sorted as [|y rest IH]; intros c Hc; simpl.
  - split; [done|]. split; [done|]. intros _ Hin.
    apply list_elem_of_singleton in Hin as ->. done.
  - pose proof (call_inv d c x p Hc) as Hc1.
    destruct (call_sign c x p Hc) as [Hself1 Hoth1].
    destruct (Cache.call d c x p) as [v1 c1]. simpl in Hc1, Hself1, Hoth1.
    pose proof (call_inv d c1 y p Hc1) as Hc2.
    destruct (call_sign c1 y p Hc1) as [Hself2 Hoth2].
    destruct (Cache.call d c1 y p) as [v2 c2]. simpl in Hc2, Hself2, Hoth2.
    destruct (Z.ltb_spec v1 v2) as [Hlt|Hge]; simpl.
    + split; [done|]. split; [done|]. intros Hf Hin. simpl.
      destruct (decide (x = p)) as [->|Hxp]; [done|].
      specialize (Hoth1 Hxp).
      apply elem_of_cons in Hin as [?|Hin]; [congruence|].
      specialize (Hf Hin). simpl in Hf. injection Hf as Hy.
      specialize (Hself2 Hy). lia.
    + specialize (IH c2 Hc2). destruct (sort_insert d p x rest c2) as [rest' c3].
      simpl in *. destruct IH as (Hc3 & Hperm & _).
      split; [done|]. split.
      * rewrite Hperm. apply Permutation_swap.
      * intros Hf Hin. simpl.
        destruct (decide (y = p)) as [->|Hyp]; [done|].
        specialize (Hoth2 Hyp).
        apply elem_of_cons in Hin as [?|Hin]; [congruence|].
        rewrite Hperm in Hin. apply elem_of_cons in Hin as [Hx|Hin].
        -- symmetry in Hx. specialize (Hself1 Hx). lia.
        -- assert (p ∈ y :: rest) as Hin' by (by apply list_elem_of_further).
           specialize (Hf Hin'). simpl in Hf. congruence.
Qed.

Lemma sort_by_distance_from_spec p (todo : list Data) :
  forall sorted c, cache_inv d c -> front_ok p sorted ->
    let r := sort_by_distance_from d p sorted todo c in
    cache_inv d r.2 /\ r.1 ≡ₚ todo ++ sorted /\ front_ok p r.1.
Proof.
  induction todo as [|x todo IH]; intros sorted c Hc Hf; simpl.
  - done.
  - pose proof (sort_insert_spec p x sorted c Hc) as Hi.
    destruct (sort_insert d p x sorted c) as [sorted' c']. simpl in Hi.
    destruct Hi as (Hc' & Hperm & Hf').
    destruct (IH sorted' c' Hc' (Hf' Hf)) as (Hc'' & Hperm' & Hf'').
    split; [done|]. split; [|done].
    rewrite Hperm', Hperm. by rewrite Permutation_middle.
Qed.

Lemma sort_by_distance_spec p (v : list Data) c :
  cache_inv d c ->
  let r := sort_by_distance d p v c in
  cache_inv d r.2 /\ r.1 ≡ₚ v /\ (p ∈ v -> head r.1 = Some p).
Proof.
  intros Hc. unfold sort_by_distance.
  destruct (sort_by_distance_from_spec p v [] c Hc) as (Hc' & Hperm & Hf).
  { intros Hin. by apply elem_of_nil in Hin. }
  rewrite app_nil_r in Hperm. split; [done|]. split; [done|].
  intros Hin. apply Hf. by rewrite Hperm.
Qed.

End SortFacts.

(** *** The alternation of [balanced_partition] *)

(** What one inner loop does: it skips objects of [other] and takes the
    first one that is not, or it exhausts the queue. *)
Lemma take_next_spec (queue : list Data) other mine queue' mine' :
  take_next queue other mine = (queue', mine') ->
  (exists skipped x,
     queue = skipped ++ (x :: queue') /\ Forall (fun y => y ∈ other) skipped
     /\ (x ∉ other) /\ mine' = set_insert x mine)
  \/ (queue' = [] /\ mine' = mine /\ Forall (fun y => y ∈ other) queue).
Proof.
  induction queue as [|y queue IH]; simpl.
  - intros [= <- <-]. right. done.
  - destruct (set_mem y other) eqn:E.
    + apply set_mem_true in E. intros Ht.
      destruct (IH Ht) as [(skipped & x & Hq & Hsk & Hx & Hr)|(Hq & Hr & Hall)].
      * left. exists (y :: skipped), x. split; [by rewrite Hq at 1|].
        split; [by apply Forall_cons|done].
      * right. split; [done|]. split; [done|]. by apply Forall_cons.
    + apply set_mem_false in E. intros [= <- <-]. left. exists [], y. done.
Qed.

Section Distribute.

Variable S : list Data.

(** One round of the outer loop keeps the invariant, keeps what was
    assigned, and shortens the queues unless both are empty. *)
Lemma round_inv queue1 queue2 first second queue1' first' queue2' second' :
  distribute_inv S queue1 queue2 first second ->
  take_next queue1 second first = (queue1', first') ->
  take_next queue2 first' second = (queue2', second') ->
  distribute_inv S queue1' queue2' first' second'
  /\ (forall x, x ∈ first -> x ∈ first')
  /\ (forall x, x ∈ second -> x ∈ second')
  /\ (length queue1' <= length queue1)%nat
  /\ (length queue2' <= length queue2)%nat
  /\ (queue1 <> [] -> (length queue1' < length queue1)%nat)
  /\ (queue2 <> [] -> (length queue2' < length queue2)%nat).
Proof.
  intros [Hf Hs Hd Hp Hq1 Hq2 Hi1 Hi2 Hn1 Hn2 Hsz] Ht1 Ht2.
  (* the whole of S is assigned as soon as one inner loop finds nothing *)
  destruct (take_next_spec _ _ _ _ _ Ht1)
    as [(sk1 & x & E1 & Hsk1 & Hx & Hr1)|(E1 & Hr1 & Hall1)].
  - (* queue1 delivers x *)
    assert (x ∈ queue1) as Hxq.
    { rewrite E1. apply elem_of_app. right. apply list_elem_of_here. }
    assert (x ∉ first) as Hxf by (by apply Hq1).
    assert (length first = length second) as Hlen.
    { destruct Hsz as [?|[_ Hall]]; [done|].
      destruct (Hall x (Hi1 _ Hxq)); done. }
    assert (NoDup queue1' /\ x ∉ queue1') as [Hn1' Hxr].
    { rewrite E1 in Hn1. apply NoDup_app in Hn1 as (_ & _ & Hn1).
      apply NoDup_cons in Hn1. tauto. }
    assert (forall y, y ∈ queue1' -> y ∈ queue1) as Hsub1.
    { intros y Hy. rewrite E1. apply elem_of_app. right. by apply list_elem_of_further. }
    assert (forall y, y ∈ queue1 -> y ∉ second -> y = x \/ y ∈ queue1') as Hrem1.
    { intros y Hy Hys. rewrite E1 in Hy. apply elem_of_app in Hy as [Hy|Hy].
      - rewrite Forall_forall in Hsk1. by destruct Hys; apply Hsk1.
      - apply elem_of_cons in Hy. tauto. }
    assert (length first' = Datatypes.S (length first)) as Hl1.
    { rewrite Hr1. by apply length_set_insert. }
    assert (forall y, y ∈ first' <-> y = x \/ y ∈ first) as Hm1.
    { intros y. rewrite Hr1. apply elem_of_set_insert. }
    assert ((length queue1' < length queue1)%nat) as Hlt1.
    { rewrite E1, length_app. simpl. lia. }
    destruct (take_next_spec _ _ _ _ _ Ht2)
      as [(sk2 & y & E2 & Hsk2 & Hy & Hr2)|(E2 & Hr2 & Hall2)].
    + (* queue2 delivers y *)
      assert (y ∈ queue2) as Hyq.
      { rewrite E2. apply elem_of_app. right. apply list_elem_of_here. }
      assert (NoDup queue2' /\ y ∉ queue2') as [Hn2' Hyr].
      { rewrite E2 in Hn2. apply NoDup_app in Hn2 as (_ & _ & Hn2).
        apply NoDup_cons in Hn2. tauto. }
      assert (forall z, z ∈ second' <-> z = y \/ z ∈ second) as Hm2.
      { intros z. rewrite Hr2. apply elem_of_set_insert. }
      assert ((length queue2' < length queue2)%nat) as Hlt2.
      { rewrite E2, length_app. simpl. lia. }
      split; [split|].
      * intros z Hz. apply Hm1 in Hz as [->|Hz]; [by apply Hi1|by apply Hf].
      * intros z Hz. apply Hm2 in Hz as [->|Hz]; [by apply Hi2|by apply Hs].
      * intros z Hz1 Hz2. apply Hm2 in Hz2 as [->|Hz2]; [done|].
        apply Hm1 in Hz1 as [->|Hz1]; [done|]. by apply (Hd z).
      * intros z Hz Hz1 Hz2.
        assert (z <> x /\ z ∉ first) as [Hzx Hzf].
        { split; intros ?; apply Hz1, Hm1; tauto. }
        assert (z <> y /\ z ∉ second) as [Hzy Hzs].
        { split; intros ?; apply Hz2, Hm2; tauto. }
        destruct (Hp z Hz Hzf Hzs) as [Hzq1 Hzq2]. split.
        -- destruct (Hrem1 z Hzq1 Hzs); [done|done].
        -- rewrite E2 in Hzq2. apply elem_of_app in Hzq2 as [Hzq2|Hzq2].
           ++ rewrite Forall_forall in Hsk2. by destruct Hz1; apply Hsk2.
           ++ apply elem_of_cons in Hzq2 as [?|?]; [done|done].
      * intros z Hz Hz1. apply Hm1 in Hz1 as [->|Hz1]; [done|].
        by apply (Hq1 z); [apply Hsub1|].
      * intros z Hz Hz2. apply Hm2 in Hz2 as [->|Hz2]; [done|].
        apply (Hq2 z); [|done]. rewrite E2. apply elem_of_app. right.
        by apply list_elem_of_further.
      * intros z Hz. by apply Hi1, Hsub1.
      * intros z Hz. apply Hi2. rewrite E2. apply elem_of_app. right.
        by apply list_elem_of_further.
      * done.
      * done.
      * left. rewrite Hl1, Hr2, length_set_insert by (by apply Hq2). lia.
      * split; [intros z Hz; apply Hm1; tauto|].
        split; [intros z Hz; apply Hm2; tauto|]. split; [lia|]. split; [lia|].
        split; [done|done].
    + (* queue2 is exhausted: everything is assigned *)
      assert (forall z, z ∈ S -> z ∈ first' \/ z ∈ second) as Hall.
      { intros z Hz. destruct (decide (z ∈ first')) as [?|Hz1]; [by left|].
        destruct (decide (z ∈ second)) as [?|Hzs]; [by right|]. exfalso.
        assert (z ∉ first) as Hzf by (intros ?; apply Hz1, Hm1; tauto).
        destruct (Hp z Hz Hzf Hzs) as [_ Hzq2].
        rewrite Forall_forall in Hall2. by apply Hz1, Hall2. }
      rewrite Hr2 in *. rewrite E2 in *. split; [split|].
      * intros z Hz. apply Hm1 in Hz as [->|Hz]; [by apply Hi1|by apply Hf].
      * done.
      * intros z Hz1 Hz2. apply Hm1 in Hz1 as [->|Hz1]; [done|]. by apply (Hd z).
      * intros z Hz Hz1 Hz2. destruct (Hall z Hz); done.
      * intros z Hz Hz1. apply Hm1 in Hz1 as [->|Hz1]; [done|].
        by apply (Hq1 z); [apply Hsub1|].
      * intros z Hz. by apply elem_of_nil in Hz.
      * intros z Hz. by apply Hi1, Hsub1.
      * intros z Hz. by apply elem_of_nil in Hz.
      * done.
      * apply NoDup_nil_2.
      * right. split; [lia|done].
      * split; [intros z Hz; apply Hm1; tauto|]. split; [done|].
        split; [lia|]. split; [simpl; lia|]. split; [done|].
        intros Hne. destruct queue2; [done|simpl; lia].
  - (* queue1 is exhausted: everything is assigned already *)
    assert (forall z, z ∈ S -> z ∈ first \/ z ∈ second) as Hall.
    { intros z Hz. destruct (decide (z ∈ first)) as [?|Hzf]; [by left|].
      destruct (decide (z ∈ second)) as [?|Hzs]; [by right|]. exfalso.
      destruct (Hp z Hz Hzf Hzs) as [Hzq1 _].
      rewrite Forall_forall in Hall1. by apply Hzs, Hall1. }
    assert (queue2' = [] /\ second' = second) as [E2 Hr2].
    { destruct (take_next_spec _ _ _ _ _ Ht2)
        as [(sk2 & y & E2 & Hsk2 & Hy & Hr2)|(E2 & Hr2 & Hall2)]; [|done].
      exfalso. rewrite Hr1 in Hy.
      assert (y ∈ queue2) as Hyq.
      { rewrite E2. apply elem_of_app. right. apply list_elem_of_here. }
      destruct (Hall y (Hi2 _ Hyq)) as [?|?]; [done|]. by apply (Hq2 y). }
    rewrite Hr1, Hr2, E1, E2 in *. split; [split|]; try done.
    + intros z Hz Hz1 Hz2. destruct (Hall z Hz); done.
    + intros z Hz. by apply elem_of_nil in Hz.
    + intros z Hz. by apply elem_of_nil in Hz.
    + intros z Hz. by apply elem_of_nil in Hz.
    + intros z Hz. by apply elem_of_nil in Hz.
    + apply NoDup_nil_2.
    + apply NoDup_nil_2.
    + split; [done|]. split; [done|]. split; [simpl; lia|]. split; [simpl; lia|].
      split; intros Hne; [destruct queue1|destruct queue2]; done || (simpl; lia).
Qed.

End Distribute.

Lemma distribute_spec (S : list Data) (rounds : nat) :
  forall queue1 queue2 first second,
    distribute_inv S queue1 queue2 first second ->
    (length queue1 + length queue2 <= rounds)%nat ->
    let r := distribute rounds queue1 queue2 first second in
    (forall x, x ∈ r.1 -> x ∈ S) /\ (forall x, x ∈ r.2 -> x ∈ S)
    /\ (forall x, x ∈ r.1 -> x ∉ r.2)
    /\ (forall x, x ∈ S -> x ∈ r.1 \/ x ∈ r.2)
    /\ (length r.1 = length r.2 \/ length r.1 = Datatypes.S (length r.2))
    /\ (forall x, x ∈ first -> x ∈ r.1) /\ (forall x, x ∈ second -> x ∈ r.2).
Proof.
  assert (forall first second, distribute_inv S [] [] first second ->
            (forall x, x ∈ first -> x ∈ S) /\ (forall x, x ∈ second -> x ∈ S)
            /\ (forall x, x ∈ first -> x ∉ second)
            /\ (forall x, x ∈ S -> x ∈ first \/ x ∈ second)
            /\ (length first = length second
                \/ length first = Datatypes.S (length second))
            /\ (forall x, x ∈ first -> x ∈ first)
            /\ (forall x, x ∈ second -> x ∈ second)) as Hdone.
  { intros first second [Hf Hs Hd Hp _ _ _ _ _ _ Hsz].
    split; [done|]. split; [done|]. split; [done|]. split.
    - intros x Hx. destruct (decide (x ∈ first)) as [?|Hxf]; [by left|].
      destruct (decide (x ∈ second)) as [?|Hxs]; [by right|].
      destruct (Hp x Hx Hxf Hxs) as [Hq _]. by apply elem_of_nil in Hq.
    - split; [|done]. destruct Hsz as [?|[? _]]; [by left|by right]. }
  induction rounds as [|rounds IH]; intros queue1 queue2 first second Hinv Hlen.
  - destruct queue1, queue2; simpl in Hlen; try lia. simpl. by apply Hdone.
  - cbn [distribute].
    assert (queue1 = [] /\ queue2 = [] \/ (queue1 <> [] \/ queue2 <> [])) as [[-> ->]|Hne].
    { destruct queue1, queue2; auto. }
    { by apply Hdone. }
    replace (match queue1 with
             | [] => match queue2 with
                     | [] => (first, second)
                     | _ :: _ => _
                     end
             | _ :: _ => _
             end)
      with (let '(queue1', first') := take_next queue1 second first in
            let '(queue2', second') := take_next queue2 first' second in
            distribute rounds queue1' queue2' first' second').
    2:{ destruct queue1, queue2; try done. by destruct Hne. }
    destruct (take_next queue1 second first) as [queue1' first'] eqn:E1.
    destruct (take_next queue2 first' second) as [queue2' second'] eqn:E2.
    destruct (round_inv S _ _ _ _ _ _ _ _ Hinv E1 E2)
      as (Hinv' & Hm1 & Hm2 & Hl1 & Hl2 & Hs1 & Hs2).
    destruct (IH queue1' queue2' first' second' Hinv') as (H1 & H2 & H3 & H4 & H5 & H6 & H7).
    { destruct Hne as [Hne|Hne]; [specialize (Hs1 Hne)|specialize (Hs2 Hne)]; lia. }
    do 5 (split; [done|]). split; intros x Hx; [apply H6, Hm1|apply H7, Hm2]; done.
Qed.

Lemma is_set_NoDup (s : list Data) : StronglySorted Z.lt s -> NoDup s.
Proof.
  induction 1 as [|x s Hs IH Hall]; [apply NoDup_nil_2|].
  apply NoDup_cons. split; [|done]. intros Hin.
  rewrite Forall_forall in Hall. specialize (Hall x Hin). lia.
Qed.

Lemma set_insert_is_set x s : is_set s -> is_set (set_insert x s).
Proof.
  unfold is_set. induction 1 as [|y s Hs IH Hall]; simpl.
  - by repeat constructor.
  - destruct (Z.ltb_spec x y) as [Hlt|Hge].
    + constructor; [by constructor|]. constructor; [done|].
      eapply Forall_impl; [exact Hall|]. simpl. intros z Hz. lia.
    + destruct (Z.eqb_spec x y) as [->|Hne]; [by constructor|].
      constructor; [done|]. apply Forall_forall. intros z Hz.
      apply elem_of_set_insert in Hz as [->|Hz]; [lia|].
      rewrite Forall_forall in Hall. by apply Hall.
Qed.

Lemma take_next_is_set queue other mine :
  is_set mine -> is_set (take_next queue other mine).2.
Proof.
  induction queue as [|y queue IH]; simpl; intros Hm; [done|].
  destruct (set_mem y other); [by apply IH|]. simpl. by apply set_insert_is_set.
Qed.

Lemma distribute_is_set rounds :
  forall queue1 queue2 first second, is_set first -> is_set second ->
    is_set (distribute rounds queue1 queue2 first second).1
    /\ is_set (distribute rounds queue1 queue2 first second).2.
Proof.
  induction rounds as [|rounds IH]; intros queue1 queue2 first second H1 H2;
    [done|].
  cbn [distribute].
  pose proof (take_next_is_set queue1 second first H1) as H1'.
  destruct (take_next queue1 second first) as [queue1' first'].
  pose proof (take_next_is_set queue2 first' second H2) as H2'.
  destruct (take_next queue2 first' second) as [queue2' second'].
  destruct queue1, queue2; try done; by apply IH.
Qed.

(** The split function on a set of at least two objects, with what it
    leaves in the cache. *)
Lemma split_function_spec
    (rand_stream : nat -> Z) (d : Data -> Data -> Z) (S : list Data) (seed : nat) :
  (forall x, d x x = 0) ->
  (forall x y, x <> y -> 0 < d x y) ->
  is_set S -> (2 <= length S)%nat ->
  exists promoted parts c seed',
    split_function rand_stream d S [] Cache.fresh seed
      = Some (promoted, parts, c, seed')
    /\ split_ok S promoted parts /\ cache_inv d c.
Proof.
  intros d_refl d_pos Hset Hlen.
  pose proof (is_set_NoDup S Hset) as Hnd.
  destruct (random_promotion_spec rand_stream S seed Hnd Hlen)
    as (p1 & p2 & seed' & Hprom & Hne & Hp1 & Hp2).
  unfold split_function. rewrite Hprom. unfold balanced_partition. cbn [fst snd].
  destruct (sort_by_distance_spec d d_refl d_pos p1 S Cache.fresh (fresh_inv d))
    as (Hc1 & Hperm1 & Hhead1).
  destruct (sort_by_distance d p1 S Cache.fresh) as [queue1 c1]. cbn [fst snd] in *.
  destruct (sort_by_distance_spec d d_refl d_pos p2 S c1 Hc1)
    as (Hc2 & Hperm2 & Hhead2).
  destruct (sort_by_distance d p2 S c1) as [queue2 c2]. cbn [fst snd] in *.
  eexists (p1, p2), _, c2, seed'. split; [reflexivity|]. split; [|done].
  specialize (Hhead1 Hp1). specialize (Hhead2 Hp2).
  destruct queue1 as [|q1 queue1]; [done|]. injection Hhead1 as ->.
  destruct queue2 as [|q2 queue2]; [done|]. injection Hhead2 as ->.
  (* the first round assigns the promoted objects *)
  cbn [length Nat.add distribute take_next set_mem existsb set_insert].
  replace (p2 =? p1) with false by (symmetry; apply Z.eqb_neq; congruence).
  cbn [orb].
  assert (distribute_inv S queue1 queue2 [p1] [p2]) as Hinv.
  { assert (NoDup (p1 :: queue1)) as Hn1 by (by rewrite Hperm1).
    assert (NoDup (p2 :: queue2)) as Hn2 by (by rewrite Hperm2).
    apply NoDup_cons in Hn1 as [Hn1 Hn1'], Hn2 as [Hn2 Hn2'].
    split; try done.
    - intros x Hx. by apply list_elem_of_singleton in Hx as ->.
    - intros x Hx. by apply list_elem_of_singleton in Hx as ->.
    - intros x Hx Hx'. apply list_elem_of_singleton in Hx, Hx'. congruence.
    - intros x Hx Hx1 Hx2. rewrite list_elem_of_singleton in Hx1, Hx2. split.
      + rewrite <- Hperm1 in Hx. apply elem_of_cons in Hx. tauto.
      + rewrite <- Hperm2 in Hx. apply elem_of_cons in Hx. tauto.
    - intros x Hx Hx'. apply list_elem_of_singleton in Hx' as ->. done.
    - intros x Hx Hx'. apply list_elem_of_singleton in Hx' as ->. done.
    - intros x Hx. rewrite <- Hperm1. by apply list_elem_of_further.
    - intros x Hx. rewrite <- Hperm2. by apply list_elem_of_further.
    - by left. }
  destruct (distribute_spec S (length queue1 + Datatypes.S (length queue2))
              queue1 queue2 [p1] [p2] Hinv)
    as (H1 & H2 & H3 & H4 & H5 & H6 & H7); [lia|].
  destruct (distribute_is_set (length queue1 + Datatypes.S (length queue2))
              queue1 queue2 [p1] [p2]) as [Hs1 Hs2];
    [by repeat constructor|by repeat constructor|].
  unfold split_ok. cbn [fst snd].
  do 3 (split; [done|]). do 2 (split; [done|]). split; [done|]. split.
  { intros x. split; [by apply H4|]. intros [?|?]; [by apply H1|by apply H2]. }
  split; [apply H6, list_elem_of_here|]. split; [apply H7, list_elem_of_here|].
  lia.
Qed.



(** ** Choosing the child to descend into *)

Section ChooseChild.

Variable d : Data -> Data -> Z.
Variable data : Data.

Lemma scan_candidates_ok (rest : ChildrenMap) :
  forall seen mri nd,
    Forall (fun kv => is_entry kv.2 = false) rest ->
    increase_ok d data seen mri -> nearest_ok d data seen nd ->
    exists mri' nd',
      scan_candidates d data rest mri nd = Some (mri', nd')
      /\ increase_ok d data (seen ++ rest.*2) mri'
      /\ nearest_ok d data (seen ++ rest.*2) nd'.
Proof.
  induction rest as [|[k child] rest IH]; intros seen mri nd Hn Hm Hd.
  - exists mri, nd. simpl. by rewrite app_nil_r.
  - apply Forall_cons in Hn as [Hc Hn]. simpl in Hc.
    rewrite fmap_cons. cbn [snd scan_candidates]. rewrite Hc.
    replace (seen ++ child :: rest.*2) with ((seen ++ [child]) ++ rest.*2)
      by (by rewrite <- app_assoc).
    destruct (Z.gtb_spec (d (item_data child) data) (item_radius child)) as [Hgt|Hle].
    + (* the child would have to grow *)
      assert (nearest_ok d data (seen ++ [child]) nd) as Hd'.
      { unfold nearest_ok in *. destruct (cand_node nd) as [c|].
        - destruct Hd as (? & ? & ? & ? & Hmin). repeat split; try done.
          + apply elem_of_app. by left.
          + intros c' Hc' Hcov. apply elem_of_app in Hc' as [?|Hc']; [by apply Hmin|].
            apply list_elem_of_singleton in Hc' as ->. unfold covers in Hcov. lia.
        - destruct Hd as [? Hno]. split; [done|]. intros c Hin.
          apply elem_of_app in Hin as [?|Hin]; [by apply Hno|].
          apply list_elem_of_singleton in Hin as ->. unfold covers. lia. }
      destruct (lt_x _ (cand_metric mri)) eqn:Hlt.
      * apply IH; [done| |done].
        unfold increase_ok; simpl. repeat split; try done.
        -- apply elem_of_app. right. by apply list_elem_of_singleton.
        -- unfold covers. lia.
        -- intros c' Hc' Hnc. apply elem_of_app in Hc' as [Hc'|Hc'].
           ++ unfold increase_ok in Hm. destruct (cand_node mri) as [c|].
              ** destruct Hm as (? & ? & ? & Hmet & Hmin). rewrite Hmet in Hlt.
                 simpl in Hlt. apply Z.ltb_lt in Hlt. specialize (Hmin _ Hc' Hnc). lia.
              ** destruct Hm as [_ Hall]. by destruct Hnc; apply Hall.
           ++ apply list_elem_of_singleton in Hc' as ->. lia.
      * apply IH; [done| |done].
        unfold increase_ok in *. destruct (cand_node mri) as [c|].
        -- destruct Hm as (? & ? & ? & Hmet & Hmin). rewrite Hmet in Hlt.
           simpl in Hlt. apply Z.ltb_ge in Hlt. repeat split; try done.
           ++ apply elem_of_app. by left.
           ++ intros c' Hc' Hnc. apply elem_of_app in Hc' as [?|Hc']; [by apply Hmin|].
              apply list_elem_of_singleton in Hc' as ->. lia.
        -- destruct Hm as [Hmet _]. rewrite Hmet in Hlt. done.
    + (* the child covers the object *)
      assert (increase_ok d data (seen ++ [child]) mri) as Hm'.
      { unfold increase_ok in *. destruct (cand_node mri) as [c|].
        - destruct Hm as (? & ? & ? & ? & Hmin). repeat split; try done.
          + apply elem_of_app. by left.
          + intros c' Hc' Hnc. apply elem_of_app in Hc' as [?|Hc']; [by apply Hmin|].
            apply list_elem_of_singleton in Hc' as ->. unfold covers in Hnc. lia.
        - destruct Hm as [? Hall]. split; [done|]. intros c Hin.
          apply elem_of_app in Hin as [?|Hin]; [by apply Hall|].
          apply list_elem_of_singleton in Hin as ->. unfold covers. lia. }
      destruct (lt_x _ (cand_metric nd)) eqn:Hlt.
      * apply IH; [done|done|].
        unfold nearest_ok; simpl. repeat split; try done.
        -- apply elem_of_app. right. by apply list_elem_of_singleton.
        -- intros c' Hc' Hcov. apply elem_of_app in Hc' as [Hc'|Hc'].
           ++ unfold nearest_ok in Hd. destruct (cand_node nd) as [c|].
              ** destruct Hd as (? & ? & ? & Hmet & Hmin). rewrite Hmet in Hlt.
                 simpl in Hlt. apply Z.ltb_lt in Hlt. specialize (Hmin _ Hc' Hcov). lia.
              ** destruct Hd as [_ Hno]. by destruct (Hno _ Hc').
           ++ apply list_elem_of_singleton in Hc' as ->. lia.
      * apply IH; [done|done|].
        unfold nearest_ok in *. destruct (cand_node nd) as [c|].
        -- destruct Hd as (? & ? & ? & Hmet & Hmin). rewrite Hmet in Hlt.
           simpl in Hlt. apply Z.ltb_ge in Hlt. repeat split; try done.
           ++ apply elem_of_app. by left.
           ++ intros c' Hc' Hcov. apply elem_of_app in Hc' as [?|Hc']; [by apply Hmin|].
              apply list_elem_of_singleton in Hc' as ->. lia.
        -- destruct Hd as [Hmet _]. rewrite Hmet in Hlt. done.
Qed.

(** What [choose_child] returns on a non-empty map of nodes. *)
Lemma choose_child_spec (children : ChildrenMap) :
  children <> [] ->
  Forall (fun kv => is_entry kv.2 = false) children ->
  exists chosen c,
    choose_child d data children = Some chosen
    /\ cand_node chosen = Some c
    /\ cand_distance chosen = d (item_data c) data
    /\ c ∈ children.*2
    /\ ((exists c', c' ∈ children.*2 /\ covers d data c') ->
        covers d data c /\ forall c', c' ∈ children.*2 -> covers d data c' ->
                      d (item_data c) data <= d (item_data c') data)
    /\ (~ (exists c', c' ∈ children.*2 /\ covers d data c') ->
        forall c', c' ∈ children.*2 ->
          d (item_data c) data - item_radius c
          <= d (item_data c') data - item_radius c').
Proof.
  intros Hne Hnodes.
  destruct (scan_candidates_ok children [] (mk_candidate None (-1) Infty)
              (mk_candidate None (-1) Infty) Hnodes) as (mri & nd & Hscan & Hm & Hd).
  { split; [done|]. intros c Hc. by apply elem_of_nil in Hc. }
  { split; [done|]. intros c Hc. by apply elem_of_nil in Hc. }
  rewrite app_nil_l in Hm, Hd. unfold choose_child. rewrite Hscan.
  unfold nearest_ok in Hd. destruct (cand_node nd) as [c|] eqn:Hnd.
  - destruct Hd as (Hin & Hcov & Hdist & Hmet & Hmin).
    exists nd, c. do 4 (split; [done|]). split.
    + intros _. by split.
    + intros Hno. destruct Hno. by exists c.
  - destruct Hd as [_ Hno]. unfold increase_ok in Hm.
    destruct (cand_node mri) as [c|] eqn:Hmri.
    + destruct Hm as (Hin & Hnc & Hdist & Hmet & Hmin).
      exists mri, c. do 4 (split; [done|]). split.
      * intros (c' & Hc' & Hcov). by destruct (Hno _ Hc').
      * intros _ c' Hc'. apply Hmin; [done|]. by apply Hno.
    + destruct Hm as [_ Hall]. destruct children as [|[k c] rest]; [done|].
      exfalso. apply (Hno c); [|apply Hall]; simpl; apply list_elem_of_here.
Qed.

End ChooseChild.


(** ** The query *)

(** C10: a query with limit 0 is empty on every tree: [begin] returns an
    iterator equal to [end], and the iteration yields no result. *)
Theorem limit_zero_query_is_empty
    (d : Data -> Data -> Z) (addr : nat) (mt : mtree) (query_data : Data)
    (range : xdist) (fuel steps : nat) :
  let q := get_nearest addr mt query_data range 0 in
  (exists it, begin d fuel q = Some it /\ iterator_eq it end_iterator = true)
  /\ results d steps fuel q = Some [].
Proof.
  intros q.
  assert (exists it, begin d fuel q = Some it /\ isEnd it = true) as (it & Hb & He).
  { unfold begin. destruct (root (q_mtree q)) as [r|]; [|by eexists].
    unfold fetchNext. simpl. by eexists. }
  assert (iterator_eq it end_iterator = true) as Heq.
  { unfold iterator_eq. by rewrite He. }
  split; [by exists it|].
  unfold results. rewrite Hb. destruct steps; simpl; by rewrite Heq.
Qed.

(** * Insertion and removal preserve the tree invariants *)

Lemma indexed_node cls data r p children :
  indexed (Node cls data r p children) = indexed_in children.
Proof.
  unfold indexed_in. simpl.
  induction children as [|[k c] m IH]; [done|]. rewrite bind_cons. simpl. by rewrite IH.
Qed.

Lemma indexed_entry data r p : indexed (Entry data r p) = [data].
Proof. done. Qed.

(** *** Children maps *)

Lemma map_find_None k m : map_find k m = None <-> k ∉ m.*1.
Proof.
  induction m as [|[k' v] m IH]; simpl.
  - split; [intros _ H; by apply elem_of_nil in H|done].
  - destruct (Z.eqb_spec k k') as [->|Hne].
    + split; [done|]. intros H. destruct H. apply list_elem_of_here.
    + rewrite IH, not_elem_of_cons. tauto.
Qed.

Lemma map_find_elem k v m : map_find k m = Some v -> (k, v) ∈ m.
Proof.
  induction m as [|[k' v'] m IH]; simpl; [done|].
  destruct (Z.eqb_spec k k') as [->|Hne].
  - intros [= ->]. apply list_elem_of_here.
  - intros H. apply list_elem_of_further. by apply IH.
Qed.

Lemma sorted_head_notin k (l : list Z) :
  StronglySorted Z.lt (k :: l) -> k ∉ l.
Proof.
  intros H Hin. apply StronglySorted_inv in H as [_ H].
  rewrite Forall_forall in H. specialize (H _ Hin). lia.
Qed.

Lemma sorted_NoDup (l : list Z) : StronglySorted Z.lt l -> NoDup l.
Proof.
  induction l as [|k l IH]; intros H; [apply NoDup_nil_2|].
  apply NoDup_cons. split; [by apply sorted_head_notin|].
  apply IH. by apply StronglySorted_inv in H as [? _].
Qed.

Lemma map_find_Some k v m :
  StronglySorted Z.lt m.*1 -> (k, v) ∈ m -> map_find k m = Some v.
Proof.
  induction m as [|[k' v'] m IH]; simpl; intros Hs Hin.
  - by apply elem_of_nil in Hin.
  - apply elem_of_cons in Hin as [[= -> ->]|Hin].
    + by rewrite Z.eqb_refl.
    + destruct (Z.eqb_spec k k') as [->|Hne].
      * exfalso. apply (sorted_head_notin _ _ Hs).
        apply (list_elem_of_fmap_2 fst) in Hin. done.
      * apply IH; [|done]. by apply StronglySorted_inv in Hs as [? _].
Qed.

Lemma map_erase_notin k m : k ∉ m.*1 -> map_erase k m = m.
Proof.
  induction m as [|[k' v'] m IH]; simpl; intros Hn; [done|].
  apply not_elem_of_cons in Hn as [Hne Hn].
  destruct (Z.eqb_spec k k'); [done|]. by rewrite IH.
Qed.

Lemma map_erase_perm k v m :
  map_find k m = Some v -> m ≡ₚ (k, v) :: map_erase k m.
Proof.
  induction m as [|[k' v'] m IH]; simpl; [done|].
  destruct (Z.eqb_spec k k') as [->|Hne].
  - by intros [= ->].
  - intros H. rewrite (IH H) at 1. apply Permutation_swap.
Qed.

Lemma map_erase_sublist k m : sublist (map_erase k m) m.
Proof.
  induction m as [|[k' v'] m IH]; simpl; [done|].
  destruct (Z.eqb_spec k k'); [by apply sublist_cons|by apply sublist_skip].
Qed.

Lemma sublist_sorted (l1 l2 : list Z) :
  sublist l1 l2 -> StronglySorted Z.lt l2 -> StronglySorted Z.lt l1.
Proof.
  induction 1 as [|x l1 l2 Hs IH|x l1 l2 Hs IH]; intros H; [done| |].
  - apply StronglySorted_inv in H as [H Hall]. constructor; [by apply IH|].
    rewrite Forall_forall in *. intros y Hy. apply Hall.
    by eapply elem_of_sublist.
  - apply StronglySorted_inv in H as [H _]. by apply IH.
Qed.

Lemma map_erase_keys_ok k m : keys_ok m -> keys_ok (map_erase k m).
Proof.
  intros [Hs Hd]. pose proof (map_erase_sublist k m) as Hsub. split.
  - eapply sublist_sorted; [|exact Hs]. by apply fmap_sublist.
  - rewrite Forall_forall in *. intros kv Hkv. apply Hd.
    by eapply elem_of_sublist.
Qed.

Lemma map_erase_key_gone k m :
  StronglySorted Z.lt m.*1 -> k ∉ (map_erase k m).*1.
Proof.
  induction m as [|[k' v'] m IH]; simpl; intros Hs.
  - intros H. by apply elem_of_nil in H.
  - destruct (Z.eqb_spec k k') as [->|Hne].
    + by apply sorted_head_notin.
    + simpl. apply not_elem_of_cons. split; [done|]. apply IH.
      by apply StronglySorted_inv in Hs as [? _].
Qed.

Lemma map_set_perm k v m :
  k ∉ m.*1 -> map_set k v m ≡ₚ (k, v) :: m.
Proof.
  induction m as [|[k' v'] m IH]; simpl; intros Hn; [done|].
  apply not_elem_of_cons in Hn as [Hne Hn].
  destruct (Z.ltb_spec k k'); [done|].
  destruct (Z.eqb_spec k k'); [done|].
  rewrite (IH Hn). apply Permutation_swap.
Qed.

Lemma map_set_keys k v m z :
  z ∈ (map_set k v m).*1 -> z = k \/ z ∈ m.*1.
Proof.
  induction m as [|[k' v'] m IH]; simpl.
  - intros Hz. apply list_elem_of_singleton in Hz. by left.
  - destruct (Z.ltb_spec k k') as [Hlt|Hge]; simpl.
    + rewrite !elem_of_cons. tauto.
    + destruct (Z.eqb_spec k k') as [->|Hne]; simpl.
      * rewrite !elem_of_cons. tauto.
      * rewrite !elem_of_cons. intros [->|Hz]; [tauto|].
        apply IH in Hz. tauto.
Qed.

Lemma map_set_sorted k v m :
  StronglySorted Z.lt m.*1 -> StronglySorted Z.lt (map_set k v m).*1.
Proof.
  induction m as [|[k' v'] m IH]; simpl; intros Hs.
  - by repeat constructor.
  - destruct (Z.ltb_spec k k') as [Hlt|Hge].
    + simpl. constructor; [done|]. constructor; [done|].
      apply StronglySorted_inv in Hs as [_ Hall].
      eapply Forall_impl; [exact Hall|]. simpl. intros z Hz. lia.
    + destruct (Z.eqb_spec k k') as [->|Hne]; [done|].
      apply StronglySorted_inv in Hs as [Hs Hall]. simpl.
      constructor; [by apply IH|].
      rewrite Forall_forall in *. intros z Hz.
      apply map_set_keys in Hz as [->|Hz]; [lia|by apply Hall].
Qed.

Lemma map_set_replace k v v0 m :
  StronglySorted Z.lt m.*1 -> map_find k m = Some v0 ->
  map_set k v m ≡ₚ (k, v) :: map_erase k m.
Proof.
  induction m as [|[k' v'] m IH]; simpl; intros Hs; [done|].
  destruct (Z.eqb_spec k k') as [->|Hne].
  - intros _. rewrite Z.ltb_irrefl. done.
  - intros Hf. destruct (Z.ltb_spec k k') as [Hlt|Hge].
    + exfalso. apply map_find_elem in Hf. apply (list_elem_of_fmap_2 fst) in Hf.
      apply StronglySorted_inv in Hs as [_ Hall]. rewrite Forall_forall in Hall.
      specialize (Hall _ Hf). simpl in Hall. lia.
    + rewrite IH; [apply Permutation_swap| |done].
      by apply StronglySorted_inv in Hs as [? _].
Qed.

Lemma map_set_id k v m :
  StronglySorted Z.lt m.*1 -> map_find k m = Some v -> map_set k v m = m.
Proof.
  induction m as [|[k' v'] m IH]; simpl; intros Hs; [done|].
  destruct (Z.eqb_spec k k') as [->|Hne].
  - intros [= ->]. by rewrite Z.ltb_irrefl.
  - intros Hf. destruct (Z.ltb_spec k k') as [Hlt|Hge].
    + exfalso. apply map_find_elem in Hf. apply (list_elem_of_fmap_2 fst) in Hf.
      apply StronglySorted_inv in Hs as [_ Hall]. rewrite Forall_forall in Hall.
      specialize (Hall _ Hf). simpl in Hall. lia.
    + rewrite IH; [done| |done]. by apply StronglySorted_inv in Hs as [? _].
Qed.

Lemma map_find_set_eq k v m : map_find k (map_set k v m) = Some v.
Proof.
  induction m as [|[k' v'] m IH]; simpl.
  - by rewrite Z.eqb_refl.
  - destruct (Z.ltb_spec k k'); simpl.
    + by rewrite Z.eqb_refl.
    + destruct (Z.eqb_spec k k') as [->|Hne]; simpl.
      * by rewrite Z.eqb_refl.
      * destruct (Z.eqb_spec k k'); [done|]. done.
Qed.

(** [map_set] as a permutation, whether or not the key was present. *)
Lemma map_set_perm_erase k v m :
  StronglySorted Z.lt m.*1 -> map_set k v m ≡ₚ (k, v) :: map_erase k m.
Proof.
  intros Hs. destruct (map_find k m) as [v0|] eqn:E.
  - by eapply map_set_replace.
  - apply map_find_None in E. rewrite map_erase_notin by done.
    by apply map_set_perm.
Qed.

Lemma map_set_keys_ok k v m :
  keys_ok m -> item_data v = k -> keys_ok (map_set k v m).
Proof.
  intros [Hs Hd] Hv. split; [by apply map_set_sorted|].
  rewrite (map_set_perm_erase k v m Hs). apply Forall_cons. split; [done|].
  by apply map_erase_keys_ok.
Qed.

Lemma keys_ok_NoDup m : keys_ok m -> NoDup m.*1.
Proof. intros [Hs _]. by apply sorted_NoDup. Qed.

Lemma keys_ok_elem k v m : keys_ok m -> (k, v) ∈ m -> item_data v = k.
Proof. intros [_ Hd] Hin. rewrite Forall_forall in Hd. by apply (Hd (k, v)). Qed.

(** *** Fields that [set_distanceToParent] leaves alone *)

Lemma data_set_dtp c p : item_data (set_distanceToParent c p) = item_data c.
Proof. by destruct c. Qed.
Lemma radius_set_dtp c p : item_radius (set_distanceToParent c p) = item_radius c.
Proof. by destruct c. Qed.
Lemma children_set_dtp c p :
  item_children (set_distanceToParent c p) = item_children c.
Proof. by destruct c. Qed.
Lemma dtp_set_dtp c p : item_distanceToParent (set_distanceToParent c p) = p.
Proof. by destruct c. Qed.
Lemma indexed_set_dtp c p : indexed (set_distanceToParent c p) = indexed c.
Proof. destruct c; [done|]. simpl set_distanceToParent. by rewrite !indexed_node. Qed.
Lemma is_entry_set_dtp c p : is_entry (set_distanceToParent c p) = is_entry c.
Proof. by destruct c. Qed.
Lemma keys_at_set_dtp n c p : keys_at n (set_distanceToParent c p) = keys_at n c.
Proof. destruct n, c; done. Qed.

Section Invariant.

Variable d : Data -> Data -> Z.
Hypothesis Hd : metric d.

Lemma inv_set_dtp keyed h c p :
  inv d keyed h c -> inv d keyed h (set_distanceToParent c p).
Proof. destruct h, c; done. Qed.

Lemma child_shape_set_dtp h c p :
  child_shape h c -> child_shape h (set_distanceToParent c p).
Proof. destruct h, c; done. Qed.

Lemma inv_is_entry keyed h c :
  inv d keyed h c -> is_entry c = bool_decide (h = O).
Proof. destruct h, c; done. Qed.

(** The radius of a well-formed item covers what it indexes. *)
Lemma inv_cover keyed h c x :
  inv d keyed h c -> x ∈ indexed c -> d x (item_data c) <= item_radius c.
Proof.
  destruct h, c; simpl; try done.
  - intros -> Hx. apply list_elem_of_singleton in Hx as ->.
    rewrite (metric_refl d Hd). done.
  - intros (_ & _ & _ & Hcov) Hx. apply Hcov.
    by rewrite <- (indexed_node cls data radius distanceToParent).
Qed.

Lemma inv_keyed_weaken keyed h c : inv d keyed h c -> inv d false h c.
Proof.
  revert c. induction h as [|h IH]; intros c; [done|].
  destruct c as [|cls data radius dtp children]; [done|]. simpl.
  intros (H1 & H2 & H3 & H4). do 2 (split; [done|]). split; [|done].
  eapply Forall_impl; [exact H3|]. simpl.
  intros kv (Hi & Hdtp & Hsh & _). split; [by apply IH|]. done.
Qed.

(** [store_child] on a node that does not have the child's key. *)
Lemma store_child_inv keyed h cls data radius dtp children c distance :
  let this := Node cls data radius dtp children in
  inv d keyed (S h) this ->
  inv d keyed h c -> child_shape h c ->
  (keyed = true -> item_data c ∈ indexed c) ->
  item_data c ∉ children.*1 ->
  distance = d (item_data c) data ->
  exists radius' children',
    store_child this c distance = Node cls data radius' dtp children'
    /\ radius <= radius'
    /\ children' ≡ₚ (item_data c, set_distanceToParent c distance) :: children
    /\ inv d keyed (S h) (Node cls data radius' dtp children').
Proof.
  intros this (Hleaf & Hkeys & Hall & Hcov) Hc Hshape Hkeyed Hfresh Hdist.
  unfold store_child, this. simpl.
  set (c' := set_distanceToParent c distance).
  assert (map_set (item_data c) c' children ≡ₚ (item_data c, c') :: children)
    as Hperm by (by apply map_set_perm).
  eexists _, _. split; [reflexivity|]. split.
  { unfold c'. rewrite dtp_set_dtp, radius_set_dtp. lia. }
  split; [done|]. simpl. split; [done|]. split.
  { apply map_set_keys_ok; [done|]. unfold c'. by rewrite data_set_dtp. }
  split.
  - rewrite Hperm. apply Forall_cons. split; [|done]. simpl. unfold c'.
    rewrite data_set_dtp, dtp_set_dtp, indexed_set_dtp.
    split; [by apply inv_set_dtp|]. split; [done|].
    split; [by apply child_shape_set_dtp|done].
  - intros x Hx. unfold indexed_in in Hx. rewrite Hperm, bind_cons in Hx.
    simpl in Hx. unfold c' in *.
    rewrite indexed_set_dtp, dtp_set_dtp, radius_set_dtp in *.
    apply elem_of_app in Hx as [Hx|Hx].
    + pose proof (inv_cover _ _ _ _ Hc Hx).
      pose proof (metric_triangle d Hd x (item_data c) data). lia.
    + specialize (Hcov x Hx). lia.
Qed.

Lemma indexed_in_perm m1 m2 : m1 ≡ₚ m2 -> indexed_in m1 ≡ₚ indexed_in m2.
Proof. intros H. unfold indexed_in. by rewrite H. Qed.

Lemma indexed_in_cons kv m : indexed_in (kv :: m) = indexed kv.2 ++ indexed_in m.
Proof. done. Qed.

End Invariant.

(** *** [addChild] of a child whose key is new *)

Section AddChildFresh.

Variable rand_stream : nat -> Z.
Variable d : Data -> Data -> Z.

Lemma addChild_fresh fuel mt cls data radius dtp children c distance seed :
  (3 <= fuel)%nat ->
  is_entry c = is_leaf_class cls ->
  item_data c ∉ children.*1 ->
  addChild rand_stream d fuel mt (Node cls data radius dtp children) c distance seed
  = Some (store_child (Node cls data radius dtp children) c distance, seed).
Proof.
  intros Hfuel Hkind Hfresh.
  destruct fuel as [|[|[|fuel]]]; try lia.
  apply map_find_None in Hfresh. cbn [addChild].
  destruct (is_leaf_class cls).
  - by rewrite Hfresh.
  - rewrite Hkind. cbn [addChild_loop item_children]. rewrite Hfresh.
    unfold store_child. destruct c; done.
Qed.

End AddChildFresh.

(** *** The key set of a children map *)

Lemma key_set_from_spec (m : ChildrenMap) :
  forall acc, is_set acc ->
    is_set (fold_left (fun s kv => set_insert kv.1 s) m acc)
    /\ forall x, x ∈ fold_left (fun s kv => set_insert kv.1 s) m acc
                 <-> x ∈ acc \/ x ∈ m.*1.
Proof.
  induction m as [|[k v] m IH]; intros acc Hacc; simpl.
  - split; [done|]. intros x. split; [by left|]. intros [?|H]; [done|].
    by apply elem_of_nil in H.
  - destruct (IH (set_insert k acc)) as [Hs He]; [by apply set_insert_is_set|].
    split; [done|]. intros x. rewrite He, elem_of_set_insert, elem_of_cons. tauto.
Qed.

Lemma key_set_spec (m : ChildrenMap) :
  NoDup m.*1 ->
  is_set (key_set m) /\ (forall x, x ∈ key_set m <-> x ∈ m.*1)
  /\ length (key_set m) = length m.
Proof.
  intros Hnd. destruct (key_set_from_spec m []) as [Hs He]; [constructor|].
  fold (key_set m) in Hs, He. split; [done|].
  assert (forall x, x ∈ key_set m <-> x ∈ m.*1) as He'.
  { intros x. rewrite He. split; [|by right]. intros [H|?]; [|done].
    by apply elem_of_nil in H. }
  split; [done|]. rewrite <- (length_fmap fst m). apply Permutation_length.
  apply NoDup_Permutation; [by apply is_set_NoDup|done|done].
Qed.

(** *** Moving children into a new node *)

Section Split.

Variable rand_stream : nat -> Z.
Variable d : Data -> Data -> Z.
Hypothesis Hd : metric d.

Lemma inv_children_ready keyed h cls data radius dtp children :
  inv d keyed (S h) (Node cls data radius dtp children) ->
  Forall (fun kv => child_ready d keyed h kv.2) children.
Proof.
  intros (_ & _ & Hall & _). eapply Forall_impl; [exact Hall|].
  intros kv (? & _ & ? & ?). done.
Qed.

Lemma child_ready_is_entry keyed h c :
  child_ready d keyed h c -> is_entry c = bool_decide (h = O).
Proof. intros [Hi _]. by eapply inv_is_entry. Qed.

Lemma cached_distance c a b :
  cache_inv d c -> (Cache.call d c a b).1 = d a b.
Proof.
  intros Hc. destruct (call_value d c a b Hc) as [->| ->]; [done|].
  apply (metric_sym d Hd).
Qed.

Lemma map_erase_elem k k' v m :
  (k', v) ∈ m -> k' <> k -> (k', v) ∈ map_erase k m.
Proof.
  induction m as [|[k'' v''] m IH]; simpl; intros Hin Hne.
  - by apply elem_of_nil in Hin.
  - destruct (Z.eqb_spec k k'') as [->|Hne'].
    + apply elem_of_cons in Hin as [[= -> ->]|Hin]; done.
    + apply elem_of_cons in Hin as [[= -> ->]|Hin].
      * apply list_elem_of_here.
      * apply list_elem_of_further. by apply IH.
Qed.

Lemma move_children_spec keyed h fuel mt p (P : list Data) :
  (3 <= fuel)%nat ->
  forall node children c seed,
    inv d keyed (S h) node -> item_data node = p ->
    keys_ok children ->
    Forall (fun kv => child_ready d keyed h kv.2) children ->
    NoDup P -> (forall k, k ∈ P -> k ∈ children.*1) ->
    (forall k, k ∈ (item_children node).*1 -> k ∉ children.*1) ->
    cache_inv d c ->
    exists node' children' c' moved,
      move_children d (addChild rand_stream d fuel mt) p node P children c seed
        = Some (node', children', c', seed)
      /\ cache_inv d c'
      /\ inv d keyed (S h) node'
      /\ item_data node' = p
      /\ (forall cls, item_class_is cls node -> item_class_is cls node')
      /\ children ≡ₚ moved ++ children'
      /\ moved.*1 ≡ₚ P
      /\ indexed node' ≡ₚ indexed_in moved ++ indexed node
      /\ length (item_children node') = (length (item_children node) + length P)%nat
      /\ keys_ok children'
      /\ (forall k, k ∈ (item_children node').*1 -> k ∉ children'.*1).
Proof.
  intros Hfuel. induction P as [|data P IH];
    intros node children c seed Hinv Hp Hkeys Hready HndP HP Hfresh Hc.
  - exists node, children, c, []. simpl. rewrite Nat.add_0_r. done.
  - apply NoDup_cons in HndP as [HdataP HndP].
    assert (data ∈ children.*1) as Hin by (apply HP, list_elem_of_here).
    apply list_elem_of_fmap in Hin as ([k child] & Hk & Hin). simpl in Hk. subst k.
    pose proof (map_find_Some _ _ _ (proj1 Hkeys) Hin) as Hfind.
    cbn [move_children]. rewrite Hfind.
    pose proof (cached_distance c p data Hc) as Hdist.
    pose proof (call_inv d c p data Hc) as Hc'.
    destruct (Cache.call d c p data) as [distance c']. simpl in Hdist, Hc'.
    pose proof (keys_ok_elem _ _ _ Hkeys Hin) as Hcd.
    rewrite Forall_forall in Hready.
    destruct (Hready _ Hin) as (Hci & Hcs & Hck). simpl in Hci, Hcs, Hck.
    destruct node as [|ncls ndata nradius ndtp nchildren]; [done|].
    simpl in Hp. subst ndata.
    assert (item_data child ∉ nchildren.*1) as Hnew.
    { rewrite Hcd. intros Hx. apply (Hfresh data Hx).
      apply list_elem_of_fmap. by exists (data, child). }
    rewrite addChild_fresh; [|done| |done].
    2:{ rewrite (inv_is_entry d _ _ _ Hci). by destruct Hinv as (-> & _). }
    destruct (store_child_inv d Hd keyed h ncls p nradius ndtp nchildren child
                distance Hinv Hci Hcs Hck Hnew)
      as (radius' & children1 & Hstore & _ & Hperm1 & Hinv1).
    { rewrite Hdist, Hcd. apply (metric_sym d Hd). }
    rewrite Hstore.
    pose proof (map_erase_perm _ _ _ Hfind) as Hperm.
    destruct (IH (Node ncls p radius' ndtp children1)
                (map_erase data children) c' seed) as
      (node' & children' & c'' & moved & Hmove & Hc'' & Hinv' & Hp' & Hcls'
       & Hperm' & Hmoved & Hidx & Hlen & Hkeys' & Hfresh'); try done.
    + by apply map_erase_keys_ok.
    + apply Forall_forall. intros kv Hkv. apply Hready.
      eapply elem_of_sublist; [exact Hkv|apply map_erase_sublist].
    + intros k Hk. specialize (HP k (list_elem_of_further _ _ _ Hk)).
      apply list_elem_of_fmap in HP as ([k' v] & Hk' & Hkv). simpl in Hk'. subst k'.
      apply list_elem_of_fmap. exists (k, v). split; [done|].
      apply map_erase_elem; [done|]. intros ->. done.
    + simpl. intros k Hk. rewrite Hperm1 in Hk. simpl in Hk.
      apply elem_of_cons in Hk as [->|Hk].
      * rewrite Hcd. apply map_erase_key_gone, Hkeys.
      * intros Hk'. apply (Hfresh k Hk).
        eapply elem_of_sublist; [exact Hk'|].
        apply fmap_sublist, map_erase_sublist.
    + exists node', children', c'', ((data, child) :: moved).
      split; [done|]. split; [done|]. split; [done|]. split; [done|].
      split; [intros cls Hcls; by apply Hcls'|].
      split; [by rewrite Hperm, Hperm'|].
      split; [simpl; by rewrite Hmoved|].
      split.
      { rewrite Hidx, !indexed_node. rewrite (indexed_in_perm _ _ Hperm1).
        rewrite !indexed_in_cons. simpl. rewrite indexed_set_dtp.
        rewrite (Permutation_app_comm (indexed_in moved)).
        rewrite <- !app_assoc. apply Permutation_app_head.
        apply Permutation_app_comm. }
      split; [|done]. rewrite Hlen. simpl.
      rewrite (Permutation_length Hperm1). simpl. lia.
Qed.

End Split.

Section CheckMaxCapacity.

Variable rand_stream : nat -> Z.
Variable d : Data -> Data -> Z.
Hypothesis Hd : metric d.

Lemma new_node_inv keyed h cls p :
  is_leaf_class cls = bool_decide (h = O) ->
  inv d keyed (S h) (newSplitNodeReplacement cls p)
  /\ item_class_is (class_at false h) (newSplitNodeReplacement cls p).
Proof.
  intros Hleaf. unfold newSplitNodeReplacement, new_node. simpl.
  destruct h; simpl in *; rewrite Hleaf; simpl.
  - repeat split; try done; try constructor.
    intros x Hx. by apply elem_of_nil in Hx.
  - repeat split; try done; try constructor.
    intros x Hx. by apply elem_of_nil in Hx.
Qed.

Lemma elem_of_indexed_in x k v m :
  (k, v) ∈ m -> x ∈ indexed v -> x ∈ indexed_in m.
Proof.
  intros Hin Hx. unfold indexed_in. apply list_elem_of_bind. by exists (k, v).
Qed.

Lemma checkMaxCapacity_unfold fuel mt cls data radius dtp children seed :
  checkMaxCapacity rand_stream d (S fuel) mt (Node cls data radius dtp children) seed
  = if map_size children >? maxNodeCapacity mt then
      match split_function rand_stream d (key_set children) [] Cache.fresh seed with
      | None => None
      | Some (promoted, (firstPartition, secondPartition),
              cachedDistanceFunction, seed') =>
          match move_children d (addChild rand_stream d fuel mt) promoted.1
                  (newSplitNodeReplacement cls promoted.1)
                  firstPartition children cachedDistanceFunction seed' with
          | None => None
          | Some (newNode0, children0, c0, seed0) =>
              match move_children d (addChild rand_stream d fuel mt) promoted.2
                      (newSplitNodeReplacement cls promoted.2)
                      secondPartition children0 c0 seed0 with
              | None => None
              | Some (newNode1, children1, _, seed1) =>
                  match children1 with
                  | [] =>
                      Some (set_children (Node cls data radius dtp children) [],
                            SplitNodeReplacement newNode0 newNode1, seed1)
                  | _ :: _ => None
                  end
              end
          end
      end
    else Some (Node cls data radius dtp children, Normal, seed).
Proof. reflexivity. Qed.

Lemma checkMaxCapacity_fits fuel mt cls data radius dtp children seed :
  (1 <= fuel)%nat ->
  map_size children <= maxNodeCapacity mt ->
  checkMaxCapacity rand_stream d fuel mt (Node cls data radius dtp children) seed
  = Some (Node cls data radius dtp children, Normal, seed).
Proof.
  intros Hfuel Hfit. destruct fuel; [lia|]. simpl.
  destruct (Z.gtb_spec (map_size children) (maxNodeCapacity mt)); [lia|done].
Qed.

Lemma checkMaxCapacity_splits h fuel mt cls data radius dtp children seed :
  (4 <= fuel)%nat -> 3 <= maxNodeCapacity mt ->
  inv d true (S h) (Node cls data radius dtp children) ->
  maxNodeCapacity mt < map_size children ->
  exists this' N0 N1 seed',
    checkMaxCapacity rand_stream d fuel mt (Node cls data radius dtp children) seed
      = Some (this', SplitNodeReplacement N0 N1, seed')
    /\ child_ready d true (S h) N0 /\ child_ready d true (S h) N1
    /\ indexed N0 ++ indexed N1 ≡ₚ indexed_in children
    /\ item_data N0 <> item_data N1.
Proof.
  intros Hfuel Hmax Hinv Hover.
  pose proof (inv_children_ready d _ _ _ _ _ _ _ Hinv) as Hready.
  destruct Hinv as (Hleaf & Hkeys & Hall & Hcov).
  destruct fuel as [|fuel]; [lia|]. rewrite checkMaxCapacity_unfold.
  destruct (Z.gtb_spec (map_size children) (maxNodeCapacity mt)) as [_|?]; [|lia].
  destruct (key_set_spec children (keys_ok_NoDup _ Hkeys)) as (Hset & Helem & Hlen).
  unfold map_size in Hover.
  destruct (split_function_spec rand_stream d (key_set children) seed
              (metric_refl d Hd) (metric_pos d Hd) Hset)
    as ([p1 p2] & [P1 P2] & c & seed' & Hsplit & Hok & Hc); [lia|].
  rewrite Hsplit. cbn [fst snd].
  destruct Hok as (Hne & Hp1 & Hp2 & HsetP1 & HsetP2 & Hdisj & Hunion & Hp1P & Hp2P
                   & Hsizes). cbn [fst snd] in *.
  destruct (new_node_inv true h cls p1 Hleaf) as [Hn0 Hn0c].
  destruct (new_node_inv true h cls p2 Hleaf) as [Hn1 Hn1c].
  (* the first partition *)
  destruct (move_children_spec rand_stream d Hd true h fuel mt p1 P1 ltac:(lia)
              (newSplitNodeReplacement cls p1) children c seed')
    as (N0 & children0 & c0 & moved0 & Hmove0 & Hc0 & HinvN0 & HdataN0 & HclsN0
        & Hperm0 & Hmoved0 & Hidx0 & Hlen0 & Hkeys0 & Hfresh0); try done.
  { by apply is_set_NoDup. }
  { intros k Hk. apply Helem, Hunion. by left. }
  { intros k Hk. by apply elem_of_nil in Hk. }
  rewrite Hmove0.
  (* the second partition *)
  assert (children.*1 ≡ₚ P1 ++ children0.*1) as Hkeys_perm.
  { rewrite Hperm0, fmap_app. by rewrite Hmoved0. }
  destruct (move_children_spec rand_stream d Hd true h fuel mt p2 P2 ltac:(lia)
              (newSplitNodeReplacement cls p2) children0 c0 seed')
    as (N1 & children1 & c1 & moved1 & Hmove1 & Hc1 & HinvN1 & HdataN1 & HclsN1
        & Hperm1 & Hmoved1 & Hidx1 & Hlen1 & Hkeys1 & Hfresh1); try done.
  { apply Forall_forall. intros kv Hkv. rewrite Forall_forall in Hready.
    apply Hready. rewrite Hperm0. apply elem_of_app. by right. }
  { by apply is_set_NoDup. }
  { intros k Hk.
    assert (k ∈ children.*1) as Hin by (apply Helem, Hunion; by right).
    rewrite Hkeys_perm in Hin. apply elem_of_app in Hin as [Hin|Hin]; [|done].
    by destruct (Hdisj k Hin). }
  { intros k Hk. by apply elem_of_nil in Hk. }
  rewrite Hmove1.
  (* nothing is left in the old node *)
  assert (length children = (length P1 + length P2 + length children1)%nat) as Hcount.
  { rewrite (Permutation_length Hperm0), length_app, (Permutation_length Hperm1),
      length_app.
    rewrite <- (length_fmap fst moved0), <- (length_fmap fst moved1).
    rewrite (Permutation_length Hmoved0), (Permutation_length Hmoved1). lia. }
  assert (P1 ++ P2 ≡ₚ key_set children) as Hparts.
  { apply NoDup_Permutation.
    - apply NoDup_app. split; [by apply is_set_NoDup|].
      split; [done|by apply is_set_NoDup].
    - by apply is_set_NoDup.
    - intros x. rewrite elem_of_app. symmetry. apply Hunion. }
  assert (length P1 + length P2 = length children)%nat as Hparts_len.
  { rewrite <- Hlen, <- (Permutation_length Hparts), length_app. done. }
  destruct children1 as [|? ?]; [|simpl in Hcount; lia].
  rewrite app_nil_r in Hperm1.
  eexists _, N0, N1, seed'. split; [reflexivity|].
  assert (forall p P N moved,
            p ∈ P -> moved.*1 ≡ₚ P -> (forall kv, kv ∈ moved -> kv ∈ children) ->
            indexed N ≡ₚ indexed_in moved ++ [] -> p ∈ indexed N) as Hkey.
  { intros p P N moved Hp HP Hsub HN. rewrite HN, app_nil_r.
    rewrite <- HP in Hp. apply list_elem_of_fmap in Hp as ([k v] & -> & Hkv).
    simpl. eapply elem_of_indexed_in; [exact Hkv|].
    rewrite Forall_forall in Hready. destruct (Hready _ (Hsub _ Hkv)) as (_ & _ & Hk).
    simpl in Hk. rewrite <- (keys_ok_elem _ _ _ Hkeys (Hsub _ Hkv)). by apply Hk. }
  unfold newSplitNodeReplacement, new_node in Hidx0, Hidx1, Hlen0, Hlen1.
  rewrite indexed_node in Hidx0, Hidx1.
  change (indexed_in []) with (@nil Data) in Hidx0, Hidx1.
  simpl in Hlen0, Hlen1.
  split; [|split; [|split]].
  - split; [done|]. split.
    + split; [by apply HclsN0|]. lia.
    + intros _. rewrite HdataN0. eapply (Hkey p1 P1 N0 moved0); try done.
      intros kv Hkv. rewrite Hperm0. apply elem_of_app. by left.
  - split; [done|]. split.
    + split; [by apply HclsN1|]. lia.
    + intros _. rewrite HdataN1. eapply (Hkey p2 P2 N1 moved1); try done.
      intros kv Hkv. rewrite Hperm0, Hperm1. apply elem_of_app. by right.
  - rewrite Hidx0, Hidx1, !app_nil_r. unfold indexed_in.
    by rewrite Hperm0, Hperm1, bind_app.
  - by rewrite HdataN0, HdataN1.
Qed.

End CheckMaxCapacity.

Section AddData.

Variable rand_stream : nat -> Z.
Variable d : Data -> Data -> Z.
Hypothesis Hd : metric d.

Lemma addData_unfold fuel mt this data distance seed :
  addData rand_stream d (S fuel) mt this data distance seed
  = match doAddData rand_stream d fuel mt this data distance seed with
    | None => None
    | Some (this', seed') => checkMaxCapacity rand_stream d (S fuel) mt this' seed'
    end.
Proof. reflexivity. Qed.

Lemma doAddData_unfold fuel mt cls data0 radius dtp children data distance seed :
  doAddData rand_stream d (S fuel) mt (Node cls data0 radius dtp children)
    data distance seed
  = if is_leaf_class cls then
      match map_find data children with
      | Some _ => None
      | None =>
          Some (store_child (Node cls data0 radius dtp children)
                  (new_entry data) distance, seed)
      end
    else
      match choose_child d data children with
      | None => None
      | Some chosen =>
          match cand_node chosen with
          | None => None
          | Some child =>
              after_child_addData rand_stream d (S fuel) mt
                (Node cls data0 radius dtp children) child
                (addData rand_stream d fuel mt child data (cand_distance chosen) seed)
          end
      end.
Proof. reflexivity. Qed.

Lemma leaf_keys_indexed keyed cls data radius dtp children x :
  inv d keyed 1 (Node cls data radius dtp children) ->
  x ∈ children.*1 -> x ∈ indexed_in children.
Proof.
  intros (_ & Hkeys & Hall & _) Hx.
  apply list_elem_of_fmap in Hx as ([k v] & -> & Hkv). simpl.
  eapply elem_of_indexed_in; [exact Hkv|].
  rewrite Forall_forall in Hall. destruct (Hall _ Hkv) as (Hv & _). simpl in Hv.
  rewrite <- (keys_ok_elem _ _ _ Hkeys Hkv).
  destruct v; [|done]. simpl. apply list_elem_of_here.
Qed.

(** Replacing a child by its grown version. *)
Lemma child_grown_inv h cls data radius dtp children c c' x :
  inv d true (S (S h)) (Node cls data radius dtp children) ->
  (item_data c, c) ∈ children ->
  grown d h c c' x ->
  let this1 := updateRadius
                 (set_children (Node cls data radius dtp children)
                    (map_set (item_data c') c' children)) c' in
  grown d (S h) (Node cls data radius dtp children) this1 x.
Proof.
  intros Hinv Hin (Hc' & Hidx & Hdata & Hdtp & Hcls & Hlen) this1.
  pose proof Hinv as (Hleaf & Hkeys & Hall & Hcov).
  pose proof (map_find_Some _ _ _ (proj1 Hkeys) Hin) as Hfind.
  pose proof (map_erase_perm _ _ _ Hfind) as Hperm.
  assert (map_set (item_data c') c' children
          ≡ₚ (item_data c, c') :: map_erase (item_data c) children) as Hperm'.
  { rewrite Hdata. by eapply map_set_replace; [apply Hkeys|]. }
  rewrite Forall_forall in Hall.
  destruct (Hall _ Hin) as (Hci & Hcdtp & Hcshape & Hckey).
  cbn [fst snd] in Hci, Hcdtp, Hcshape, Hckey.
  unfold this1, grown.
  cbn [updateRadius set_children item_data item_distanceToParent item_children].
  split; [|split; [|split; [done|split; [done|split; [done|]]]]].
  - split; [done|]. split; [apply map_set_keys_ok; [done|done]|]. split.
    + rewrite Hperm'. apply Forall_cons. split.
      * simpl. split; [done|]. split; [by rewrite Hdtp, Hdata|]. split.
        -- destruct Hcshape as [Hk Hsz]. split; [by apply Hcls|lia].
        -- intros _. rewrite Hdata, Hidx. apply list_elem_of_further. by apply Hckey.
      * apply Forall_forall. intros kv Hkv. apply Hall.
        eapply elem_of_sublist; [exact Hkv|apply map_erase_sublist].
    + intros y Hy. unfold indexed_in in Hy. rewrite Hperm', bind_cons in Hy.
      simpl in Hy. apply elem_of_app in Hy as [Hy|Hy].
      * pose proof (inv_cover d Hd _ _ _ _ Hc' Hy) as Hcovc.
        pose proof (metric_triangle d Hd y (item_data c') data) as Htri.
        rewrite Hdtp, Hcdtp, <- Hdata. lia.
      * assert (y ∈ indexed_in children) as Hy'.
        { unfold indexed_in. rewrite Hperm, bind_cons. apply elem_of_app. by right. }
        specialize (Hcov y Hy'). lia.
  - rewrite !indexed_node.
    rewrite (indexed_in_perm _ _ Hperm'), (indexed_in_perm _ _ Hperm).
    rewrite !indexed_in_cons. cbn [snd]. by rewrite Hidx.
  - by rewrite (Permutation_length Hperm'), (Permutation_length Hperm).
Qed.


(** [addChild] of a well-formed child whose key is new to the node. *)
Lemma addChild_ready keyed h fuel mt this c distance seed :
  (3 <= fuel)%nat ->
  inv d keyed (S h) this -> child_ready d keyed h c ->
  item_data c ∉ (item_children this).*1 ->
  distance = d (item_data c) (item_data this) ->
  exists this',
    addChild rand_stream d fuel mt this c distance seed = Some (this', seed)
    /\ inv d keyed (S h) this'
    /\ item_data this' = item_data this
    /\ item_distanceToParent this' = item_distanceToParent this
    /\ (forall cls, item_class_is cls this -> item_class_is cls this')
    /\ item_radius this <= item_radius this'
    /\ item_children this'
       ≡ₚ (item_data c, set_distanceToParent c distance) :: item_children this
    /\ indexed this' ≡ₚ indexed c ++ indexed this.
Proof.
  intros Hfuel Hinv (Hci & Hcs & Hck) Hfresh Hdist.
  destruct this as [|cls data radius dtp children]; [done|].
  cbn [item_children item_data] in *.
  rewrite addChild_fresh; [|done| |done].
  2:{ rewrite (inv_is_entry d _ _ _ Hci). by destruct Hinv as (-> & _). }
  destruct (store_child_inv d Hd keyed h cls data radius dtp children c distance
              Hinv Hci Hcs Hck Hfresh Hdist)
    as (radius' & children' & -> & Hr & Hperm & Hinv').
  eexists. split; [reflexivity|]. split; [done|].
  cbn [item_data item_distanceToParent item_radius item_children].
  do 4 (split; [done|]). split; [done|].
  rewrite !indexed_node, (indexed_in_perm _ _ Hperm), indexed_in_cons.
  cbn [snd]. by rewrite indexed_set_dtp.
Qed.

Lemma inv_erase keyed h cls data radius dtp children k :
  inv d keyed (S h) (Node cls data radius dtp children) ->
  inv d keyed (S h) (Node cls data radius dtp (map_erase k children)).
Proof.
  intros (Hleaf & Hkeys & Hall & Hcov). split; [done|].
  split; [by apply map_erase_keys_ok|]. split.
  - rewrite Forall_forall in *. intros kv Hkv. apply Hall.
    eapply elem_of_sublist; [exact Hkv|apply map_erase_sublist].
  - intros x Hx. apply Hcov. unfold indexed_in in *.
    apply list_elem_of_bind in Hx as (kv & Hx & Hkv).
    apply list_elem_of_bind. exists kv. split; [done|].
    eapply elem_of_sublist; [exact Hkv|apply map_erase_sublist].
Qed.

(** The objects indexed below two different children are different, when
    no object is indexed twice. *)
Lemma indexed_siblings_disjoint (children : ChildrenMap) k c :
  NoDup (indexed_in children) -> map_find k children = Some c ->
  forall k' s y, (k', s) ∈ map_erase k children ->
    y ∈ indexed s -> y ∉ indexed c.
Proof.
  intros Hnd Hfind k' s y Hs Hy Hyc.
  rewrite (indexed_in_perm _ _ (map_erase_perm _ _ _ Hfind)) in Hnd.
  rewrite indexed_in_cons in Hnd. cbn [snd] in Hnd.
  apply NoDup_app in Hnd as (_ & Hdisj & _).
  apply (Hdisj y Hyc). eapply elem_of_indexed_in; [exact Hs|done].
Qed.

(** Replacing a child by the two halves it split into. *)
Lemma child_split_inv h fuel mt cls data radius dtp children c c0 N0 N1 x seed :
  (3 <= fuel)%nat ->
  let this := Node cls data radius dtp children in
  inv d true (S (S h)) this ->
  NoDup (indexed this) -> x ∉ indexed this ->
  (item_data c, c) ∈ children ->
  halves d h c N0 N1 x ->
  exists this',
    after_child_addData rand_stream d fuel mt this c
      (Some (c0, SplitNodeReplacement N0 N1, seed)) = Some (this', seed)
    /\ grown d (S h) this this' x.
Proof.
  intros Hfuel this Hinv Hnd Hx Hin (HN0 & HN1 & Hidx & Hne).
  pose proof Hinv as (Hleaf & Hkeys & Hall & Hcov).
  pose proof (map_find_Some _ _ _ (proj1 Hkeys) Hin) as Hfind.
  pose proof (map_erase_perm _ _ _ Hfind) as Hperm.
  unfold this in Hnd, Hx. rewrite indexed_node in Hnd, Hx.
  rewrite Forall_forall in Hall.
  (* a promoted object routes no sibling *)
  assert (forall N, item_data N ∈ indexed N ->
                    (forall y, y ∈ indexed N -> y ∈ x :: indexed c) ->
                    item_data N ∉ (map_erase (item_data c) children).*1) as Hnew.
  { intros N HNkey HNsub Hk.
    apply list_elem_of_fmap in Hk as ([k s] & Hks & Hs). cbn [fst] in Hks. subst k.
    assert ((item_data N, s) ∈ children) as Hs'.
    { eapply elem_of_sublist; [exact Hs|apply map_erase_sublist]. }
    destruct (Hall _ Hs') as (_ & _ & _ & Hskey). cbn [snd] in Hskey.
    pose proof (keys_ok_elem _ _ _ Hkeys Hs') as Hsd.
    specialize (Hskey eq_refl). rewrite Hsd in Hskey.
    specialize (HNsub _ HNkey).
    apply elem_of_cons in HNsub as [HNx|HNc].
    - apply Hx. rewrite <- HNx. eapply elem_of_indexed_in; [exact Hs'|done].
    - eapply (indexed_siblings_disjoint children (item_data c) c Hnd Hfind);
        [exact Hs|exact Hskey|exact HNc]. }
  destruct HN0 as (HN0i & HN0s & HN0k). destruct HN1 as (HN1i & HN1s & HN1k).
  specialize (HN0k eq_refl). specialize (HN1k eq_refl).
  unfold after_child_addData. cbn [item_children item_data set_children this].
  destruct (addChild_ready true (S h) fuel mt
              (Node cls data radius dtp (map_erase (item_data c) children))
              N0 (d data (item_data N0)) seed)
    as (this1 & Hadd1 & Hinv1 & Hdata1 & Hdtp1 & Hcls1 & _ & Hch1 & Hidx1); try done.
  { by apply inv_erase. }
  { cbn [item_children]. apply Hnew; [done|]. intros y Hy. rewrite <- Hidx.
    apply elem_of_app. by left. }
  { apply (metric_sym d Hd). }
  rewrite Hadd1. cbn [item_data] in Hdata1.
  destruct (addChild_ready true (S h) fuel mt this1 N1 (d data (item_data N1)) seed)
    as (this2 & Hadd2 & Hinv2 & Hdata2 & Hdtp2 & Hcls2 & _ & Hch2 & Hidx2); try done.
  { rewrite Hch1. cbn [fmap list_fmap fst]. apply not_elem_of_cons. split; [done|].
    apply Hnew; [done|]. intros y Hy. rewrite <- Hidx. apply elem_of_app. by right. }
  { rewrite Hdata1. apply (metric_sym d Hd). }
  rewrite Hadd2. exists this2. split; [done|]. unfold grown, this.
  split; [done|]. split.
  { rewrite Hidx2, Hidx1, !indexed_node.
    rewrite (indexed_in_perm _ _ Hperm), indexed_in_cons. cbn [snd].
    rewrite (Permutation_app_comm (indexed N1)), <- app_assoc.
    rewrite (Permutation_app_comm _ (indexed N1)), app_assoc, Hidx. done. }
  split; [by rewrite Hdata2, Hdata1|]. split; [by rewrite Hdtp2, Hdtp1|].
  split; [intros cls' Hcls'; by apply Hcls2, Hcls1|].
  rewrite (Permutation_length Hch2). cbn [length].
  rewrite (Permutation_length Hch1). cbn [length item_children].
  rewrite (Permutation_length Hperm). cbn [length]. lia.
Qed.

End AddData.

Section AddDataSpec.

Variable rand_stream : nat -> Z.
Variable d : Data -> Data -> Z.
Hypothesis Hd : metric d.

Lemma NoDup_indexed_child (children : ChildrenMap) k c :
  NoDup (indexed_in children) -> (k, c) ∈ children -> NoDup (indexed c).
Proof.
  intros Hnd Hin. apply elem_of_Permutation in Hin as (m & Hm).
  rewrite (indexed_in_perm _ _ Hm), indexed_in_cons in Hnd.
  by apply NoDup_app in Hnd as (? & _).
Qed.

Lemma doAddData_spec h :
  (forall h', h = S h' ->
   forall fuel mt this x seed,
     (2 * h' + 6 <= fuel)%nat -> 3 <= maxNodeCapacity mt ->
     inv d true (S h') this -> NoDup (indexed this) -> x ∉ indexed this ->
     (2 <= length (item_children this))%nat ->
     exists this' sig seed',
       addData rand_stream d fuel mt this x (d (item_data this) x) seed
         = Some (this', sig, seed')
       /\ ((sig = Normal /\ grown d h' this this' x)
           \/ (exists N0 N1, sig = SplitNodeReplacement N0 N1
                             /\ halves d h' this N0 N1 x))) ->
  forall fuel mt this x seed,
    (2 * h + 5 <= fuel)%nat -> 3 <= maxNodeCapacity mt ->
    inv d true (S h) this -> NoDup (indexed this) -> x ∉ indexed this ->
    (h <> O -> item_children this <> []) ->
    exists this' seed',
      doAddData rand_stream d fuel mt this x (d (item_data this) x) seed
        = Some (this', seed')
      /\ grown d h this this' x.
Proof.
  intros IH fuel mt this x seed Hfuel Hmax Hinv Hnd Hx Hne.
  destruct fuel as [|fuel]; [lia|].
  destruct this as [|cls data radius dtp children]; [done|].
  rewrite doAddData_unfold. cbn [item_data item_children] in *.
  pose proof Hinv as (Hleaf & Hkeys & Hall & Hcov).
  rewrite indexed_node in Hnd, Hx.
  destruct h as [|h].
  - (* a leaf *)
    rewrite Hleaf. cbn [bool_decide decide_rel]. rewrite bool_decide_eq_true_2 by done.
    assert (x ∉ children.*1) as Hfresh.
    { intros Hk. apply Hx. by eapply leaf_keys_indexed. }
    rewrite (proj2 (map_find_None x children) Hfresh).
    destruct (store_child_inv d Hd true 0 cls data radius dtp children
                (new_entry x) (d data x))
      as (radius' & children' & Hstore & _ & Hperm & Hinv'); try done.
    { intros _. apply list_elem_of_here. }
    { apply (metric_sym d Hd). }
    rewrite Hstore. eexists _, _. split; [reflexivity|].
    split; [done|]. split.
    { rewrite !indexed_node, (indexed_in_perm _ _ Hperm). done. }
    cbn [item_data item_distanceToParent item_children].
    do 3 (split; [done|]). rewrite (Permutation_length Hperm). simpl. lia.
  - (* an internal node *)
    rewrite Hleaf. rewrite bool_decide_eq_false_2 by done.
    destruct (choose_child_spec d x children) as
      (chosen & c & Hchoose & Hnode & Hdist & Hin & _); [by apply Hne| |].
    { eapply Forall_impl; [exact Hall|]. intros kv (Hi & _).
      by rewrite (inv_is_entry d _ _ _ Hi). }
    rewrite Hchoose, Hnode, Hdist.
    apply list_elem_of_fmap in Hin as ([k c'] & Hc & Hin). cbn [snd] in Hc. subst c'.
    pose proof (keys_ok_elem _ _ _ Hkeys Hin) as Hk. subst k.
    rewrite Forall_forall in Hall.
    destruct (Hall _ Hin) as (Hci & Hcdtp & Hcshape & Hckey). cbn [snd] in *.
    destruct (IH h eq_refl fuel mt c x seed) as (c' & sig & seed' & Hadd & Hres);
      try done; try lia.
    { by eapply NoDup_indexed_child. }
    { intros Hxc. apply Hx. by eapply elem_of_indexed_in. }
    { by destruct Hcshape. }
    rewrite Hadd. destruct Hres as [[-> Hgrown]|(N0 & N1 & -> & Hhalves)].
    + eexists _, _. split; [reflexivity|].
      by apply (child_grown_inv d Hd h cls data radius dtp children c c' x).
    + destruct (child_split_inv rand_stream d Hd h (S fuel) mt cls data radius dtp
                  children c c' N0 N1 x seed') as (this' & Hafter & Hgrown);
        try done; try lia.
      * by rewrite indexed_node.
      * by rewrite indexed_node.
      * exists this', seed'. done.
Qed.

Lemma addData_spec h :
  forall fuel mt this x seed,
    (2 * h + 6 <= fuel)%nat -> 3 <= maxNodeCapacity mt ->
    inv d true (S h) this -> NoDup (indexed this) -> x ∉ indexed this ->
    (h <> O -> item_children this <> []) ->
    exists this' sig seed',
      addData rand_stream d fuel mt this x (d (item_data this) x) seed
        = Some (this', sig, seed')
      /\ ((sig = Normal /\ grown d h this this' x)
          \/ (exists N0 N1, sig = SplitNodeReplacement N0 N1
                            /\ halves d h this N0 N1 x)).
Proof.
  induction h as [|h IH]; intros fuel mt this x seed Hfuel Hmax Hinv Hnd Hx Hne.
  - destruct fuel as [|fuel]; [lia|]. rewrite addData_unfold.
    destruct (doAddData_spec 0) with (fuel := fuel) (mt := mt) (this := this)
      (x := x) (seed := seed) as (this1 & seed1 & Hdo & Hgrown); try done; try lia.
    rewrite Hdo. clear Hdo.
    destruct Hgrown as (Hinv1 & Hidx1 & Hgrown).
    destruct this1 as [|cls1 data1 radius1 dtp1 children1]; [done|].
    destruct (Z_le_gt_dec (map_size children1) (maxNodeCapacity mt)) as [Hfit|Hover].
    + rewrite checkMaxCapacity_fits by (done || lia).
      eexists _, _, _. split; [reflexivity|]. left. done.
    + destruct (checkMaxCapacity_splits rand_stream d Hd 0 (S fuel) mt cls1 data1
                  radius1 dtp1 children1 seed1)
        as (this' & N0 & N1 & seed' & Hcheck & HN0 & HN1 & Hidx & Hne');
        try done; try lia.
      rewrite Hcheck. eexists _, _, _. split; [reflexivity|]. right.
      exists N0, N1. split; [done|]. split; [done|]. split; [done|].
      split; [|done]. by rewrite Hidx, <- (indexed_node cls1 data1 radius1 dtp1), Hidx1.
  - destruct fuel as [|fuel]; [lia|]. rewrite addData_unfold.
    destruct (doAddData_spec (S h)) with (fuel := fuel) (mt := mt) (this := this)
      (x := x) (seed := seed) as (this1 & seed1 & Hdo & Hgrown); try done; try lia.
    { intros h' [= <-] fuel' mt' c x' seed' Hf Hm Hi Hn Hx' Hlen.
      apply IH; try done; try lia.
      intros _ Hnil. rewrite Hnil in Hlen. simpl in Hlen. lia. }
    rewrite Hdo. clear Hdo.
    destruct Hgrown as (Hinv1 & Hidx1 & Hgrown).
    destruct this1 as [|cls1 data1 radius1 dtp1 children1]; [done|].
    destruct (Z_le_gt_dec (map_size children1) (maxNodeCapacity mt)) as [Hfit|Hover].
    + rewrite checkMaxCapacity_fits by (done || lia).
      eexists _, _, _. split; [reflexivity|]. left. done.
    + destruct (checkMaxCapacity_splits rand_stream d Hd (S h) (S fuel) mt cls1 data1
                  radius1 dtp1 children1 seed1)
        as (this' & N0 & N1 & seed' & Hcheck & HN0 & HN1 & Hidx & Hne');
        try done; try lia.
      rewrite Hcheck. eexists _, _, _. split; [reflexivity|]. right.
      exists N0, N1. split; [done|]. split; [done|]. split; [done|].
      split; [|done]. by rewrite Hidx, <- (indexed_node cls1 data1 radius1 dtp1), Hidx1.
Qed.

End AddDataSpec.

Section AddSpec.

Variable rand_stream : nat -> Z.
Variable d : Data -> Data -> Z.
Hypothesis Hd : metric d.

Lemma fresh_node_inv keyed h cls p :
  is_leaf_class cls = bool_decide (h = O) ->
  inv d keyed (S h) (new_node cls p).
Proof.
  intros Hleaf. unfold new_node. cbn [inv]. split; [done|].
  split; [split; constructor|]. split; [constructor|].
  intros x Hx. by apply elem_of_nil in Hx.
Qed.

Lemma length_indexed_in (m : ChildrenMap) (n : nat) :
  Forall (fun kv => (n <= length (indexed kv.2))%nat) m ->
  (length m * n <= length (indexed_in m))%nat.
Proof.
  induction 1 as [|kv m Hkv _ IH]; [done|].
  rewrite indexed_in_cons, length_app. cbn [length]. lia.
Qed.

(** A subtree of height [h] indexes more than [h] objects. *)
Lemma height_lt_indexed keyed h c :
  inv d keyed h c -> child_shape h c -> (h + 1 <= length (indexed c))%nat.
Proof.
  revert c. induction h as [|h IH]; intros c Hinv Hshape.
  - destruct c; [simpl; lia|done].
  - destruct c as [|cls data radius dtp children]; [done|].
    destruct Hinv as (_ & _ & Hall & _). destruct Hshape as (_ & Hlen).
    cbn [item_children] in Hlen. rewrite indexed_node.
    pose proof (length_indexed_in children (h + 1)) as Hsum.
    assert ((length children * (h + 1) <= length (indexed_in children))%nat); [|nia].
    apply Hsum. eapply Forall_impl; [exact Hall|].
    intros kv (Hi & _ & Hs & _). by apply IH.
Qed.

Lemma root_height_lt_indexed keyed h r :
  root_ok d keyed h r -> (h + 1 <= length (indexed r))%nat.
Proof.
  intros (Hinv & _ & Hlen & _).
  destruct r as [|cls data radius dtp children]; [done|].
  destruct Hinv as (_ & _ & Hall & _). cbn [item_children] in Hlen.
  rewrite indexed_node.
  assert ((length children * (h + 1) <= length (indexed_in children))%nat); [|nia].
  apply length_indexed_in. eapply Forall_impl; [exact Hall|].
  intros kv (Hi & _ & Hs & _). by eapply height_lt_indexed.
Qed.

(** [add] into the empty tree. *)
Lemma add_first fuel mt x seed :
  (6 <= fuel)%nat -> 3 <= maxNodeCapacity mt -> root mt = None ->
  exists r,
    add rand_stream d fuel mt x seed
      = Some (mk_mtree (minNodeCapacity mt) (maxNodeCapacity mt) (Some r), seed)
    /\ root_ok d true 0 r /\ indexed r = [x].
Proof.
  intros Hfuel Hmax Hroot. unfold add. rewrite Hroot.
  destruct fuel as [|[|fuel]]; try lia.
  unfold new_node. rewrite addData_unfold, doAddData_unfold. cbn [is_leaf_class map_find].
  unfold store_child. cbn [item_data new_entry set_distanceToParent map_set
    item_radius item_distanceToParent item_children set_children updateRadius].
  rewrite checkMaxCapacity_fits; [|lia|unfold map_size; simpl; lia].
  eexists. split; [reflexivity|]. split; [|done].
  split; [|done]. cbn [inv]. split; [done|]. split.
  { split; [repeat constructor|]. by repeat constructor. }
  split.
  { repeat constructor; try done. simpl. by rewrite (metric_refl d Hd). }
  intros y Hy. rewrite indexed_in_cons in Hy. simpl in Hy.
  apply list_elem_of_singleton in Hy as ->. rewrite (metric_refl d Hd). lia.
Qed.

(** [add] into a tree that does not index [x] yet. *)
Lemma add_next h fuel mt r x seed :
  (2 * h + 6 <= fuel)%nat -> 3 <= maxNodeCapacity mt ->
  root mt = Some r -> root_ok d true h r ->
  NoDup (indexed r) -> x ∉ indexed r ->
  exists r' seed' h',
    add rand_stream d fuel mt x seed
      = Some (mk_mtree (minNodeCapacity mt) (maxNodeCapacity mt) (Some r'), seed')
    /\ root_ok d true h' r' /\ indexed r' ≡ₚ x :: indexed r.
Proof.
  intros Hfuel Hmax Hroot (Hinv & Hcls & Hlen1 & Hlen2) Hnd Hx.
  unfold add. rewrite Hroot. cbn zeta. rewrite (metric_sym d Hd x).
  destruct (addData_spec rand_stream d Hd h fuel mt r x seed)
    as (r1 & sig & seed1 & Hadd & Hres); try done.
  { intros Hh Hnil. specialize (Hlen2 Hh). rewrite Hnil in Hlen2. simpl in Hlen2. lia. }
  rewrite Hadd. destruct Hres as [[-> Hgrown]|(N0 & N1 & -> & Hhalves)].
  - destruct Hgrown as (Hinv1 & Hidx & _ & _ & Hcls1 & Hlen).
    exists r1, seed1, h. split; [done|]. split; [|done].
    split; [done|]. split; [by apply Hcls1|]. split; [lia|].
    intros Hh. specialize (Hlen2 Hh). lia.
  - destruct Hhalves as (HN0 & HN1 & Hidx & Hne).
    set (newRoot := new_node RootNode (item_data r)).
    assert (inv d true (S (S h)) newRoot) as HnewRoot by (by apply fresh_node_inv).
    destruct (addChild_ready rand_stream d Hd true (S h) fuel mt newRoot N0
                (d (item_data newRoot) (item_data N0)) seed1)
      as (root1 & Hadd1 & Hinv1 & Hdata1 & _ & Hcls1 & _ & Hch1 & Hidx1);
      try done; try lia.
    { cbn. apply not_elem_of_nil. }
    { apply (metric_sym d Hd). }
    rewrite Hadd1.
    destruct (addChild_ready rand_stream d Hd true (S h) fuel mt root1 N1
                (d (item_data root1) (item_data N1)) seed1)
      as (root2 & Hadd2 & Hinv2 & Hdata2 & _ & Hcls2 & _ & Hch2 & Hidx2);
      try done; try lia.
    { rewrite Hch1. cbn. intros Hin. apply list_elem_of_singleton in Hin. done. }
    { apply (metric_sym d Hd). }
    rewrite Hadd2. exists root2, seed1, (S h). split; [done|]. split.
    + split; [done|]. split; [by apply Hcls2, Hcls1|].
      rewrite (Permutation_length Hch2). cbn [length]. split; [lia|].
      intros _. rewrite (Permutation_length Hch1). cbn [length]. lia.
    + rewrite Hidx2, Hidx1. unfold newRoot, new_node. rewrite indexed_node.
      cbn. rewrite app_nil_r, <- Hidx. apply Permutation_app_comm.
Qed.

End AddSpec.

Lemma keys_at_S n i : keys_at (S n) i = keys_in n (item_children i).
Proof. done. Qed.

Lemma keys_in_perm n m1 m2 : m1 ≡ₚ m2 -> keys_in n m1 ≡ₚ keys_in n m2.
Proof. intros H. unfold keys_in. by rewrite H. Qed.

Lemma keys_in_cons n kv m : keys_in n (kv :: m) = keys_at n kv.2 ++ keys_in n m.
Proof. done. Qed.

Lemma keys_in_0 m : keys_ok m -> keys_in 0 m = m.*1.
Proof.
  intros [_ Hd]. induction Hd as [|kv m Hkv _ IH]; [done|].
  rewrite keys_in_cons, fmap_cons, IH. simpl. by rewrite Hkv.
Qed.

Lemma NoDup_bind_sub {A} (m : list A) (f g : A -> list Data) :
  (forall a, a ∈ m -> NoDup (g a) /\ g a ⊆ f a) ->
  NoDup (m ≫= f) -> NoDup (m ≫= g) /\ (m ≫= g) ⊆ (m ≫= f).
Proof.
  induction m as [|a m IH]; intros Hg Hnd; [done|].
  rewrite !bind_cons in *. apply NoDup_app in Hnd as (Hfa & Hdisj & Hrest).
  destruct (Hg a) as [Hga Hsub]; [apply list_elem_of_here|].
  destruct IH as [IH1 IH2]; [|done|].
  { intros b Hb. apply Hg. by apply list_elem_of_further. }
  split.
  - apply NoDup_app. split; [done|]. split; [|done].
    intros x Hx Hx'. apply (Hdisj x); [by apply Hsub|by apply IH2].
  - intros x Hx. apply elem_of_app in Hx as [Hx|Hx]; apply elem_of_app.
    + left. by apply Hsub.
    + right. by apply IH2.
Qed.

Section Levels.

Variable d : Data -> Data -> Z.
Hypothesis Hd : metric d.

(** At the level of the entries the keys are the indexed objects. *)
Lemma indexed_keys_at keyed h i : inv d keyed h i -> indexed i = keys_at h i.
Proof.
  revert i. induction h as [|h IH]; intros i Hinv.
  - by destruct i.
  - destruct i as [|cls data radius dtp children]; [done|].
    destruct Hinv as (_ & _ & Hall & _). rewrite indexed_node, keys_at_S.
    cbn [item_children]. induction Hall as [|kv m Hkv _ IHm]; [done|].
    rewrite indexed_in_cons, keys_in_cons, IHm. f_equal. apply IH, Hkv.
Qed.

Lemma keyed_keys_in n :
  forall h (m : ChildrenMap),
    Forall (fun kv => inv d true h kv.2 /\ item_data kv.2 ∈ indexed kv.2) m ->
    NoDup (indexed_in m) ->
    NoDup (keys_in n m) /\ keys_in n m ⊆ indexed_in m.
Proof.
  induction n as [|n IH]; intros h m Hall Hnd; apply NoDup_bind_sub; try done;
    intros [k c] Hin; rewrite Forall_forall in Hall;
    destruct (Hall _ Hin) as [Hinv Hkey]; cbn [snd] in *.
  - split; [apply NoDup_singleton|]. intros x Hx.
    apply list_elem_of_singleton in Hx as ->. done.
  - rewrite keys_at_S. destruct h as [|h].
    { destruct c; [|done]. split; [apply NoDup_nil_2|]. intros x Hx.
      by apply elem_of_nil in Hx. }
    destruct c as [|cls data radius dtp children]; [done|].
    rewrite indexed_node. cbn [item_children]. apply (IH h).
    + destruct Hinv as (_ & _ & Hch & _). eapply Forall_impl; [exact Hch|].
      intros kv (? & _ & _ & Hk). split; [done|by apply Hk].
    + rewrite <- (indexed_node cls data radius dtp).
      by eapply NoDup_indexed_child.
Qed.

(** A tree built by insertions alone has distinct keys on every level. *)
Lemma keyed_level_distinct h r :
  inv d true (S h) r -> NoDup (indexed r) -> level_distinct r.
Proof.
  intros Hinv Hnd n. rewrite keys_at_S.
  destruct r as [|cls data radius dtp children]; [done|].
  rewrite indexed_node in Hnd. cbn [item_children].
  apply (keyed_keys_in n h); [|done].
  destruct Hinv as (_ & _ & Hch & _). eapply Forall_impl; [exact Hch|].
  intros kv (? & _ & _ & Hk). split; [done|by apply Hk].
Qed.

Lemma level_distinct_indexed keyed h r :
  inv d keyed (S h) r -> level_distinct r -> NoDup (indexed r).
Proof. intros Hinv Hl. rewrite (indexed_keys_at _ _ _ Hinv). apply Hl. Qed.

Lemma level_distinct_child r k c :
  level_distinct r -> (k, c) ∈ item_children r -> level_distinct c.
Proof.
  intros Hl Hin n. specialize (Hl (S n)). rewrite keys_at_S in Hl.
  apply elem_of_Permutation in Hin as (m & Hm).
  rewrite (keys_in_perm _ _ _ Hm), keys_in_cons in Hl.
  by apply NoDup_app in Hl as (? & _).
Qed.

End Levels.

Section RemoveAbsent.

Variable rand_stream : nat -> Z.
Variable d : Data -> Data -> Z.
Hypothesis Hd : metric d.

Lemma removeData_unfold fuel mt this data distance seed :
  removeData rand_stream d (S fuel) mt this data distance seed
  = let base :=
      Node_removeData mt (doRemoveData rand_stream d fuel mt this data distance seed) in
    match this with
    | Entry _ _ _ => None
    | Node RootLeafNode _ _ _ _ =>
        match base with
        | Some (this', NodeUnderCapacity, seed') =>
            match item_children this' with
            | [] => Some (this', RootNodeReplacement None, seed')
            | _ :: _ => None
            end
        | other => other
        end
    | Node RootNode _ _ _ _ =>
        match base with
        | Some (this', NodeUnderCapacity, seed') =>
            promote_only_child rand_stream d (S fuel) mt this' seed'
        | other => other
        end
    | Node _ _ _ _ _ => base
    end.
Proof. reflexivity. Qed.

Lemma doRemoveData_unfold fuel mt cls data0 radius dtp children data distance seed :
  doRemoveData rand_stream d (S fuel) mt (Node cls data0 radius dtp children)
    data distance seed
  = if is_leaf_class cls then
      match map_find data children with
      | None => Some (Node cls data0 radius dtp children, DataNotFound data, seed)
      | Some _ =>
          Some (set_children (Node cls data0 radius dtp children)
                  (map_erase data children), Normal, seed)
      end
    else
      try_children d (removeData rand_stream d fuel mt)
        (balanceChildren rand_stream d fuel mt)
        data distance (Node cls data0 radius dtp children) children seed.
Proof. reflexivity. Qed.

(** A loop over children none of which holds [x] leaves the node as it was. *)
Lemma try_children_absent rm balance x distance this (l : ChildrenMap) seed :
  keys_ok (item_children this) ->
  (forall kv, kv ∈ l ->
     kv ∈ item_children this /\ is_entry kv.2 = false
     /\ forall dist seed', rm kv.2 x dist seed' = Some (kv.2, DataNotFound x, seed')) ->
  try_children d rm balance x distance this l seed
  = Some (this, DataNotFound x, seed).
Proof.
  intros Hkeys. induction l as [|[k c] l IH]; intros Hl; [done|].
  destruct (Hl (k, c)) as (Hin & Hentry & Hrm); [apply list_elem_of_here|].
  cbn [snd] in *. cbn [try_children]. rewrite Hentry.
  assert (try_children d rm balance x distance this l seed
          = Some (this, DataNotFound x, seed)) as Hrest.
  { apply IH. intros kv Hkv. apply Hl. by apply list_elem_of_further. }
  destruct (_ <=? _); [|done]. destruct (_ <=? _); [|done].
  rewrite Hrm.
  pose proof (keys_ok_elem _ _ _ Hkeys Hin) as Hk.
  rewrite (map_set_id (item_data c) c (item_children this)).
  - destruct this; [|done]. cbn [item_children] in Hin.
    by apply elem_of_nil in Hin.
  - apply Hkeys.
  - apply map_find_Some; [apply Hkeys|]. by rewrite Hk.
Qed.

(** [removeData] of an object the subtree does not index. *)
Lemma removeData_absent keyed h :
  forall fuel mt this x distance seed,
    (2 * h + 2 <= fuel)%nat ->
    inv d keyed (S h) this -> x ∉ indexed this ->
    removeData rand_stream d fuel mt this x distance seed
    = Some (this, DataNotFound x, seed).
Proof.
  induction h as [|h IH]; intros fuel mt this x distance seed Hfuel Hinv Hx.
  - destruct fuel as [|[|fuel]]; try lia.
    destruct this as [|cls data radius dtp children]; [done|].
    rewrite removeData_unfold, doRemoveData_unfold.
    pose proof Hinv as (Hleaf & _). rewrite Hleaf. cbn [bool_decide decide_rel].
    rewrite bool_decide_eq_true_2 by done.
    assert (map_find x children = None) as ->.
    { apply map_find_None. intros Hk. apply Hx. rewrite indexed_node.
      by eapply leaf_keys_indexed. }
    by destruct cls.
  - destruct fuel as [|[|fuel]]; try lia.
    destruct this as [|cls data radius dtp children]; [done|].
    rewrite removeData_unfold, doRemoveData_unfold.
    pose proof Hinv as (Hleaf & Hkeys & Hall & _). rewrite Hleaf.
    rewrite bool_decide_eq_false_2 by done.
    rewrite try_children_absent; [by destruct cls|done|].
    intros [k c] Hin. split; [done|]. rewrite Forall_forall in Hall.
    destruct (Hall _ Hin) as (Hc & _). cbn [snd] in *.
    split; [by rewrite (inv_is_entry d _ _ _ Hc)|].
    intros dist seed'. apply IH; [lia|done|].
    intros Hxc. apply Hx. rewrite indexed_node. by eapply elem_of_indexed_in.
Qed.

End RemoveAbsent.

Lemma retag_keys dist l : (retag dist l).*1 = l.*1.
Proof. unfold retag. rewrite <- list_fmap_compose. done. Qed.

Lemma retag_indexed dist l : indexed_in (retag dist l) = indexed_in l.
Proof.
  induction l as [|kv l IH]; [done|]. unfold retag in *. rewrite fmap_cons.
  rewrite !indexed_in_cons, IH. cbn [snd]. by rewrite indexed_set_dtp.
Qed.

Lemma retag_keys_in n dist l : keys_in n (retag dist l) = keys_in n l.
Proof.
  induction l as [|kv l IH]; [done|]. unfold retag in *. rewrite fmap_cons.
  rewrite !keys_in_cons, IH. cbn [snd]. by rewrite keys_at_set_dtp.
Qed.

Lemma retag_length dist l : length (retag dist l) = length l.
Proof. unfold retag. by rewrite length_fmap. Qed.

Lemma map_erase_of_perm k v (m m' : ChildrenMap) :
  StronglySorted Z.lt m.*1 -> m ≡ₚ (k, v) :: m' -> map_erase k m ≡ₚ m'.
Proof.
  intros Hs Hperm. apply (Permutation_cons_inv (a := (k, v))).
  rewrite <- Hperm. symmetry. apply map_erase_perm, map_find_Some; [done|].
  rewrite Hperm. apply list_elem_of_here.
Qed.

Section AddChildren.

Variable rand_stream : nat -> Z.
Variable d : Data -> Data -> Z.
Hypothesis Hd : metric d.

(** [addChild] of every child of a list whose keys are new to the node. *)
Lemma addChildren_spec keyed h fuel mt dist (l : ChildrenMap) :
  forall this seed,
    (3 <= fuel)%nat ->
    inv d keyed (S h) this ->
    keys_ok l -> Forall (fun kv => child_ready d keyed h kv.2) l ->
    (forall k, k ∈ l.*1 -> k ∉ (item_children this).*1) ->
    (forall c, dist c = d (item_data c) (item_data this)) ->
    exists this',
      addChildren rand_stream d fuel mt this dist l seed = Some (this', seed)
      /\ inv d keyed (S h) this'
      /\ item_data this' = item_data this
      /\ item_distanceToParent this' = item_distanceToParent this
      /\ (forall cls, item_class_is cls this -> item_class_is cls this')
      /\ item_children this' ≡ₚ retag dist l ++ item_children this.
Proof.
  induction l as [|[k c] l IH]; intros this seed Hfuel Hinv Hkeys Hall Hfresh Hdist.
  { exists this. done. }
  destruct Hkeys as [Hsorted Hdata]. rewrite fmap_cons in Hsorted.
  apply Forall_cons in Hdata as [Hk Hdata]. apply Forall_cons in Hall as [Hc Hall].
  cbn [fst snd] in *.
  pose proof (sorted_head_notin _ _ Hsorted) as Hkl.
  apply StronglySorted_inv in Hsorted as [Hsorted _].
  cbn [addChildren].
  destruct (addChild_ready rand_stream d Hd keyed h fuel mt this c (dist c) seed)
    as (this1 & Hadd & Hinv1 & Hdata1 & Hdtp1 & Hcls1 & _ & Hch1 & _); try done.
  { rewrite Hk. apply Hfresh. rewrite fmap_cons. apply list_elem_of_here. }
  rewrite Hadd.
  destruct (IH this1 seed) as (this2 & Hadd2 & Hinv2 & Hdata2 & Hdtp2 & Hcls2 & Hch2);
    try done.
  { intros k' Hk'. rewrite Hch1, fmap_cons. cbn [fst]. rewrite Hk.
    apply not_elem_of_cons. split; [by intros ->|].
    apply Hfresh. rewrite fmap_cons. by apply list_elem_of_further. }
  { intros c'. by rewrite Hdata1. }
  exists this2. split; [done|]. split; [done|].
  split; [congruence|]. split; [congruence|]. split; [auto|].
  rewrite Hch2, Hch1. unfold retag. rewrite fmap_cons. cbn [fst snd]. rewrite Hk.
  by rewrite <- Permutation_middle.
Qed.

End AddChildren.

Section Scans.

Variable d : Data -> Data -> Z.

(** The grandchild found by the donation loop. *)
Lemma scan_grandchildren_spec theChild (P : IndexItem -> Z -> Prop) :
  forall (l : ChildrenMap) ng nd,
    (forall k g, (k, g) ∈ l -> P g (d (item_data g) (item_data theChild))) ->
    (ng = None /\ nd = Infty /\ l <> [])
    \/ (exists g z, ng = Some g /\ nd = Fin z /\ P g z) ->
    exists g z, scan_grandchildren d theChild l ng nd = (Some g, Fin z) /\ P g z.
Proof.
  induction l as [|[k g] l IH]; intros ng nd HP Hacc.
  { destruct Hacc as [(_ & _ & ?)|(g & z & -> & -> & Hg)]; [done|].
    by exists g, z. }
  cbn [scan_grandchildren snd].
  assert (forall k' g', (k', g') ∈ l ->
            P g' (d (item_data g') (item_data theChild))) as HP'.
  { intros k' g' Hin. apply (HP k'). by apply list_elem_of_further. }
  assert (P g (d (item_data g) (item_data theChild))) as Hg.
  { apply (HP k). apply list_elem_of_here. }
  destruct (lt_x _ nd) eqn:Hlt.
  - apply IH; [done|]. right. by eexists _, _.
  - apply IH; [done|]. right.
    destruct Hacc as [(_ & -> & _)|Hacc]; [done|done].
Qed.

Lemma scan_siblings_spec mt theChild (all : ChildrenMap) :
  forall (l : ChildrenMap) dn dd mc dm,
    (forall kv, kv ∈ l -> kv ∈ all /\ is_entry kv.2 = false) ->
    match dn with
    | None => dd = Infty
    | Some s => sibling_of mt theChild all true s
    end ->
    match mc with
    | None => dm = Infty
    | Some s => sibling_of mt theChild all false s
    end ->
    exists dn' mc',
      scan_siblings d mt theChild l dn dd mc dm = Some (dn', mc')
      /\ match dn' with
         | None => dn = None
         | Some s => sibling_of mt theChild all true s
         end
      /\ match mc' with
         | None => mc = None
         | Some s => sibling_of mt theChild all false s
         end
      /\ (dn' = None -> mc' = None ->
          forall kv, kv ∈ l -> item_data kv.2 = item_data theChild).
Proof.
  induction l as [|[k s] l IH]; intros dn dd mc dm Hl Hdn Hmc.
  { exists dn, mc. split; [done|]. split; [by destruct dn|].
    split; [by destruct mc|]. intros _ _ kv Hkv. by apply elem_of_nil in Hkv. }
  destruct (Hl (k, s)) as [Hin Hentry]; [apply list_elem_of_here|].
  assert (forall kv, kv ∈ l -> kv ∈ all /\ is_entry kv.2 = false) as Hl'.
  { intros kv Hkv. apply Hl. by apply list_elem_of_further. }
  cbn [snd] in *. destruct s as [|acls adata ar ap ach]; [done|].
  cbn [scan_siblings].
  destruct (Z.eqb_spec adata (item_data theChild)) as [Heq|Hne].
  { destruct (IH dn dd mc dm Hl' Hdn Hmc) as (dn' & mc' & Hscan & H1 & H2 & H3).
    exists dn', mc'. do 3 (split; [done|]). intros E1 E2 kv Hkv.
    apply elem_of_cons in Hkv as [->|Hkv]; [done|by apply H3]. }
  assert (forall b, b = (map_size ach >? getMinCapacity mt acls) ->
            sibling_of mt theChild all b (Node acls adata ar ap ach)) as Hsib.
  { intros b Hb. exists k. done. }
  destruct (map_size ach >? getMinCapacity mt acls) eqn:Hsize.
  - destruct (lt_x _ dd) eqn:Hlt.
    + destruct (IH (Some (Node acls adata ar ap ach))
                  (Fin (d (item_data theChild) adata)) mc dm Hl')
        as (dn' & mc' & Hscan & H1 & H2 & H3); [by apply Hsib|done|].
      exists dn', mc'. split; [done|]. split; [by destruct dn'|].
      split; [done|]. intros E1. by subst dn'.
    + destruct dd as [z|]; [|done]. destruct dn as [s0|]; [|done].
      destruct (IH (Some s0) (Fin z) mc dm Hl' Hdn Hmc)
        as (dn' & mc' & Hscan & H1 & H2 & H3).
      exists dn', mc'. do 2 (split; [done|]).
      split; [done|]. intros E1. by subst dn'.
  - destruct (lt_x _ dm) eqn:Hlt.
    + destruct (IH dn dd (Some (Node acls adata ar ap ach))
                  (Fin (d (item_data theChild) adata)) Hl')
        as (dn' & mc' & Hscan & H1 & H2 & H3); [done|by apply Hsib|].
      exists dn', mc'. do 2 (split; [done|]). split; [by destruct mc'|].
      intros _ E2. by subst mc'.
    + destruct dm as [z|]; [|done]. destruct mc as [s0|]; [|done].
      destruct (IH dn dd (Some s0) (Fin z) Hl' Hdn Hmc)
        as (dn' & mc' & Hscan & H1 & H2 & H3).
      exists dn', mc'. do 3 (split; [done|]). intros _ E2. by subst mc'.
Qed.

End Scans.

Lemma two_elements {A} (a b : A) (l : list A) :
  a ∈ l -> b ∈ l -> a <> b -> exists rest, l ≡ₚ a :: b :: rest.
Proof.
  intros Ha Hb Hne. apply elem_of_Permutation in Ha as (l1 & Hl1).
  rewrite Hl1 in Hb. apply elem_of_cons in Hb as [->|Hb]; [done|].
  apply elem_of_Permutation in Hb as (rest & Hrest).
  exists rest. by rewrite Hl1, Hrest.
Qed.

Lemma map_erase_length k v (m : ChildrenMap) :
  map_find k m = Some v -> length m = S (length (map_erase k m)).
Proof. intros H. by rewrite (Permutation_length (map_erase_perm _ _ _ H)). Qed.

Lemma getMinCapacity_nonroot mt h cls :
  cls = class_at false h -> getMinCapacity mt cls = minNodeCapacity mt.
Proof. intros ->. by destruct h. Qed.

Section Balance.

Variable rand_stream : nat -> Z.
Variable d : Data -> Data -> Z.
Hypothesis Hd : metric d.

(** Two children replaced in a children map. *)
Lemma map_set_two kT kS (T T' S S' : IndexItem) (children rest : ChildrenMap) :
  StronglySorted Z.lt children.*1 ->
  children ≡ₚ (kT, T) :: (kS, S) :: rest ->
  map_set kT T' (map_set kS S' children) ≡ₚ (kT, T') :: (kS, S') :: rest.
Proof.
  intros Hs Hperm.
  assert (map_set kS S' children ≡ₚ (kS, S') :: (kT, T) :: rest) as H1.
  { rewrite map_set_perm_erase by done. apply Permutation_skip.
    apply (map_erase_of_perm kS S); [done|]. rewrite Hperm. apply Permutation_swap. }
  rewrite map_set_perm_erase by (by apply map_set_sorted).
  apply Permutation_skip. apply (map_erase_of_perm kT T); [by apply map_set_sorted|].
  rewrite H1. apply Permutation_swap.
Qed.

(** One child replaced and another erased. *)
Lemma map_set_erase kT kS (T S S' : IndexItem) (children rest : ChildrenMap) :
  StronglySorted Z.lt children.*1 ->
  children ≡ₚ (kT, T) :: (kS, S) :: rest ->
  map_erase kT (map_set kS S' children) ≡ₚ (kS, S') :: rest.
Proof.
  intros Hs Hperm. apply (map_erase_of_perm kT T); [by apply map_set_sorted|].
  rewrite map_set_perm_erase by done. rewrite Permutation_swap.
  apply Permutation_skip.
  apply (map_erase_of_perm kS S); [done|]. rewrite Hperm. apply Permutation_swap.
Qed.

Lemma keys_in_1 n (children : ChildrenMap) k c :
  (k, c) ∈ children -> keys_at n c ⊆ keys_in n children.
Proof.
  intros Hin x Hx. unfold keys_in. apply list_elem_of_bind. by exists (k, c).
Qed.

(** Children of two different nodes of one level have different keys. *)
Lemma cousins_distinct (children rest : ChildrenMap) kT kS T S k :
  NoDup (keys_in 1 children) ->
  children ≡ₚ (kT, T) :: (kS, S) :: rest ->
  keys_ok (item_children T) -> keys_ok (item_children S) ->
  k ∈ (item_children S).*1 -> k ∉ (item_children T).*1.
Proof.
  intros Hnd Hperm HT HS Hk HkT.
  rewrite (keys_in_perm _ _ _ Hperm), !keys_in_cons in Hnd. cbn [snd] in Hnd.
  rewrite !keys_at_S, !keys_in_0 in Hnd by done.
  apply NoDup_app in Hnd as (_ & Hdisj & _). apply (Hdisj k HkT).
  apply elem_of_app. by left.
Qed.

End Balance.

Section BalanceSpec.

Variable rand_stream : nat -> Z.
Variable d : Data -> Data -> Z.
Hypothesis Hd : metric d.

Lemma inv_node_intro h cls data radius radius' dtp (children children2 : ChildrenMap) :
  is_leaf_class cls = false ->
  keys_ok children2 ->
  Forall (fun kv => inv d false (S h) kv.2
                    /\ item_distanceToParent kv.2 = d (item_data kv.2) data
                    /\ item_class_is (class_at false h) kv.2
                    /\ (2 <= length (item_children kv.2))%nat) children2 ->
  (forall x, x ∈ indexed_in children -> d x data <= radius) ->
  indexed_in children2 ⊆ indexed_in children ->
  radius <= radius' ->
  inv d false (S (S h)) (Node cls data radius' dtp children2).
Proof.
  intros Hleaf Hkeys Hall Hcov Hsub Hle. cbn [inv]. split; [done|].
  split; [done|]. split.
  - eapply Forall_impl; [exact Hall|]. intros kv (? & ? & ? & ?). done.
  - intros x Hx. specialize (Hcov x (Hsub x Hx)). lia.
Qed.

Lemma balanceChildren_donate h fuel mt cls data radius dtp children rest
    kD theChild donor seed :
  (3 <= fuel)%nat -> 2 <= minNodeCapacity mt ->
  is_leaf_class cls = false -> keys_ok children ->
  children ≡ₚ (item_data theChild, theChild) :: (kD, donor) :: rest ->
  Forall (sibling_ok d h data (item_data theChild)) children ->
  (1 <= length (item_children theChild))%nat ->
  (minNodeCapacity mt < map_size (item_children donor)) ->
  (forall x, x ∈ indexed_in children -> d x data <= radius) ->
  NoDup (keys_in 1 children) ->
  exists theChild' children2,
    match scan_grandchildren d theChild (item_children donor) None Infty with
    | (Some nearestGrandchild, Fin nearestGrandchildDistance) =>
        let donor' :=
          set_children donor
            (map_erase (item_data nearestGrandchild) (item_children donor)) in
        match addChild rand_stream d fuel mt theChild
                nearestGrandchild nearestGrandchildDistance seed with
        | None => None
        | Some (theChild', seed') =>
            Some (set_children (Node cls data radius dtp children)
                    (map_set (item_data theChild') theChild'
                       (map_set (item_data donor') donor' children)),
                  theChild', seed')
        end
    | _ => None
    end = Some (Node cls data radius dtp children2, theChild', seed)
    /\ inv d false (S (S h))
         (updateRadius (Node cls data radius dtp children2) theChild')
    /\ (forall n, keys_in (S n) children2 ≡ₚ keys_in (S n) children)
    /\ keys_in 0 children2 ≡ₚ keys_in 0 children
    /\ indexed_in children2 ≡ₚ indexed_in children
    /\ length children2 = length children.
Proof.
  intros Hfuel Hmin Hleaf Hkeys Hperm Hall Hlen Hdonor Hcov Hnd.
  set (kT := item_data theChild) in *.
  assert ((kT, theChild) ∈ children) as HinT.
  { rewrite Hperm. apply list_elem_of_here. }
  assert ((kD, donor) ∈ children) as HinD.
  { rewrite Hperm. apply list_elem_of_further, list_elem_of_here. }
  pose proof (keys_ok_elem _ _ _ Hkeys HinD) as HkD.
  assert (kD <> kT) as Hne.
  { pose proof (keys_ok_NoDup _ Hkeys) as Hn. rewrite Hperm, !fmap_cons in Hn.
    cbn [fst] in Hn. apply NoDup_cons in Hn as [Hn _].
    intros ->. apply Hn, list_elem_of_here. }
  pose proof Hall as Hall'. rewrite Forall_forall in Hall'.
  destruct (Hall' _ HinT) as (HinvT & HdtpT & HclsT & _).
  destruct (Hall' _ HinD) as (HinvD & HdtpD & HclsD & HlenD).
  cbn [fst snd] in *. specialize (HlenD Hne).
  destruct donor as [|dcls ddata dradius ddtp dchildren]; [done|].
  cbn [item_children item_data] in *. subst ddata.
  pose proof HinvD as (HleafD & HkeysD & HallD & HcovD).
  destruct (scan_grandchildren_spec d theChild
              (fun g z => (exists k, (k, g) ∈ dchildren)
                          /\ z = d (item_data g) (item_data theChild))
              dchildren None Infty) as (g & z & Hscan & (kg & Hg) & Hz).
  { intros k g Hin. split; [by exists k|done]. }
  { left. do 2 (split; [done|]). intros ->. simpl in HlenD. lia. }
  rewrite Hscan. cbn zeta.
  pose proof (keys_ok_elem _ _ _ HkeysD Hg) as Hkg. subst kg.
  assert (child_ready d false h g) as Hready.
  { pose proof (inv_children_ready d _ _ _ _ _ _ _ HinvD) as Hr.
    rewrite Forall_forall in Hr. apply (Hr _ Hg). }
  assert (keys_ok (item_children theChild)) as HkeysT.
  { destruct theChild; [done|]. by destruct HinvT as (_ & ? & _). }
  destruct (addChild_ready rand_stream d Hd false h fuel mt theChild g z seed)
    as (T' & Hadd & HinvT' & HdataT' & HdtpT' & HclsT' & _ & HchT' & HidxT');
    try done.
  { eapply (cousins_distinct children rest kT kD theChild
              (Node dcls kD dradius ddtp dchildren)); try done.
    cbn [item_children]. apply list_elem_of_fmap. by exists (item_data g, g). }
  rewrite Hadd. cbn [set_children item_data].
  set (donor' := Node dcls kD dradius ddtp (map_erase (item_data g) dchildren)).
  set (children2 := map_set (item_data T') T' (map_set kD donor' children)).
  assert (children2 ≡ₚ (kT, T') :: (kD, donor') :: rest) as Hperm2.
  { unfold children2. rewrite HdataT'.
    eapply map_set_two; [apply Hkeys|exact Hperm]. }
  pose proof (map_find_Some _ _ _ (proj1 HkeysD) Hg) as Hfind.
  pose proof (map_erase_perm _ _ _ Hfind) as HpermD.
  assert (inv d false (S h) donor') as HinvD' by (by apply inv_erase).
  assert (forall n, keys_in (S n) children2 ≡ₚ keys_in (S n) children) as Hkeys2.
  { intros n. rewrite (keys_in_perm _ _ _ Hperm2), (keys_in_perm _ _ _ Hperm).
    rewrite !keys_in_cons. cbn [snd]. rewrite !keys_at_S.
    unfold donor'. cbn [item_children].
    rewrite (keys_in_perm _ _ _ HchT'), (keys_in_perm n _ _ HpermD).
    rewrite !keys_in_cons. cbn [snd]. rewrite keys_at_set_dtp.
    rewrite <- !app_assoc. apply Permutation_app_swap_app. }
  assert (keys_in 0 children2 ≡ₚ keys_in 0 children) as Hkeys0.
  { rewrite (keys_in_perm _ _ _ Hperm2), (keys_in_perm _ _ _ Hperm).
    rewrite !keys_in_cons. cbn [snd keys_at]. unfold donor'. cbn [item_data].
    by rewrite HdataT'. }
  assert (indexed_in children2 ≡ₚ indexed_in children) as Hidx2.
  { rewrite (indexed_in_perm _ _ Hperm2), (indexed_in_perm _ _ Hperm).
    rewrite !indexed_in_cons. cbn [snd]. unfold donor'. rewrite !indexed_node.
    rewrite HidxT', (indexed_in_perm _ _ HpermD), indexed_in_cons. cbn [snd].
    rewrite <- !app_assoc. apply Permutation_app_swap_app. }
  exists T', children2. split; [done|]. split.
  - cbn [updateRadius].
    apply (inv_node_intro h cls data radius _ dtp children children2); try done.
    + unfold children2. apply map_set_keys_ok; [|done].
      apply map_set_keys_ok; done.
    + rewrite Hperm2. apply Forall_cons. split.
      { cbn [snd]. split; [done|]. split; [congruence|]. split; [by apply HclsT'|].
        rewrite (Permutation_length HchT'). cbn [length]. lia. }
      apply Forall_cons. split.
      { cbn [snd]. split; [done|]. split; [done|]. split; [done|].
        unfold donor'. cbn [item_children].
        unfold map_size in Hdonor.
        rewrite (map_erase_length _ _ _ Hfind) in Hdonor. lia. }
      rewrite Hperm in Hall. apply Forall_cons in Hall as [_ Hall].
      apply Forall_cons in Hall as [_ Hall].
      pose proof (keys_ok_NoDup _ Hkeys) as Hn. rewrite Hperm, !fmap_cons in Hn.
      apply NoDup_cons in Hn as [Hn _]. cbn [fst] in Hn.
      rewrite Forall_forall in Hall. apply Forall_forall. intros [k c] Hin.
      destruct (Hall _ Hin) as (? & ? & ? & Hl). do 3 (split; [done|]).
      apply Hl. cbn [fst]. intros ->. apply Hn. apply list_elem_of_further.
      apply list_elem_of_fmap. by exists (kT, c).
    + intros x Hx. by rewrite <- Hidx2.
    + lia.
  - do 3 (split; [done|]).
    rewrite (Permutation_length Hperm2), (Permutation_length Hperm). done.
Qed.

Lemma balanceChildren_merge h fuel mt cls data radius dtp children rest
    kM theChild cand seed :
  (3 <= fuel)%nat ->
  is_leaf_class cls = false -> keys_ok children ->
  children ≡ₚ (item_data theChild, theChild) :: (kM, cand) :: rest ->
  Forall (sibling_ok d h data (item_data theChild)) children ->
  (forall x, x ∈ indexed_in children -> d x data <= radius) ->
  NoDup (keys_in 1 children) ->
  exists merged children2,
    match addChildren rand_stream d fuel mt cand
            (fun grandchild => d (item_data grandchild) (item_data cand))
            (item_children theChild) seed with
    | None => None
    | Some (merged, seed') =>
        Some (set_children (Node cls data radius dtp children)
                (map_erase (item_data theChild)
                   (map_set (item_data merged) merged children)),
              merged, seed')
    end = Some (Node cls data radius dtp children2, merged, seed)
    /\ inv d false (S (S h))
         (updateRadius (Node cls data radius dtp children2) merged)
    /\ (forall n, keys_in (S n) children2 ≡ₚ keys_in (S n) children)
    /\ keys_in 0 children2 ⊆+ keys_in 0 children
    /\ indexed_in children2 ≡ₚ indexed_in children
    /\ length children = S (length children2).
Proof.
  intros Hfuel Hleaf Hkeys Hperm Hall Hcov Hnd.
  set (kT := item_data theChild) in *.
  assert ((kT, theChild) ∈ children) as HinT.
  { rewrite Hperm. apply list_elem_of_here. }
  assert ((kM, cand) ∈ children) as HinM.
  { rewrite Hperm. apply list_elem_of_further, list_elem_of_here. }
  pose proof (keys_ok_elem _ _ _ Hkeys HinM) as HkM.
  assert (kM <> kT) as Hne.
  { pose proof (keys_ok_NoDup _ Hkeys) as Hn. rewrite Hperm, !fmap_cons in Hn.
    cbn [fst] in Hn. apply NoDup_cons in Hn as [Hn _].
    intros ->. apply Hn, list_elem_of_here. }
  pose proof Hall as Hall'. rewrite Forall_forall in Hall'.
  destruct (Hall' _ HinT) as (HinvT & HdtpT & HclsT & _).
  destruct (Hall' _ HinM) as (HinvM & HdtpM & HclsM & HlenM).
  cbn [fst snd] in *. specialize (HlenM Hne).
  assert (keys_ok (item_children theChild)) as HkeysT.
  { destruct theChild; [done|]. by destruct HinvT as (_ & ? & _). }
  assert (keys_ok (item_children cand)) as HkeysM.
  { destruct cand; [done|]. by destruct HinvM as (_ & ? & _). }
  assert (Forall (fun kv => child_ready d false h kv.2) (item_children theChild))
    as HreadyT.
  { destruct theChild; [done|]. by eapply inv_children_ready. }
  destruct (addChildren_spec rand_stream d Hd false h fuel mt
              (fun grandchild => d (item_data grandchild) (item_data cand))
              (item_children theChild) cand seed)
    as (merged & Hadd & HinvM' & HdataM' & HdtpM' & HclsM' & HchM'); try done.
  { intros k Hk.
    by eapply (cousins_distinct children rest kM kT cand theChild);
      [done|rewrite Hperm; apply Permutation_swap|..]. }
  rewrite Hadd. cbn [set_children].
  set (children2 := map_erase kT (map_set (item_data merged) merged children)).
  assert (children2 ≡ₚ (kM, merged) :: rest) as Hperm2.
  { unfold children2. rewrite HdataM', HkM.
    eapply map_set_erase; [apply Hkeys|exact Hperm]. }
  assert (forall n, keys_in (S n) children2 ≡ₚ keys_in (S n) children) as Hkeys2.
  { intros n. rewrite (keys_in_perm _ _ _ Hperm2), (keys_in_perm _ _ _ Hperm).
    rewrite !keys_in_cons. cbn [snd]. rewrite !keys_at_S.
    rewrite (keys_in_perm _ _ _ HchM'). unfold keys_in at 1. rewrite bind_app.
    fold (keys_in n (item_children cand)).
    fold (keys_in n (retag (fun grandchild =>
                              d (item_data grandchild) (item_data cand))
                       (item_children theChild))).
    rewrite retag_keys_in. by rewrite <- !app_assoc. }
  assert (keys_in 0 children2 ⊆+ keys_in 0 children) as Hkeys0.
  { rewrite (keys_in_perm _ _ _ Hperm2), (keys_in_perm _ _ _ Hperm).
    rewrite !keys_in_cons. cbn [snd keys_at]. rewrite HdataM', HkM.
    apply submseteq_cons. done. }
  assert (indexed_in children2 ≡ₚ indexed_in children) as Hidx2.
  { rewrite (indexed_in_perm _ _ Hperm2), (indexed_in_perm _ _ Hperm).
    rewrite !indexed_in_cons. cbn [snd].
    destruct merged as [|mcls mdata mradius mdtp mchildren];
      [by destruct cand|].
    destruct cand as [|ccls cdata cradius cdtp cchildren]; [done|].
    destruct theChild as [|tcls tdata tradius tdtp tchildren]; [done|].
    rewrite !indexed_node. cbn [item_children] in HchM'.
    rewrite (indexed_in_perm _ _ HchM'). unfold indexed_in at 1. rewrite bind_app.
    fold (indexed_in cchildren).
    fold (indexed_in (retag (fun grandchild => d (item_data grandchild) cdata)
                        tchildren)).
    cbn [item_data]. rewrite retag_indexed. by rewrite <- !app_assoc. }
  exists merged, children2. split; [done|]. split.
  - cbn [updateRadius].
    apply (inv_node_intro h cls data radius _ dtp children children2); try done.
    + unfold children2. apply map_erase_keys_ok. by apply map_set_keys_ok.
    + rewrite Hperm2. apply Forall_cons. split.
      { cbn [snd]. split; [done|]. split; [congruence|]. split; [by apply HclsM'|].
        rewrite (Permutation_length HchM'), length_app. lia. }
      rewrite Hperm in Hall. apply Forall_cons in Hall as [_ Hall].
      apply Forall_cons in Hall as [_ Hall].
      pose proof (keys_ok_NoDup _ Hkeys) as Hn. rewrite Hperm, !fmap_cons in Hn.
      apply NoDup_cons in Hn as [Hn _]. cbn [fst] in Hn.
      rewrite Forall_forall in Hall. apply Forall_forall. intros [k c] Hin.
      destruct (Hall _ Hin) as (? & ? & ? & Hl). do 3 (split; [done|]).
      apply Hl. cbn [fst]. intros ->. apply Hn. apply list_elem_of_further.
      apply list_elem_of_fmap. by exists (kT, c).
    + intros x Hx. by rewrite <- Hidx2.
    + lia.
  - do 3 (split; [done|]).
    rewrite (Permutation_length Hperm2), (Permutation_length Hperm). done.
Qed.

End BalanceSpec.

Section BalanceChildren.

Variable rand_stream : nat -> Z.
Variable d : Data -> Data -> Z.
Hypothesis Hd : metric d.

(** [balanceChildren] on a node with at least two children, one of which,
    [theChild], has fallen under its capacity. *)
Lemma balanceChildren_spec h fuel mt cls data radius dtp children theChild seed :
  (3 <= fuel)%nat -> 2 <= minNodeCapacity mt ->
  is_leaf_class cls = false -> keys_ok children ->
  (item_data theChild, theChild) ∈ children ->
  Forall (sibling_ok d h data (item_data theChild)) children ->
  (1 <= length (item_children theChild))%nat ->
  (2 <= length children)%nat ->
  (forall x, x ∈ indexed_in children -> d x data <= radius) ->
  NoDup (keys_in 1 children) ->
  exists children2 expanded,
    balanceChildren rand_stream d fuel mt (Node cls data radius dtp children)
      theChild seed
    = Some (Node cls data radius dtp children2, expanded, seed)
    /\ inv d false (S (S h))
         (updateRadius (Node cls data radius dtp children2) expanded)
    /\ (forall n, keys_in (S n) children2 ≡ₚ keys_in (S n) children)
    /\ keys_in 0 children2 ⊆+ keys_in 0 children
    /\ indexed_in children2 ≡ₚ indexed_in children
    /\ (length children <= S (length children2))%nat.
Proof.
  intros Hfuel Hmin Hleaf Hkeys HinT Hall HlenT Hlen Hcov Hnd.
  unfold balanceChildren. cbn [item_children].
  pose proof Hall as Hall'. rewrite Forall_forall in Hall'.
  destruct (scan_siblings_spec d mt theChild children children None Infty None Infty)
    as (dn & mc & Hscan & Hdn & Hmc & Hnone); [|done|done|].
  { intros kv Hkv. split; [done|]. destruct (Hall' _ Hkv) as (Hi & _).
    by rewrite (inv_is_entry d _ _ _ Hi). }
  rewrite Hscan. destruct dn as [donor|].
  - destruct Hdn as (kD & HinD & Hne & Hsize).
    destruct (two_elements _ _ _ HinT HinD) as (rest & Hperm).
    { intros [= E1 E2]. by subst donor. }
    destruct (Hall' _ HinD) as (_ & _ & HclsD & _). cbn [snd] in HclsD.
    destruct (balanceChildren_donate rand_stream d Hd h fuel mt cls data radius dtp
                children rest kD theChild donor seed)
      as (T' & children2 & Hres & Hinv & Hk & Hk0 & Hidx & Hl); try done.
    { destruct donor as [|dcls ? ? ? dchildren]; [done|]. cbn [item_children].
      cbn in HclsD. rewrite (getMinCapacity_nonroot mt h) in Hsize by done.
      symmetry in Hsize. apply Z.gtb_lt in Hsize. done. }
    exists children2, T'. split; [exact Hres|]. split; [done|]. split; [done|].
    split; [by rewrite Hk0|]. split; [done|]. lia.
  - destruct mc as [cand|].
    + destruct Hmc as (kM & HinM & Hne & _).
      destruct (two_elements _ _ _ HinT HinM) as (rest & Hperm).
      { intros [= E1 E2]. by subst cand. }
      destruct (balanceChildren_merge rand_stream d Hd h fuel mt cls data radius dtp
                  children rest kM theChild cand seed)
        as (merged & children2 & Hres & Hinv & Hk & Hk0 & Hidx & Hl); try done.
      exists children2, merged. split; [exact Hres|]. do 4 (split; [done|]). lia.
    + exfalso. specialize (Hnone eq_refl eq_refl).
      apply elem_of_Permutation in HinT as (rest & Hperm).
      destruct rest as [|[k c] rest].
      { rewrite (Permutation_length Hperm) in Hlen. simpl in Hlen. lia. }
      assert ((k, c) ∈ children) as Hin.
      { rewrite Hperm. apply list_elem_of_further, list_elem_of_here. }
      pose proof (Hnone _ Hin) as Hsame. cbn [snd] in Hsame.
      pose proof (keys_ok_elem _ _ _ Hkeys Hin) as Hk.
      pose proof (keys_ok_NoDup _ Hkeys) as Hn. rewrite Hperm, !fmap_cons in Hn.
      cbn [fst] in Hn. apply NoDup_cons in Hn as [Hn _]. apply Hn.
      rewrite <- Hsame, Hk. apply list_elem_of_here.
Qed.

End BalanceChildren.

Lemma submseteq_NoDup_l (l1 l2 : list Data) : l1 ⊆+ l2 -> NoDup l2 -> NoDup l1.
Proof.
  intros Hsub Hnd. apply submseteq_Permutation in Hsub as (k & Hk).
  rewrite Hk in Hnd. by apply NoDup_app in Hnd as (? & _).
Qed.

Section RemoveFound.

Variable rand_stream : nat -> Z.
Variable d : Data -> Data -> Z.
Hypothesis Hd : metric d.

(** The distance tests of the search loop pass on the child that indexes
    the object. *)
Lemma search_tests keyed h c data x :
  inv d keyed h c -> x ∈ indexed c ->
  item_distanceToParent c = d (item_data c) data ->
  (Z.abs (d x data - item_distanceToParent c) <=? item_radius c) = true
  /\ (d x (item_data c) <=? item_radius c) = true.
Proof.
  intros Hinv Hx Hdtp. pose proof (inv_cover d Hd _ _ _ _ Hinv Hx) as Hcov.
  pose proof (metric_triangle d Hd x (item_data c) data).
  pose proof (metric_triangle d Hd (item_data c) x data).
  pose proof (metric_sym d Hd x (item_data c)).
  split; [apply Z.leb_le|by apply Z.leb_le]. rewrite Hdtp. lia.
Qed.

(** A child replaced by what is left of it after a removal. *)
Lemma replace_child (children : ChildrenMap) c c' x :
  keys_ok children -> (item_data c, c) ∈ children ->
  item_data c' = item_data c ->
  indexed c ≡ₚ x :: indexed c' ->
  (forall n, keys_at n c' ⊆+ keys_at n c) ->
  let children1 := map_set (item_data c') c' children in
  keys_ok children1
  /\ children1 ≡ₚ (item_data c, c') :: map_erase (item_data c) children
  /\ children ≡ₚ (item_data c, c) :: map_erase (item_data c) children
  /\ indexed_in children ≡ₚ x :: indexed_in children1
  /\ (forall n, keys_in n children1 ⊆+ keys_in n children)
  /\ length children1 = length children.
Proof.
  intros Hkeys Hin Hdata Hidx Hsub children1.
  pose proof (map_find_Some _ _ _ (proj1 Hkeys) Hin) as Hfind.
  pose proof (map_erase_perm _ _ _ Hfind) as Hperm.
  assert (children1 ≡ₚ (item_data c, c') :: map_erase (item_data c) children)
    as Hperm1.
  { unfold children1. rewrite Hdata. apply map_set_perm_erase, Hkeys. }
  split; [by apply map_set_keys_ok|]. split; [done|]. split; [done|]. split.
  { rewrite (indexed_in_perm _ _ Hperm1), (indexed_in_perm _ _ Hperm) at 1.
    rewrite !indexed_in_cons. cbn [snd]. by rewrite Hidx. }
  split.
  { intros n. rewrite (keys_in_perm _ _ _ Hperm1).
    rewrite (keys_in_perm n _ _ Hperm). rewrite !keys_in_cons. cbn [snd].
    by apply submseteq_skips_r. }
  rewrite (Permutation_length Hperm1), (Permutation_length Hperm) at 1. done.
Qed.

End RemoveFound.

Section TryChildren.

Variable rand_stream : nat -> Z.
Variable d : Data -> Data -> Z.
Hypothesis Hd : metric d.

Lemma siblings_strong h cls data radius dtp children k :
  inv d false (S (S h)) (Node cls data radius dtp children) ->
  Forall (fun kv => inv d false (S h) kv.2
                    /\ item_distanceToParent kv.2 = d (item_data kv.2) data
                    /\ item_class_is (class_at false h) kv.2
                    /\ (2 <= length (item_children kv.2))%nat)
    (map_erase k children).
Proof.
  intros (_ & _ & Hall & _). rewrite Forall_forall in *. intros kv Hkv.
  destruct (Hall kv) as (? & ? & (? & ?) & _); [|done].
  eapply elem_of_sublist; [exact Hkv|apply map_erase_sublist].
Qed.

Lemma try_children_found h fuel mt cls data radius dtp children x :
  let this := Node cls data radius dtp children in
  rm_ok rand_stream d h fuel mt -> (2 * h + 3 <= fuel)%nat -> 2 <= minNodeCapacity mt ->
  inv d false (S (S h)) this -> level_distinct this ->
  (2 <= length children)%nat ->
  forall (l : ChildrenMap) seed,
    (forall kv, kv ∈ l -> kv ∈ children) -> x ∈ indexed_in l ->
    exists this',
      try_children d (removeData rand_stream d fuel mt)
        (balanceChildren rand_stream d fuel mt) x (d x data) this l seed
      = Some (this', Normal, seed)
      /\ shrunk d (S h) this this' x.
Proof.
  intros this Hrm Hfuel Hmin Hinv Hlevel Hlen.
  pose proof Hinv as (Hleaf & Hkeys & Hall & Hcov).
  rewrite bool_decide_eq_false_2 in Hleaf by done.
  rewrite Forall_forall in Hall.
  induction l as [|[k c] l IH]; intros seed Hl Hx.
  { by apply elem_of_nil in Hx. }
  assert ((k, c) ∈ children) as Hin by (apply Hl, list_elem_of_here).
  destruct (Hall _ Hin) as (Hc & Hdtp & (Hcls & Hclen) & _). cbn [snd] in *.
  pose proof (keys_ok_elem _ _ _ Hkeys Hin) as Hk. subst k.
  cbn [try_children]. rewrite (inv_is_entry d _ _ _ Hc). cbn [bool_decide].
  destruct (decide (x ∈ indexed c)) as [Hxc|Hxc].
  - destruct (search_tests d Hd _ _ c data x Hc Hxc Hdtp) as [-> ->].
    destruct (Hrm c x seed) as (c' & sig & -> & Hshrunk & Hsig); try done.
    { by eapply (level_distinct_child this). }
    destruct Hshrunk as (Hc' & Hidx & Hdata & Hdtp' & Hcls' & Hsub & Hlen').
    destruct (replace_child children c c' x Hkeys Hin Hdata Hidx Hsub)
      as (Hkeys1 & Hperm1 & Hperm & Hidx1 & Hsub1 & Hlen1).
    cbn [item_children this set_children].
    set (children1 := map_set (item_data c') c' children) in *.
    pose proof (siblings_strong h cls data radius dtp children (item_data c) Hinv)
      as Hrest.
    destruct Hsig as [[-> Hlen2]|[-> Hlen2]].
    + eexists. split; [reflexivity|]. cbn [updateRadius]. split.
      { apply (inv_node_intro d h cls data radius _ dtp children children1);
          try done; try lia.
        - rewrite Hperm1. apply Forall_cons. split; [|done]. cbn [snd].
          split; [done|]. split; [congruence|]. split; [by apply Hcls'|done].
        - intros y Hy. rewrite Hidx1. by apply list_elem_of_further. }
      unfold this. rewrite !indexed_node. split; [done|].
      do 3 (split; [done|]). split; [|cbn [item_children]; lia].
      intros [|n]; [done|]. rewrite !keys_at_S. apply Hsub1.
    + destruct (balanceChildren_spec rand_stream d Hd h fuel mt cls data radius dtp
                  children1 c' seed)
        as (children2 & expanded & -> & Hinv2 & Hk2 & Hk0 & Hidx2 & Hlen3);
        try done; try lia.
      { rewrite Hperm1, Hdata. apply list_elem_of_here. }
      { rewrite Hperm1. apply Forall_cons. split.
        - split; [done|]. split; [cbn [snd]; congruence|].
          split; [by apply Hcls'|]. cbn [fst]. by rewrite Hdata.
        - eapply Forall_impl; [exact Hrest|].
          intros kv (? & ? & ? & ?). split; [done|]. split; [done|]. done. }
      { intros y Hy. apply Hcov. rewrite Hidx1. by apply list_elem_of_further. }
      { eapply submseteq_NoDup_l; [apply Hsub1|]. apply (Hlevel 1%nat). }
      eexists. split; [reflexivity|]. split; [done|].
      cbn [updateRadius]. unfold this. rewrite !indexed_node. split.
      { by rewrite Hidx2. }
      do 3 (split; [done|]). split; [|cbn [item_children]; lia].
      intros [|[|n]]; [done| |]; rewrite !keys_at_S; cbn [item_children].
      * by etrans; [exact Hk0|].
      * rewrite Hk2. apply Hsub1.
  - assert (x ∈ indexed_in l) as Hx'.
    { rewrite indexed_in_cons in Hx. apply elem_of_app in Hx as [?|?]; done. }
    destruct (IH seed) as (this' & Htry & Hshrunk); [|done|].
    { intros kv Hkv. apply Hl. by apply list_elem_of_further. }
    exists this'. split; [|done].
    destruct (_ <=? _); [|done]. destruct (_ <=? _); [|done].
    rewrite (removeData_absent rand_stream d false h) by (done || lia).
    cbn [item_children this]. rewrite map_set_id; [done|apply Hkeys|].
    by apply map_find_Some; [apply Hkeys|].
Qed.

End TryChildren.

Section RemoveData.

Variable rand_stream : nat -> Z.
Variable d : Data -> Data -> Z.
Hypothesis Hd : metric d.

Lemma leaf_indexed_keys keyed cls data radius dtp children :
  inv d keyed 1 (Node cls data radius dtp children) ->
  indexed_in children = children.*1.
Proof.
  intros Hinv. rewrite <- (indexed_node cls data radius dtp).
  rewrite (indexed_keys_at d _ _ _ Hinv), keys_at_S. cbn [item_children].
  apply keys_in_0. by destruct Hinv as (_ & ? & _).
Qed.

Lemma keys_in_erase n k (children : ChildrenMap) :
  keys_in n (map_erase k children) ⊆+ keys_in n children.
Proof.
  induction children as [|[k' v] m IH]; [done|]. cbn [map_erase].
  destruct (k =? k').
  - rewrite keys_in_cons. by apply submseteq_inserts_l.
  - rewrite !keys_in_cons. by apply submseteq_skips_l.
Qed.

Lemma doRemoveData_found h fuel mt this x seed :
  (forall h', h = S h' -> rm_ok rand_stream d h' fuel mt) ->
  (2 * h + 1 <= fuel)%nat -> 2 <= minNodeCapacity mt ->
  inv d false (S h) this -> level_distinct this -> x ∈ indexed this ->
  (h <> O -> (2 <= length (item_children this))%nat) ->
  exists this',
    doRemoveData rand_stream d (S fuel) mt this x (d x (item_data this)) seed
    = Some (this', Normal, seed)
    /\ shrunk d h this this' x.
Proof.
  intros Hrm Hfuel Hmin Hinv Hlevel Hx Hlen.
  destruct this as [|cls data radius dtp children]; [done|].
  rewrite doRemoveData_unfold. pose proof Hinv as (Hleaf & Hkeys & Hall & Hcov).
  rewrite Hleaf. destruct h as [|h].
  - rewrite bool_decide_eq_true_2 by done.
    rewrite indexed_node, (leaf_indexed_keys _ _ _ _ _ _ Hinv) in Hx.
    apply list_elem_of_fmap in Hx as ([k e] & -> & Hin). cbn [fst] in *.
    pose proof (map_find_Some _ _ _ (proj1 Hkeys) Hin) as Hfind.
    rewrite Hfind. eexists. split; [reflexivity|]. cbn [set_children].
    pose proof (map_erase_perm _ _ _ Hfind) as Hperm.
    split; [by apply inv_erase|]. split.
    { rewrite !indexed_node, (indexed_in_perm _ _ Hperm) at 1.
      rewrite indexed_in_cons. cbn [snd].
      rewrite Forall_forall in Hall. destruct (Hall _ Hin) as (He & _).
      cbn [snd] in He. destruct e as [edata ? ?|]; [|done].
      pose proof (keys_ok_elem _ _ _ Hkeys Hin) as Hk. cbn in Hk. subst edata.
      done. }
    do 3 (split; [done|]). split.
    { intros [|n]; [done|]. rewrite !keys_at_S. apply keys_in_erase. }
    cbn [item_children]. by rewrite (map_erase_length _ _ _ Hfind).
  - rewrite bool_decide_eq_false_2 by done. cbn [item_data].
    apply (try_children_found rand_stream d Hd h fuel mt cls data radius dtp
             children x); try done; try lia.
    + by apply Hrm.
    + by apply Hlen.
    + by rewrite <- (indexed_node cls data radius dtp).
Qed.

(** [removeData] on a node that is not the root. *)
Lemma removeData_found h :
  forall fuel mt, (2 * h + 3 <= fuel)%nat -> 2 <= minNodeCapacity mt ->
                  rm_ok rand_stream d h fuel mt.
Proof.
  induction h as [|h IH]; intros fuel mt Hfuel Hmin c x seed Hinv Hlevel Hx Hcls Hlen.
  - destruct fuel as [|[|fuel]]; try lia.
    destruct (doRemoveData_found 0 fuel mt c x seed) as (c' & Hdo & Hshrunk);
      try done; try lia.
    rewrite removeData_unfold, Hdo. cbn zeta.
    destruct c as [|cls data radius dtp children]; [done|].
    cbn in Hcls. subst cls. cbn [Node_removeData].
    pose proof Hshrunk as (Hinv' & _ & _ & _ & Hcls' & _ & Hlen').
    destruct c' as [|cls' data' radius' dtp' children']; [done|].
    specialize (Hcls' LeafNode eq_refl). cbn in Hcls'. subst cls'.
    cbn [getMinCapacity item_children] in *. unfold map_size.
    destruct (Z.ltb_spec (Z.of_nat (length children')) (minNodeCapacity mt)).
    + eexists _, _. split; [reflexivity|]. split; [done|]. right.
      split; [done|]. cbn [item_children]. lia.
    + eexists _, _. split; [reflexivity|]. split; [done|]. left.
      split; [done|]. cbn [item_children]. lia.
  - destruct fuel as [|[|fuel]]; try lia.
    destruct (doRemoveData_found (S h) fuel mt c x seed) as (c' & Hdo & Hshrunk);
      try done; try lia.
    { intros h' [= <-]. apply IH; [lia|done]. }
    rewrite removeData_unfold, Hdo. cbn zeta.
    destruct c as [|cls data radius dtp children]; [done|].
    cbn in Hcls. subst cls. cbn [Node_removeData].
    pose proof Hshrunk as (Hinv' & _ & _ & _ & Hcls' & _ & Hlen').
    destruct c' as [|cls' data' radius' dtp' children']; [done|].
    specialize (Hcls' InternalNode eq_refl). cbn in Hcls'. subst cls'.
    cbn [getMinCapacity item_children] in *. unfold map_size.
    destruct (Z.ltb_spec (Z.of_nat (length children')) (minNodeCapacity mt)).
    + eexists _, _. split; [reflexivity|]. split; [done|]. right.
      split; [done|]. cbn [item_children]. lia.
    + eexists _, _. split; [reflexivity|]. split; [done|]. left.
      split; [done|]. cbn [item_children]. lia.
Qed.

End RemoveData.

Section RemoveSpec.

Variable rand_stream : nat -> Z.
Variable d : Data -> Data -> Z.
Hypothesis Hd : metric d.

Lemma shrunk_level_distinct h r r' x :
  shrunk d h r r' x -> level_distinct r -> level_distinct r'.
Proof.
  intros (_ & _ & _ & _ & _ & Hsub & _) Hl n.
  eapply submseteq_NoDup_l; [apply Hsub|apply Hl].
Qed.

Lemma remove_found h fuel mt r x seed :
  (2 * h + 3 <= fuel)%nat -> 2 <= minNodeCapacity mt ->
  root mt = Some r -> root_ok d false h r -> level_distinct r ->
  x ∈ indexed r ->
  exists root',
    remove rand_stream d fuel mt x seed
    = Some (true, mk_mtree (minNodeCapacity mt) (maxNodeCapacity mt) root', seed)
    /\ root_after d h r x root'.
Proof.
  intros Hfuel Hmin Hroot (Hinv & Hcls & Hlen1 & Hlen2) Hlevel Hx.
  unfold remove. rewrite Hroot. cbn zeta.
  destruct fuel as [|[|fuel]]; try lia.
  destruct (doRemoveData_found rand_stream d Hd h fuel mt r x seed)
    as (r' & Hdo & Hshrunk); try done; try lia.
  { intros h' ->. apply removeData_found; [done|lia|done]. }
  rewrite removeData_unfold, Hdo. cbn zeta.
  pose proof (shrunk_level_distinct _ _ _ _ Hshrunk Hlevel) as Hlevel'.
  pose proof Hshrunk as (Hinv' & Hidx & _ & _ & Hcls' & Hsub & Hlen').
  specialize (Hcls' _ Hcls).
  destruct r as [|cls data radius dtp children]; [done|].
  destruct r' as [|cls' data' radius' dtp' children']; [done|].
  cbn in Hcls, Hcls'. subst cls cls'. cbn [Node_removeData item_children] in *.
  unfold map_size. destruct h as [|h]; cbn [class_at getMinCapacity].
  - destruct (Z.ltb_spec (Z.of_nat (length children')) 1).
    + destruct children'; [|simpl in *; lia]. cbn [item_children].
      exists None. split; [done|]. exact Hidx.
    + exists (Some (Node RootLeafNode data' radius' dtp' children')).
      split; [done|]. exists 0%nat. split; [done|]. split; [|done].
      split; [done|]. split; [done|]. cbn [item_children]. split; [lia|done].
  - specialize (Hlen2 ltac:(done)).
    destruct (Z.ltb_spec (Z.of_nat (length children')) 2).
    + destruct children' as [|[k theChild] [|? ?]]; try (simpl in *; lia).
      unfold promote_only_child. cbn [item_children].
      pose proof Hinv' as (_ & Hkeys' & Hall' & _).
      apply Forall_cons in Hall' as [(Hc & _ & (Hccls & Hclen) & _) _].
      cbn [snd] in *.
      destruct theChild as [|ccls cdata cradius cdtp grandchildren]; [done|].
      cbn in Hccls. cbn [item_children] in Hclen.
      set (newRoot := new_node (class_at true h) cdata).
      assert (match ccls with
              | InternalNode => Some (new_node RootNode cdata)
              | LeafNode => Some (new_node RootLeafNode cdata)
              | _ => None
              end = Some newRoot) as ->.
      { subst ccls. by destruct h. }
      pose proof Hc as (_ & Hgkeys & _).
      destruct (addChildren_spec rand_stream d Hd false h (S (S fuel)) mt
                  (fun grandchild => d (item_data newRoot) (item_data grandchild))
                  grandchildren newRoot seed)
        as (newRoot' & -> & HinvN & HdataN & _ & HclsN & HchN); try done; try lia.
      { apply fresh_node_inv. by destruct h. }
      { by eapply inv_children_ready. }
      { intros k' _. cbn. apply not_elem_of_nil. }
      { intros c. apply (metric_sym d Hd). }
      exists (Some newRoot'). split; [done|].
      exists h. split; [lia|].
      cbn [new_node newRoot item_children] in HchN. rewrite app_nil_r in HchN.
      split; [|split].
      * split; [done|]. split; [by apply HclsN|].
        rewrite (Permutation_length HchN), retag_length. split; [lia|]. intros _. lia.
      * intros n. rewrite keys_at_S, (keys_in_perm _ _ _ HchN), retag_keys_in.
        specialize (Hlevel' (S n)). rewrite keys_at_S in Hlevel'.
        cbn [item_children] in Hlevel'. rewrite keys_in_cons in Hlevel'.
        cbn [snd] in Hlevel'. rewrite keys_at_S in Hlevel'.
        cbn [item_children] in Hlevel'. by apply NoDup_app in Hlevel' as (? & _).
      * etrans; [exact Hidx|]. apply Permutation_skip.
        destruct newRoot' as [|ncls ndata nradius ndtp nchildren]; [done|].
        cbn [item_children] in HchN. rewrite !indexed_node, indexed_in_cons.
        cbn [snd]. rewrite indexed_node.
        rewrite (indexed_in_perm _ _ HchN), retag_indexed.
        unfold indexed_in at 2. by rewrite app_nil_r.
    + exists (Some (Node RootNode data' radius' dtp' children')).
      split; [done|]. exists (S h). split; [done|]. split; [|done].
      split; [done|]. split; [done|]. cbn [item_children]. split; [lia|].
      intros _. lia.
Qed.

End RemoveSpec.

Section RunSpec.

Variable rand_stream : nat -> Z.
Variable d : Data -> Data -> Z.
Hypothesis Hd : metric d.

Lemma run_adds (S : list Data) :
  forall fuel mt seed L,
    built d mt L -> NoDup (S ++ L) ->
    (2 * (length S + length L) + 6 <= fuel)%nat ->
    3 <= maxNodeCapacity mt ->
    exists mt' seed',
      (forall ops, run rand_stream d fuel (map Add S ++ ops) mt seed
                   = run rand_stream d fuel ops mt' seed')
      /\ built d mt' (S ++ L)
      /\ minNodeCapacity mt' = minNodeCapacity mt
      /\ maxNodeCapacity mt' = maxNodeCapacity mt.
Proof.
  induction S as [|x S IH]; intros fuel mt seed L Hbuilt Hnd Hfuel Hmax.
  { exists mt, seed. done. }
  cbn [app length] in *. apply NoDup_cons in Hnd as [Hx Hnd].
  assert (exists mt1 seed1,
            add rand_stream d fuel mt x seed = Some (mt1, seed1)
            /\ built d mt1 (x :: L)
            /\ minNodeCapacity mt1 = minNodeCapacity mt
            /\ maxNodeCapacity mt1 = maxNodeCapacity mt)
    as (mt1 & seed1 & Hadd & Hbuilt1 & Hmin1 & Hmax1).
  { unfold built in Hbuilt. destruct (root mt) as [r|] eqn:Hroot.
    - destruct Hbuilt as (h & Hr & Hidx).
      pose proof (root_height_lt_indexed d _ _ _ Hr) as Hh.
      rewrite (Permutation_length Hidx) in Hh.
      destruct (add_next rand_stream d Hd h fuel mt r x seed)
        as (r' & seed' & h' & Hadd & Hr' & Hidx'); try done; try lia.
      { pose proof Hnd as Hnd'. apply NoDup_app in Hnd' as (_ & _ & HL).
        by rewrite Hidx. }
      { rewrite Hidx. intros HxL. apply Hx, elem_of_app. by right. }
      eexists _, _. split; [exact Hadd|]. split; [|done].
      unfold built. cbn [root]. exists h'. split; [done|]. by rewrite Hidx', Hidx.
    - subst L.
      destruct (add_first rand_stream d Hd fuel mt x seed) as (r' & Hadd & Hr' & Hidx');
        try done; try lia.
      eexists _, _. split; [exact Hadd|]. split; [|done].
      unfold built. cbn [root]. exists 0%nat. split; [done|]. by rewrite Hidx'. }
  destruct (IH fuel mt1 seed1 (x :: L)) as (mt' & seed' & Hrun & Hbuilt' & Hmin' & Hmax');
    try done.
  { by rewrite <- Permutation_middle; apply NoDup_cons. }
  { cbn [length]. lia. }
  { by rewrite Hmax1. }
  exists mt', seed'. split.
  { intros ops. cbn [map app run]. by rewrite Hadd. }
  split; [|split; congruence].
  unfold built in *. destruct (root mt') as [r|].
  - destruct Hbuilt' as (h & Hr & Hidx). exists h. split; [done|].
    by rewrite Hidx, <- Permutation_middle.
  - by destruct S.
Qed.

Lemma built_remaining mt L : built d mt L -> NoDup L -> remaining d mt L.
Proof.
  unfold built, remaining. destruct (root mt) as [r|]; [|done].
  intros (h & (Hinv & Hrest) & Hidx) Hnd. exists h. split.
  { split; [by eapply inv_keyed_weaken|done]. }
  split; [|done]. eapply (keyed_level_distinct d); [exact Hinv|by rewrite Hidx].
Qed.



End RunSpec.

(** ** Witnesses and runs *)






(** The run of [merge_run_ops] completes and builds [merge_run_tree]; both
    removals in it find their object. *)
Lemma merge_run_result :
  run merge_run_rand line_distance 8 merge_run_ops (mtree_new 2 4) 0
  = Some (merge_run_tree, [true; true], 24%nat).
Proof. vm_compute. reflexivity. Qed.

(** C3 (code defect): after the run [merge_run_ops] the internal node 0
    has radius 110 while its child 100 has distanceToParent 100 and radius
    21, so the metric invariant fails on the reached tree. *)
Theorem C3_stale_radius_after_merge :
  run merge_run_rand line_distance 8 merge_run_ops (mtree_new 2 4) 0
    = Some (merge_run_tree, [true; true], 24%nat)
  /\ forall r, root merge_run_tree = Some r -> ~ child_metrics_ok line_distance r.
Proof.
  split; [exact merge_run_result|].
  intros r [= <-]. simpl. intros H.
  destruct H as [(_ & _ & H) _].
  destruct H as (_ & _ & (_ & Hbad & _) & _). lia.
Qed.

(** C5 (code defect): on the tree reached by [merge_run_ops], the object
    121 is indexed and [remove] returns false for it. *)
Theorem C5_remove_misses_indexed_object :
  run merge_run_rand line_distance 8 merge_run_ops (mtree_new 2 4) 0
    = Some (merge_run_tree, [true; true], 24%nat)
  /\ 121 ∈ indexed_objects merge_run_tree
  /\ remove merge_run_rand line_distance 8 merge_run_tree 121 24
     = Some (false, merge_run_tree, 24%nat).
Proof.
  split; [exact merge_run_result|]. split.
  - vm_compute. repeat (apply list_elem_of_here || apply list_elem_of_further).
  - vm_compute. reflexivity.
Qed.

(** C2 (code defect): on the tree reached by [merge_run_ops], the query
    for the 2 nearest neighbours of 155 yields 200 at distance 45 and then
    121 at distance 34. *)
Theorem C2_query_order_violated :
  run merge_run_rand line_distance 8 merge_run_ops (mtree_new 2 4) 0
    = Some (merge_run_tree, [true; true], 24%nat)
  /\ results line_distance 3 8 (get_nearest 0 merge_run_tree 155 Infty 2)
     = Some [mk_result 200 45; mk_result 121 34]
  /\ ~ non_decreasing [mk_result 200 45; mk_result 121 34].
Proof.
  split; [exact merge_run_result|]. split; [vm_compute; reflexivity|].
  simpl. intros [H _]. lia.
Qed.

(** C1 (code defect): on the tree reached by [merge_run_ops], which
    indexes 15 objects, the query for the 15 nearest neighbours of 158
    yields 121 at distance 37 after three objects at distances 42, 43, 44. *)
Theorem C1_knn_order_violated :
  run merge_run_rand line_distance 8 merge_run_ops (mtree_new 2 4) 0
    = Some (merge_run_tree, [true; true], 24%nat)
  /\ length (indexed_objects merge_run_tree) = 15%nat
  /\ exists rs,
       results line_distance 16 8 (get_nearest 0 merge_run_tree 158 Infty 15)
         = Some (mk_result 200 42 :: mk_result 201 43 :: mk_result 202 44
                   :: mk_result 121 37 :: rs)
       /\ ~ non_decreasing (mk_result 200 42 :: mk_result 201 43 :: mk_result 202 44
                              :: mk_result 121 37 :: rs).
Proof.
  split; [exact merge_run_result|]. split; [vm_compute; reflexivity|].
  eexists. split; [vm_compute; reflexivity|].
  simpl. intros (_ & _ & H & _). lia.
Qed.

(** C4 (code defect): with capacities 3 and 4, the fifth insertion splits
    the root leaf into leaves of 3 and 2 children; the second is below the
    minimum capacity. *)
Theorem C4_split_under_min_capacity :
  exists t r,
    run (rand_of []) line_distance 4 [Add 1; Add 2; Add 4; Add 8; Add 16]
      (mtree_new 3 4) 0 = Some (t, [], 2%nat)
    /\ root t = Some r
    /\ map_find 2 (item_children r)
       = Some (Node LeafNode 2 6 1 [(2, Entry 2 0 0); (8, Entry 8 0 6)])
    /\ ~ capacity_ok t r.
Proof.
  eexists _, _. split; [vm_compute; reflexivity|]. split; [reflexivity|].
  split; [reflexivity|].
  simpl. intros (_ & _ & (H & _) & _). unfold map_size in H. simpl in H. lia.
Qed.

Lemma line_distance_metric : metric line_distance.
Proof. split; unfold line_distance; intros; lia. Qed.



(** * Further properties of the code *)

(** ** The cached distance function and the partition policy *)

Lemma cached_run_values (d : Data -> Data -> Z) (args : list (Data * Data)) :
  (forall a b, d a b = d b a) ->
  forall c, cache_inv d c ->
    (Cache.run d c args).1 = map (fun p => d p.1 p.2) args.
Proof.
  intros Hsym. induction args as [|[a b] args IH]; intros c Hc; [done|].
  cbn [Cache.run map fst snd].
  pose proof (call_value d c a b Hc) as Hv.
  pose proof (call_inv d c a b Hc) as Hc1.
  destruct (Cache.call d c a b) as [v c1]. cbn [fst snd] in *.
  specialize (IH c1 Hc1). destruct (Cache.run d c1 args) as [vs c2].
  cbn [fst] in *. rewrite IH. f_equal.
  destruct Hv as [->| ->]; [done|]. by rewrite Hsym.
Qed.

(** X1: a cached distance function that wraps a symmetric function returns,
    on every sequence of calls from its creation on, exactly the values of
    the wrapped function. *)
Theorem cached_distance_is_transparent
    (d : Data -> Data -> Z) (args : list (Data * Data)) :
  (forall a b, d a b = d b a) ->
  (Cache.run d Cache.fresh args).1 = map (fun p => d p.1 p.2) args.
Proof. intros Hsym. apply cached_run_values; [done|apply fresh_inv]. Qed.

Lemma cached_distance_is_transparent_witness :
  (Cache.run line_distance Cache.fresh [(1, 5); (5, 1); (2, 2)]).1
  = map (fun p => line_distance p.1 p.2) [(1, 5); (5, 1); (2, 2)].
Proof.
  apply (cached_distance_is_transparent line_distance [(1, 5); (5, 1); (2, 2)]).
  intros a b. unfold line_distance. lia.
Defined.

Lemma sort_insert_perm (d : Data -> Data -> Z) p x (sorted : list Data) :
  forall c, (sort_insert d p x sorted c).1 ≡ₚ x :: sorted.
Proof.
  induction sorted as [|y rest IH]; intros c; [done|]. cbn [sort_insert].
  destruct (Cache.call d c x p) as [v1 c1].
  destruct (Cache.call d c1 y p) as [v2 c2].
  destruct (v1 <? v2); [done|].
  specialize (IH c2). destruct (sort_insert d p x rest c2) as [rest' c3].
  cbn [fst] in *. rewrite IH. apply Permutation_swap.
Qed.

Lemma sort_by_distance_from_perm (d : Data -> Data -> Z) p (todo : list Data) :
  forall sorted c, (sort_by_distance_from d p sorted todo c).1 ≡ₚ todo ++ sorted.
Proof.
  induction todo as [|x todo IH]; intros sorted c; [done|].
  cbn [sort_by_distance_from].
  pose proof (sort_insert_perm d p x sorted c) as Hi.
  destruct (sort_insert d p x sorted c) as [sorted' c']. cbn [fst] in Hi.
  rewrite IH, Hi. by rewrite <- Permutation_middle.
Qed.

Lemma sort_by_distance_perm (d : Data -> Data -> Z) p (v : list Data) c :
  (sort_by_distance d p v c).1 ≡ₚ v.
Proof.
  unfold sort_by_distance. rewrite sort_by_distance_from_perm. by rewrite app_nil_r.
Qed.

(** X2: whatever the distance function and the promoted pair,
    [balanced_partition] splits a set into two disjoint sets that cover
    it, the first one of the same size as the second or one larger. *)
Theorem balanced_partition_is_balanced
    (d : Data -> Data -> Z) (promoted : Data * Data) (S : list Data) (c : Cache.t) :
  is_set S ->
  let parts := (balanced_partition d promoted S [] c).1 in
  is_set parts.1 /\ is_set parts.2
  /\ (forall x, x ∈ S <-> x ∈ parts.1 \/ x ∈ parts.2)
  /\ (forall x, x ∈ parts.1 -> x ∉ parts.2)
  /\ (length parts.1 = length parts.2
      \/ length parts.1 = Datatypes.S (length parts.2)).
Proof.
  intros Hset. unfold balanced_partition.
  pose proof (sort_by_distance_perm d promoted.1 S c) as Hp1.
  destruct (sort_by_distance d promoted.1 S c) as [queue1 c1].
  pose proof (sort_by_distance_perm d promoted.2 S c1) as Hp2.
  destruct (sort_by_distance d promoted.2 S c1) as [queue2 c2].
  cbn [fst snd] in *.
  pose proof (is_set_NoDup S Hset) as Hnd.
  assert (distribute_inv S queue1 queue2 [] []) as Hinv.
  { split; try (intros x Hx; by apply elem_of_nil in Hx).
    - intros x Hx _ _. by rewrite Hp1, Hp2.
    - intros x _ Hx. by apply elem_of_nil in Hx.
    - intros x _ Hx. by apply elem_of_nil in Hx.
    - intros x Hx. by rewrite <- Hp1.
    - intros x Hx. by rewrite <- Hp2.
    - by rewrite Hp1.
    - by rewrite Hp2.
    - by left. }
  destruct (distribute_spec S (length queue1 + length queue2) queue1 queue2 [] [] Hinv)
    as (H1 & H2 & H3 & H4 & H5 & _); [lia|].
  destruct (distribute_is_set (length queue1 + length queue2) queue1 queue2 [] [])
    as [Hs1 Hs2]; [constructor|constructor|].
  split; [done|]. split; [done|]. split; [|done].
  intros x. split; [by apply H4|]. intros [?|?]; [by apply H1|by apply H2].
Qed.

Lemma balanced_partition_is_balanced_witness :
  let parts := (balanced_partition skewed_distance (7, 9) [1; 2; 4; 8; 16] []
                  Cache.fresh).1 in
  is_set parts.1 /\ is_set parts.2
  /\ (forall x, x ∈ [1; 2; 4; 8; 16] <-> x ∈ parts.1 \/ x ∈ parts.2)
  /\ (forall x, x ∈ parts.1 -> x ∉ parts.2)
  /\ (length parts.1 = length parts.2
      \/ length parts.1 = Datatypes.S (length parts.2)).
Proof.
  apply (balanced_partition_is_balanced skewed_distance (7, 9) [1; 2; 4; 8; 16]
           Cache.fresh).
  unfold is_set. repeat constructor; lia.
Defined.

(** ** Insertions followed by removals: the tree as a set *)

Lemma filter_absent (x : Data) (L : list Data) :
  x ∉ L -> filter (fun y => y <> x) L = L.
Proof.
  induction L as [|y L IH]; [done|]. intros Hx.
  apply not_elem_of_cons in Hx as [Hne Hx].
  rewrite filter_cons_True by done. by rewrite IH.
Qed.

Lemma filter_present (x : Data) (L L' : list Data) :
  NoDup L -> L ≡ₚ x :: L' -> filter (fun y => y <> x) L ≡ₚ L'.
Proof.
  intros Hnd Hperm. rewrite Hperm in Hnd. apply NoDup_cons in Hnd as [Hx _].
  rewrite Hperm. rewrite filter_cons_False by (intros ?; done).
  by rewrite filter_absent.
Qed.

Section SetRefinement.

Variable rand_stream : nat -> Z.
Variable d : Data -> Data -> Z.
Hypothesis Hd : metric d.

Lemma remaining_perm mt L L' : remaining d mt L -> L ≡ₚ L' -> remaining d mt L'.
Proof.
  unfold remaining. destruct (root mt) as [r|].
  - intros (h & ? & ? & Hidx) Hperm. exists h. do 2 (split; [done|]).
    by rewrite Hidx.
  - intros -> Hperm. by apply Permutation_nil_l in Hperm.
Qed.

Lemma remaining_NoDup mt L : remaining d mt L -> NoDup L.
Proof.
  unfold remaining. destruct (root mt) as [r|]; [|intros ->; apply NoDup_nil_2].
  intros (h & (Hinv & _) & Hlevel & Hidx). rewrite <- Hidx.
  by eapply level_distinct_indexed.
Qed.

(** [remove] of an object that is not indexed. *)
Lemma remove_absent fuel mt L x seed :
  remaining d mt L -> x ∉ L -> (2 * length L + 3 <= fuel)%nat ->
  remove rand_stream d fuel mt x seed
  = Some (false, mk_mtree (minNodeCapacity mt) (maxNodeCapacity mt) (root mt), seed).
Proof.
  unfold remaining, remove. destruct mt as [mn mx [r|]]; cbn [root]; [|done].
  intros (h & Hr & _ & Hidx) Hx Hfuel. cbn zeta.
  cbn [minNodeCapacity maxNodeCapacity].
  pose proof (root_height_lt_indexed d _ _ _ Hr) as Hh.
  rewrite (Permutation_length Hidx) in Hh.
  rewrite (removeData_absent rand_stream d false h); [done|lia|apply Hr|].
  by rewrite Hidx.
Qed.

Lemma run_removes_set (R : list Data) :
  forall fuel mt seed L,
    remaining d mt L ->
    (2 * length L + 3 <= fuel)%nat ->
    2 <= minNodeCapacity mt ->
    exists mt',
      run rand_stream d fuel (map Remove R) mt seed
      = Some (mt', (set_removes L R).1, seed)
      /\ remaining d mt' (set_removes L R).2
      /\ minNodeCapacity mt' = minNodeCapacity mt
      /\ maxNodeCapacity mt' = maxNodeCapacity mt.
Proof.
  induction R as [|x R IH]; intros fuel mt seed L Hrem Hfuel Hmin.
  { exists mt. done. }
  cbn [map run set_removes].
  pose proof (remaining_NoDup _ _ Hrem) as Hnd.
  assert (exists mt1,
            remove rand_stream d fuel mt x seed
            = Some (bool_decide (x ∈ L), mt1, seed)
            /\ remaining d mt1 (filter (fun y => y <> x) L)
            /\ minNodeCapacity mt1 = minNodeCapacity mt
            /\ maxNodeCapacity mt1 = maxNodeCapacity mt)
    as (mt1 & Hremove & Hrem1 & Hmin1 & Hmax1).
  { destruct (decide (x ∈ L)) as [Hx|Hx].
    - rewrite bool_decide_eq_true_2 by done.
      pose proof Hrem as Hrem'. unfold remaining in Hrem'.
      destruct (root mt) as [r|] eqn:Hroot.
      2:{ subst L. by apply elem_of_nil in Hx. }
      destruct Hrem' as (h & Hr & Hlevel & Hidx).
      pose proof (root_height_lt_indexed d _ _ _ Hr) as Hh.
      rewrite (Permutation_length Hidx) in Hh.
      destruct (remove_found rand_stream d Hd h fuel mt r x seed)
        as (root' & Hremove & Hafter); try done; try lia.
      { by rewrite Hidx. }
      eexists. split; [exact Hremove|]. split; [|done].
      unfold remaining. cbn [root]. unfold root_after in Hafter.
      destruct root' as [r'|].
      + destruct Hafter as (h' & _ & Hr' & Hlevel' & Hidx').
        exists h'. do 2 (split; [done|]). symmetry.
        apply filter_present; [done|]. by rewrite <- Hidx, Hidx'.
      + rewrite Hidx in Hafter.
        apply Permutation_nil_r. by apply filter_present.
    - rewrite bool_decide_eq_false_2 by done.
      rewrite (remove_absent fuel mt L x seed) by done.
      eexists. split; [reflexivity|]. split; [|done].
      rewrite filter_absent by done. unfold remaining in *. done. }
  destruct (IH fuel mt1 seed (filter (fun y => y <> x) L))
    as (mt' & Hrun & Hrem' & Hmin' & Hmax'); try done; try lia.
  { pose proof (length_filter (fun y => y <> x) L). lia. }
  rewrite Hremove, Hrun.
  destruct (set_removes (filter (fun y => y <> x) L) R) as [founds L'].
  cbn [fst snd] in *. exists mt'. split; [done|]. split; [done|]. split; congruence.
Qed.

Lemma remaining_indexed mt L : remaining d mt L -> indexed_objects mt ≡ₚ L.
Proof.
  unfold remaining, indexed_objects. destruct (root mt) as [r|]; [|by intros ->].
  by intros (h & _ & _ & Hidx).
Qed.

(** The tree reached by inserting [S] and then removing [R]. *)
Lemma run_adds_removes (S R : list Data) (fuel : nat) (mt : mtree) :
  root mt = None ->
  2 <= minNodeCapacity mt -> minNodeCapacity mt < maxNodeCapacity mt ->
  NoDup S -> (2 * length S + 6 <= fuel)%nat ->
  exists mt' seed',
    run rand_stream d fuel (map Add S ++ map Remove R) mt 0
    = Some (mt', (set_removes S R).1, seed')
    /\ remaining d mt' (set_removes S R).2
    /\ minNodeCapacity mt' = minNodeCapacity mt
    /\ maxNodeCapacity mt' = maxNodeCapacity mt.
Proof.
  intros Hroot Hmin Hmax Hnd Hfuel.
  destruct (run_adds rand_stream d Hd S fuel mt 0%nat [])
    as (mt1 & seed1 & Hrun1 & Hbuilt & Hmin1 & Hmax1).
  { unfold built. by rewrite Hroot. }
  { by rewrite app_nil_r. }
  { cbn [length]. lia. }
  { lia. }
  rewrite app_nil_r in Hbuilt.
  destruct (run_removes_set R fuel mt1 seed1 S) as (mt' & Hrun2 & Hrem & Hmin' & Hmax');
    try done; try lia.
  { by apply built_remaining. }
  exists mt', seed1. rewrite Hrun1. split; [done|]. split; [done|]. split; congruence.
Qed.


(** X4: on a tree reached by such insertions and removals, [remove] of an
    object that is not indexed returns [false] and leaves the tree as it
    is. *)
Theorem remove_absent_changes_nothing
    (S R : list Data) (fuel : nat) (mt mt' : mtree) (founds : list bool)
    (seed' : nat) (x : Data) (seed : nat) :
  root mt = None ->
  2 <= minNodeCapacity mt -> minNodeCapacity mt < maxNodeCapacity mt ->
  NoDup S -> (2 * length S + 6 <= fuel)%nat ->
  run rand_stream d fuel (map Add S ++ map Remove R) mt 0
    = Some (mt', founds, seed') ->
  x ∉ indexed_objects mt' ->
  remove rand_stream d fuel mt' x seed = Some (false, mt', seed).
Proof.
  intros Hroot Hmin Hmax Hnd Hfuel Hrun Hx.
  destruct (run_adds_removes S R fuel mt) as (mt1 & seed1 & Hrun1 & Hrem & _);
    try done.
  rewrite Hrun in Hrun1. injection Hrun1 as -> _ _.
  rewrite (remove_absent fuel mt1 (set_removes S R).2 x seed); [by destruct mt1|done| |].
  - by rewrite <- (remaining_indexed _ _ Hrem).
  - assert (length (set_removes S R).2 <= length S)%nat; [|lia].
    clear. revert S. induction R as [|y R IH]; intros S; [done|].
    cbn [set_removes]. specialize (IH (filter (fun z => z <> y) S)).
    destruct (set_removes (filter (fun z => z <> y) S) R) as [fs L'].
    cbn [snd] in *. pose proof (length_filter (fun z => z <> y) S). lia.
Qed.

End SetRefinement.

(** ** The nearest-neighbour query on a well-formed tree *)







Section Search.

Variable d : Data -> Data -> Z.
Hypothesis Hd : metric d.

Lemma metric_nonneg x y : 0 <= d x y.
Proof.
  destruct (decide (x = y)) as [->|Hne].
  - by rewrite (metric_refl d Hd).
  - pose proof (metric_pos d Hd x y Hne). lia.
Qed.



End Search.

Section Expand.

Variable d : Data -> Data -> Z.
Hypothesis Hd : metric d.





End Expand.

Section FetchNext.

Variable d : Data -> Data -> Z.
Hypothesis Hd : metric d.







End FetchNext.





Section Drain.

Variable d : Data -> Data -> Z.
Hypothesis Hd : metric d.




End Drain.

Section QueryReached.

Variable rand_stream : nat -> Z.
Variable d : Data -> Data -> Z.
Hypothesis Hd : metric d.








End QueryReached.



Section QueryVariants.

Variable rand_stream : nat -> Z.
Variable d : Data -> Data -> Z.
Hypothesis Hd : metric d.




End QueryVariants.

(** ** Witnesses *)


Lemma remove_absent_changes_nothing_witness :
  remove (rand_of []) line_distance 16 after_remove_tree 2 5
  = Some (false, after_remove_tree, 5%nat).
Proof.
  apply (remove_absent_changes_nothing (rand_of []) line_distance
           line_distance_metric [3; 1; 2; 5; 4] [2] 16 (mtree_new 2 3)
           after_remove_tree [true] 2%nat 2 5%nat).
  - reflexivity.
  - vm_compute. discriminate.
  - vm_compute. reflexivity.
  - apply (bool_decide_unpack _). vm_compute. exact I.
  - simpl. lia.
  - vm_compute. reflexivity.
  - apply (bool_decide_unpack _). vm_compute. exact I.
Defined.





(** ** The debug checks on the trees that insertions build *)

Lemma tight_set_dtp mt h c p : tight mt h (set_distanceToParent c p) <-> tight mt h c.
Proof. destruct h, c; done. Qed.

Lemma cap_ok_set_dtp mt h c p :
  cap_ok mt h (set_distanceToParent c p) <-> cap_ok mt h c.
Proof. destruct h, c; done. Qed.

Lemma Forall_map_set (P : Data * IndexItem -> Prop) k v (m : ChildrenMap) :
  Forall P m -> P (k, v) -> (forall w, P (k, w) -> True) ->
  Forall P (map_set k v m).
Proof.
  intros Hm Hv _. induction Hm as [|[k' w] m Hw Hm IH]; cbn [map_set].
  { by constructor. }
  destruct (k <? k'); [by repeat constructor|].
  destruct (Z.eqb_spec k k') as [->|?]; by constructor.
Qed.

Lemma Forall_map_erase (P : Data * IndexItem -> Prop) k (m : ChildrenMap) :
  Forall P m -> Forall P (map_erase k m).
Proof.
  intros Hm. rewrite Forall_forall in *. intros kv Hkv. apply Hm.
  eapply elem_of_sublist; [exact Hkv|apply map_erase_sublist].
Qed.

(** A node whose radius grows stays tight. *)
Lemma tight_node mt h cls data radius radius' dtp dtp' (children children' : ChildrenMap) :
  tight mt (S h) (Node cls data radius dtp children) ->
  radius <= radius' ->
  Forall (fun kv => kv ∈ children
                    \/ (tight mt h kv.2 /\ cap_ok mt h kv.2
                        /\ item_distanceToParent kv.2 + item_radius kv.2 <= radius'))
    children' ->
  tight mt (S h) (Node cls data radius' dtp' children').
Proof.
  intros [Hr Hall] Hle Hall'. cbn [tight item_radius item_children] in *.
  split; [lia|]. rewrite Forall_forall in *. intros kv Hkv.
  destruct (Hall' kv Hkv) as [Hin|Hnew]; [|done].
  destruct (Hall kv Hin) as (? & ? & ?). do 2 (split; [done|]). lia.
Qed.

(** [store_child] keeps a node tight. *)
Lemma store_child_tight mt h cls data radius dtp children c distance :
  tight mt (S h) (Node cls data radius dtp children) ->
  tight mt h c -> cap_ok mt h c ->
  tight mt (S h) (store_child (Node cls data radius dtp children) c distance).
Proof.
  intros Ht Hc Hcap. unfold store_child.
  cbn [set_children item_data item_children updateRadius].
  eapply tight_node; [exact Ht|lia|].
  apply Forall_map_set; [|right|done].
  - apply Forall_forall. intros kv Hkv. by left.
  - cbn [snd]. rewrite tight_set_dtp, cap_ok_set_dtp. do 2 (split; [done|]). lia.
Qed.

Section SplitTight.

Variable rand_stream : nat -> Z.
Variable d : Data -> Data -> Z.
Hypothesis Hd : metric d.

(** [addChild] of a child whose key is new is [store_child]. *)
Lemma addChild_ready_store keyed h fuel mt this c distance seed :
  (3 <= fuel)%nat ->
  inv d keyed (S h) this -> child_ready d keyed h c ->
  item_data c ∉ (item_children this).*1 ->
  addChild rand_stream d fuel mt this c distance seed
  = Some (store_child this c distance, seed).
Proof.
  intros Hfuel Hinv (Hci & _) Hfresh.
  destruct this as [|cls data radius dtp children]; [done|].
  apply addChild_fresh; [done| |done].
  rewrite (inv_is_entry d _ _ _ Hci). by destruct Hinv as (-> & _).
Qed.

Lemma addChild_ready_tight keyed h fuel mt this c distance seed this' seed' :
  (3 <= fuel)%nat ->
  inv d keyed (S h) this -> child_ready d keyed h c ->
  item_data c ∉ (item_children this).*1 ->
  tight mt (S h) this -> tight mt h c -> cap_ok mt h c ->
  addChild rand_stream d fuel mt this c distance seed = Some (this', seed') ->
  tight mt (S h) this'.
Proof.
  intros Hfuel Hinv Hc Hfresh Ht Htc Hcap Hadd.
  rewrite (addChild_ready_store keyed h) in Hadd by done.
  injection Hadd as <- _.
  destruct this as [|cls data radius dtp children]; [done|].
  by apply store_child_tight.
Qed.

(** The children moved into a new node keep it tight. *)
Lemma move_children_tight keyed h fuel mt p (P : list Data) :
  (3 <= fuel)%nat ->
  forall node children c seed res,
    inv d keyed (S h) node -> item_data node = p ->
    keys_ok children ->
    Forall (fun kv => child_ready d keyed h kv.2) children ->
    NoDup P -> (forall k, k ∈ P -> k ∈ children.*1) ->
    (forall k, k ∈ (item_children node).*1 -> k ∉ children.*1) ->
    cache_inv d c ->
    tight mt (S h) node ->
    Forall (fun kv => tight mt h kv.2 /\ cap_ok mt h kv.2) children ->
    move_children d (addChild rand_stream d fuel mt) p node P children c seed
      = Some res ->
    tight mt (S h) res.1.1.1.
Proof.
  intros Hfuel. induction P as [|data P IH];
    intros node children c seed res Hinv Hp Hkeys Hready HndP HP Hfresh Hc Ht Htc Hres.
  - cbn in Hres. by injection Hres as <-.
  - apply NoDup_cons in HndP as [HdataP HndP].
    assert (data ∈ children.*1) as Hin by (apply HP, list_elem_of_here).
    apply list_elem_of_fmap in Hin as ([k child] & Hk & Hin). simpl in Hk. subst k.
    pose proof (map_find_Some _ _ _ (proj1 Hkeys) Hin) as Hfind.
    cbn [move_children] in Hres. rewrite Hfind in Hres.
    pose proof (cached_distance d Hd c p data Hc) as Hdist.
    pose proof (call_inv d c p data Hc) as Hc'.
    destruct (Cache.call d c p data) as [distance c']. simpl in Hdist, Hc'.
    pose proof (keys_ok_elem _ _ _ Hkeys Hin) as Hcd.
    pose proof Hready as Hready'. rewrite Forall_forall in Hready'.
    destruct (Hready' _ Hin) as (Hci & Hcs & Hck). simpl in Hci, Hcs, Hck.
    pose proof Htc as Htc'. rewrite Forall_forall in Htc'.
    destruct (Htc' _ Hin) as (Htchild & Hcapchild). cbn [snd] in *.
    destruct node as [|ncls ndata nradius ndtp nchildren]; [done|].
    simpl in Hp. subst ndata.
    assert (item_data child ∉ nchildren.*1) as Hnew.
    { rewrite Hcd. intros Hx. apply (Hfresh data Hx).
      apply list_elem_of_fmap. by exists (data, child). }
    rewrite addChild_fresh in Hres; [|done| |done].
    2:{ rewrite (inv_is_entry d _ _ _ Hci). by destruct Hinv as (-> & _). }
    pose proof (store_child_tight mt h ncls p nradius ndtp nchildren child distance
                  Ht Htchild Hcapchild) as Ht1.
    destruct (store_child_inv d Hd keyed h ncls p nradius ndtp nchildren child
                distance Hinv Hci Hcs Hck Hnew)
      as (radius' & children1 & Hstore & _ & Hperm1 & Hinv1).
    { rewrite Hdist, Hcd. apply (metric_sym d Hd). }
    rewrite Hstore in Hres, Ht1.
    eapply (IH (Node ncls p radius' ndtp children1)
              (map_erase data children) c' seed res); try done.
    + by apply map_erase_keys_ok.
    + by apply Forall_map_erase.
    + intros k Hk. specialize (HP k (list_elem_of_further _ _ _ Hk)).
      apply list_elem_of_fmap in HP as ([k' v] & Hk' & Hkv). simpl in Hk'. subst k'.
      apply list_elem_of_fmap. exists (k, v). split; [done|].
      apply map_erase_elem; [done|]. intros ->. done.
    + simpl. intros k Hk. rewrite Hperm1 in Hk. simpl in Hk.
      apply elem_of_cons in Hk as [->|Hk].
      * rewrite Hcd. apply map_erase_key_gone, Hkeys.
      * intros Hk'. apply (Hfresh k Hk).
        eapply elem_of_sublist; [exact Hk'|].
        apply fmap_sublist, map_erase_sublist.
    + by apply Forall_map_erase.
Qed.

End SplitTight.

Section CheckMaxCapacityTight.

Variable rand_stream : nat -> Z.
Variable d : Data -> Data -> Z.
Hypothesis Hd : metric d.

Lemma tight_children mt h cls data radius dtp children :
  tight mt (S h) (Node cls data radius dtp children) ->
  Forall (fun kv => tight mt h kv.2 /\ cap_ok mt h kv.2) children.
Proof.
  intros [_ Hall]. eapply Forall_impl; [exact Hall|]. by intros kv (? & ? & _).
Qed.

Lemma new_node_tight mt h cls p : tight mt (S h) (new_node cls p).
Proof. cbn. split; [done|constructor]. Qed.

(** The two halves of a node that overflows by one child. *)
Lemma checkMaxCapacity_split_tight h fuel mt cls data radius dtp children seed
    this' N0 N1 seed' :
  (4 <= fuel)%nat -> 3 <= maxNodeCapacity mt ->
  2 * minNodeCapacity mt - 1 <= maxNodeCapacity mt ->
  inv d true (S h) (Node cls data radius dtp children) ->
  tight mt (S h) (Node cls data radius dtp children) ->
  map_size children = maxNodeCapacity mt + 1 ->
  checkMaxCapacity rand_stream d fuel mt (Node cls data radius dtp children) seed
    = Some (this', SplitNodeReplacement N0 N1, seed') ->
  tight mt (S h) N0 /\ tight mt (S h) N1
  /\ cap_ok mt (S h) N0 /\ cap_ok mt (S h) N1.
Proof.
  intros Hfuel Hmax Hcaps Hinv Ht Hsize Hres.
  pose proof (inv_children_ready d _ _ _ _ _ _ _ Hinv) as Hready.
  pose proof (tight_children _ _ _ _ _ _ _ Ht) as Htc.
  destruct Hinv as (Hleaf & Hkeys & Hall & Hcov).
  destruct fuel as [|fuel]; [lia|]. rewrite checkMaxCapacity_unfold in Hres.
  destruct (Z.gtb_spec (map_size children) (maxNodeCapacity mt)) as [_|?]; [|lia].
  destruct (key_set_spec children (keys_ok_NoDup _ Hkeys)) as (Hset & Helem & Hlen).
  unfold map_size in Hsize.
  destruct (split_function_spec rand_stream d (key_set children) seed
              (metric_refl d Hd) (metric_pos d Hd) Hset)
    as ([p1 p2] & [P1 P2] & c & seed1 & Hsplit & Hok & Hc); [lia|].
  rewrite Hsplit in Hres. cbn [fst snd] in Hres.
  destruct Hok as (Hne & Hp1 & Hp2 & HsetP1 & HsetP2 & Hdisj & Hunion & Hp1P & Hp2P
                   & Hsizes). cbn [fst snd] in *.
  destruct (new_node_inv d true h cls p1 Hleaf) as [Hn0 Hn0c].
  destruct (new_node_inv d true h cls p2 Hleaf) as [Hn1 Hn1c].
  (* the first partition *)
  destruct (move_children_spec rand_stream d Hd true h fuel mt p1 P1 ltac:(lia)
              (newSplitNodeReplacement cls p1) children c seed1)
    as (M0 & children0 & c0 & moved0 & Hmove0 & Hc0 & HinvN0 & HdataN0 & HclsN0
        & Hperm0 & Hmoved0 & Hidx0 & Hlen0 & Hkeys0 & Hfresh0); try done.
  { by apply is_set_NoDup. }
  { intros k Hk. apply Helem, Hunion. by left. }
  { intros k Hk. by apply elem_of_nil in Hk. }
  assert (tight mt (S h) M0) as Ht0.
  { apply (move_children_tight rand_stream d Hd true h fuel mt p1 P1 ltac:(lia)
             (newSplitNodeReplacement cls p1) children c seed1
             (M0, children0, c0, seed1)); try done.
    - by apply is_set_NoDup.
    - intros k Hk. apply Helem, Hunion. by left.
    - intros k Hk. by apply elem_of_nil in Hk. }
  rewrite Hmove0 in Hres.
  (* the second partition *)
  assert (children.*1 ≡ₚ P1 ++ children0.*1) as Hkeys_perm.
  { rewrite Hperm0, fmap_app. by rewrite Hmoved0. }
  assert (Forall (fun kv => child_ready d true h kv.2) children0) as Hready0.
  { apply Forall_forall. intros kv Hkv. rewrite Forall_forall in Hready.
    apply Hready. rewrite Hperm0. apply elem_of_app. by right. }
  assert (forall k, k ∈ P2 -> k ∈ children0.*1) as HP2.
  { intros k Hk.
    assert (k ∈ children.*1) as Hin by (apply Helem, Hunion; by right).
    rewrite Hkeys_perm in Hin. apply elem_of_app in Hin as [Hin|Hin]; [|done].
    by destruct (Hdisj k Hin). }
  assert (Forall (fun kv => tight mt h kv.2 /\ cap_ok mt h kv.2) children0) as Htc0.
  { apply Forall_forall. intros kv Hkv. rewrite Forall_forall in Htc.
    apply Htc. rewrite Hperm0. apply elem_of_app. by right. }
  destruct (move_children_spec rand_stream d Hd true h fuel mt p2 P2 ltac:(lia)
              (newSplitNodeReplacement cls p2) children0 c0 seed1)
    as (M1 & children1 & c1 & moved1 & Hmove1 & Hc1 & HinvN1 & HdataN1 & HclsN1
        & Hperm1 & Hmoved1 & Hidx1 & Hlen1 & Hkeys1 & Hfresh1); try done.
  { by apply is_set_NoDup. }
  { intros k Hk. by apply elem_of_nil in Hk. }
  assert (tight mt (S h) M1) as Ht1.
  { apply (move_children_tight rand_stream d Hd true h fuel mt p2 P2 ltac:(lia)
             (newSplitNodeReplacement cls p2) children0 c0 seed1
             (M1, children1, c1, seed1)); try done.
    - by apply is_set_NoDup.
    - intros k Hk. by apply elem_of_nil in Hk. }
  rewrite Hmove1 in Hres.
  assert (P1 ++ P2 ≡ₚ key_set children) as Hparts.
  { apply NoDup_Permutation.
    - apply NoDup_app. split; [by apply is_set_NoDup|].
      split; [done|by apply is_set_NoDup].
    - by apply is_set_NoDup.
    - intros x. rewrite elem_of_app. symmetry. apply Hunion. }
  assert (length P1 + length P2 = length children)%nat as Hparts_len.
  { rewrite <- Hlen, <- (Permutation_length Hparts), length_app. done. }
  destruct children1 as [|? ?]; [|done].
  injection Hres as _ <- <- _.
  unfold newSplitNodeReplacement, new_node in Hlen0, Hlen1.
  cbn [item_children length] in Hlen0, Hlen1.
  do 2 (split; [done|]). unfold cap_ok, map_size. rewrite Hlen0, Hlen1. lia.
Qed.

End CheckMaxCapacityTight.

Section AddDataTight.

Variable rand_stream : nat -> Z.
Variable d : Data -> Data -> Z.
Hypothesis Hd : metric d.

Lemma map_set_length k v v0 (m : ChildrenMap) :
  StronglySorted Z.lt m.*1 -> map_find k m = Some v0 ->
  length (map_set k v m) = length m.
Proof.
  intros Hs Hfind. rewrite (Permutation_length (map_set_replace k v v0 m Hs Hfind)).
  by rewrite (Permutation_length (map_erase_perm _ _ _ Hfind)).
Qed.

(** A child replaced by a tight version of itself. *)
Lemma replace_child_tight mt h cls data radius dtp children c' :
  tight mt (S (S h)) (Node cls data radius dtp children) ->
  tight mt (S h) c' -> cap_ok mt (S h) c' ->
  tight mt (S (S h))
    (updateRadius (set_children (Node cls data radius dtp children)
                     (map_set (item_data c') c' children)) c').
Proof.
  intros Ht Hc Hcap. cbn [set_children updateRadius].
  eapply tight_node; [exact Ht|lia|].
  apply Forall_map_set; [|right|done].
  - apply Forall_forall. intros kv Hkv. by left.
  - cbn [snd]. do 2 (split; [done|]). lia.
Qed.

(** A child replaced by the two halves it split into. *)
Lemma child_split_tight h fuel mt cls data radius dtp children c c0 N0 N1 x seed
    this' seed' :
  (3 <= fuel)%nat ->
  let this := Node cls data radius dtp children in
  inv d true (S (S h)) this ->
  NoDup (indexed this) -> x ∉ indexed this ->
  (item_data c, c) ∈ children ->
  halves d h c N0 N1 x ->
  tight mt (S (S h)) this ->
  tight mt (S h) N0 -> tight mt (S h) N1 ->
  cap_ok mt (S h) N0 -> cap_ok mt (S h) N1 ->
  after_child_addData rand_stream d fuel mt this c
    (Some (c0, SplitNodeReplacement N0 N1, seed)) = Some (this', seed') ->
  tight mt (S (S h)) this'
  /\ length (item_children this') = S (length children).
Proof.
  intros Hfuel this Hinv Hnd Hx Hin (HN0 & HN1 & Hidx & Hne) Ht Ht0 Ht1 Hcap0 Hcap1
    Hres.
  pose proof Hinv as (Hleaf & Hkeys & Hall & Hcov).
  pose proof (map_find_Some _ _ _ (proj1 Hkeys) Hin) as Hfind.
  pose proof (map_erase_perm _ _ _ Hfind) as Hperm.
  unfold this in Hnd, Hx. rewrite indexed_node in Hnd, Hx.
  rewrite Forall_forall in Hall.
  assert (forall N, item_data N ∈ indexed N ->
                    (forall y, y ∈ indexed N -> y ∈ x :: indexed c) ->
                    item_data N ∉ (map_erase (item_data c) children).*1) as Hnew.
  { intros N HNkey HNsub Hk.
    apply list_elem_of_fmap in Hk as ([k s] & Hks & Hs). cbn [fst] in Hks. subst k.
    assert ((item_data N, s) ∈ children) as Hs'.
    { eapply elem_of_sublist; [exact Hs|apply map_erase_sublist]. }
    destruct (Hall _ Hs') as (_ & _ & _ & Hskey). cbn [snd] in Hskey.
    pose proof (keys_ok_elem _ _ _ Hkeys Hs') as Hsd.
    specialize (Hskey eq_refl). rewrite Hsd in Hskey.
    specialize (HNsub _ HNkey).
    apply elem_of_cons in HNsub as [HNx|HNc].
    - apply Hx. rewrite <- HNx. eapply elem_of_indexed_in; [exact Hs'|done].
    - eapply (indexed_siblings_disjoint children (item_data c) c Hnd Hfind);
        [exact Hs|exact Hskey|exact HNc]. }
  pose proof HN0 as (HN0i & HN0s & HN0k). pose proof HN1 as (HN1i & HN1s & HN1k).
  specialize (HN0k eq_refl). specialize (HN1k eq_refl).
  unfold after_child_addData in Hres.
  cbn [item_children item_data set_children this] in Hres.
  set (erased := Node cls data radius dtp (map_erase (item_data c) children)) in *.
  assert (inv d true (S (S h)) erased) as Hinv_e by (by apply inv_erase).
  assert (tight mt (S (S h)) erased) as Ht_e.
  { destruct Ht as [Hr Htall]. split; [done|]. by apply Forall_map_erase. }
  assert (item_data N0 ∉ (item_children erased).*1) as Hfresh0.
  { cbn [item_children erased]. apply Hnew; [done|]. intros y Hy. rewrite <- Hidx.
    apply elem_of_app. by left. }
  destruct (addChild_ready rand_stream d Hd true (S h) fuel mt erased
              N0 (d data (item_data N0)) seed)
    as (this1 & Hadd1 & Hinv1 & Hdata1 & Hdtp1 & Hcls1 & _ & Hch1 & Hidx1); try done.
  { apply (metric_sym d Hd). }
  pose proof (addChild_ready_tight rand_stream d true (S h) fuel mt erased N0 _ seed
                this1 seed Hfuel Hinv_e HN0 Hfresh0 Ht_e Ht0 Hcap0 Hadd1) as Ht_1.
  rewrite Hadd1 in Hres. cbn [item_data erased] in Hdata1.
  assert (item_data N1 ∉ (item_children this1).*1) as Hfresh1.
  { rewrite Hch1. cbn [fmap list_fmap fst]. apply not_elem_of_cons. split; [done|].
    apply Hnew; [done|]. intros y Hy. rewrite <- Hidx. apply elem_of_app. by right. }
  destruct (addChild_ready rand_stream d Hd true (S h) fuel mt this1 N1
              (d data (item_data N1)) seed)
    as (this2 & Hadd2 & Hinv2 & Hdata2 & Hdtp2 & Hcls2 & _ & Hch2 & Hidx2); try done.
  { rewrite Hdata1. apply (metric_sym d Hd). }
  pose proof (addChild_ready_tight rand_stream d true (S h) fuel mt this1 N1 _ seed
                this2 seed Hfuel Hinv1 HN1 Hfresh1 Ht_1 Ht1 Hcap1 Hadd2) as Ht_2.
  rewrite Hadd2 in Hres. injection Hres as <- _. split; [done|].
  rewrite (Permutation_length Hch2). cbn [length].
  rewrite (Permutation_length Hch1). cbn [length item_children erased].
  rewrite (Permutation_length Hperm). cbn [length]. lia.
Qed.

End AddDataTight.

Section AddDataTightSpec.

Variable rand_stream : nat -> Z.
Variable d : Data -> Data -> Z.
Hypothesis Hd : metric d.

Lemma doAddData_tight h :
  (forall h', h = S h' ->
   forall fuel mt this x seed this' sig seed',
     (2 * h' + 6 <= fuel)%nat -> 3 <= maxNodeCapacity mt ->
     2 * minNodeCapacity mt - 1 <= maxNodeCapacity mt ->
     inv d true (S h') this -> NoDup (indexed this) -> x ∉ indexed this ->
     (2 <= length (item_children this))%nat ->
     tight mt (S h') this ->
     map_size (item_children this) <= maxNodeCapacity mt ->
     addData rand_stream d fuel mt this x (d (item_data this) x) seed
       = Some (this', sig, seed') ->
     added_tight mt h' this' sig) ->
  forall fuel mt this x seed this' seed',
    (2 * h + 5 <= fuel)%nat -> 3 <= maxNodeCapacity mt ->
    2 * minNodeCapacity mt - 1 <= maxNodeCapacity mt ->
    inv d true (S h) this -> NoDup (indexed this) -> x ∉ indexed this ->
    (h <> O -> item_children this <> []) ->
    tight mt (S h) this ->
    doAddData rand_stream d fuel mt this x (d (item_data this) x) seed
      = Some (this', seed') ->
    tight mt (S h) this'
    /\ (length (item_children this') <= S (length (item_children this)))%nat.
Proof.
  intros IH fuel mt this x seed this' seed' Hfuel Hmax Hcaps Hinv Hnd Hx Hne Ht Hres.
  destruct fuel as [|fuel]; [lia|].
  destruct this as [|cls data radius dtp children]; [done|].
  rewrite doAddData_unfold in Hres. cbn [item_data item_children] in *.
  pose proof Hinv as (Hleaf & Hkeys & Hall & Hcov).
  rewrite indexed_node in Hnd, Hx.
  destruct h as [|h].
  - (* a leaf *)
    rewrite Hleaf in Hres. rewrite bool_decide_eq_true_2 in Hres by done.
    assert (x ∉ children.*1) as Hfresh.
    { intros Hk. apply Hx. by eapply leaf_keys_indexed. }
    rewrite (proj2 (map_find_None x children) Hfresh) in Hres.
    injection Hres as <- _. split.
    + by apply store_child_tight.
    + unfold store_child. cbn [set_children updateRadius item_children new_entry
        item_data].
      by rewrite (Permutation_length (map_set_perm x _ children Hfresh)).
  - (* an internal node *)
    rewrite Hleaf in Hres. rewrite bool_decide_eq_false_2 in Hres by done.
    destruct (choose_child_spec d x children) as
      (chosen & c & Hchoose & Hnode & Hdist & Hin & _); [by apply Hne| |].
    { eapply Forall_impl; [exact Hall|]. intros kv (Hi & _).
      by rewrite (inv_is_entry d _ _ _ Hi). }
    rewrite Hchoose, Hnode, Hdist in Hres.
    apply list_elem_of_fmap in Hin as ([k c'] & Hc & Hin). cbn [snd] in Hc. subst c'.
    pose proof (keys_ok_elem _ _ _ Hkeys Hin) as Hk. subst k.
    pose proof Hall as Hall'. rewrite Forall_forall in Hall'.
    destruct (Hall' _ Hin) as (Hci & Hcdtp & Hcshape & Hckey). cbn [snd] in *.
    pose proof Ht as [Hr Htall]. cbn [item_children item_radius] in Htall.
    rewrite Forall_forall in Htall.
    destruct (Htall _ Hin) as (Htc & Hcapc & _). cbn [snd] in *.
    assert (NoDup (indexed c)) as Hndc by (by eapply NoDup_indexed_child).
    assert (x ∉ indexed c) as Hxc.
    { intros Hxc. apply Hx. by eapply elem_of_indexed_in. }
    destruct (addData_spec rand_stream d Hd h fuel mt c x seed)
      as (c' & sig & seed1 & Hadd & Hgs); try done; try lia.
    { intros _ Hnil. destruct Hcshape as [_ Hlen]. rewrite Hnil in Hlen.
      simpl in Hlen. lia. }
    assert (added_tight mt h c' sig) as Hat.
    { eapply (IH h eq_refl fuel mt c x seed c' sig seed1); try done; try lia.
      - by destruct Hcshape.
      - by destruct Hcapc. }
    rewrite Hadd in Hres.
    destruct Hgs as [[-> Hgrown]|(N0 & N1 & -> & Hhalves)].
    + cbn [after_child_addData] in Hres. injection Hres as <- _.
      destruct Hat as [Htc' Hsize'].
      destruct Hgrown as (_ & _ & Hdata' & _ & _ & Hlen').
      split.
      * apply replace_child_tight; [done|done|]. split; [|done].
        destruct Hcapc as [Hlow _]. unfold map_size in *. lia.
      * cbn [set_children updateRadius item_children].
        rewrite (map_set_length _ _ c); [lia|apply Hkeys|].
        rewrite Hdata'. by apply map_find_Some; [apply Hkeys|].
    + destruct Hat as (Ht0 & Ht1 & Hcap0 & Hcap1).
      destruct (child_split_tight rand_stream d Hd h (S fuel) mt cls data radius dtp
                  children c c' N0 N1 x seed1 this' seed') as [Ht' Hlen'];
        try done; try lia.
      * by rewrite indexed_node.
      * by rewrite indexed_node.
      * split; [done|]. lia.
Qed.

Lemma addData_tight h :
  forall fuel mt this x seed this' sig seed',
    (2 * h + 6 <= fuel)%nat -> 3 <= maxNodeCapacity mt ->
    2 * minNodeCapacity mt - 1 <= maxNodeCapacity mt ->
    inv d true (S h) this -> NoDup (indexed this) -> x ∉ indexed this ->
    (h <> O -> item_children this <> []) ->
    tight mt (S h) this ->
    map_size (item_children this) <= maxNodeCapacity mt ->
    addData rand_stream d fuel mt this x (d (item_data this) x) seed
      = Some (this', sig, seed') ->
    added_tight mt h this' sig.
Proof.
  induction h as [|h IH];
    intros fuel mt this x seed this' sig seed' Hfuel Hmax Hcaps Hinv Hnd Hx Hne Ht
      Hsize Hres;
    (destruct fuel as [|fuel]; [lia|]); rewrite addData_unfold in Hres;
    destruct (doAddData rand_stream d fuel mt this x (d (item_data this) x) seed)
      as [[this1 seed1]|] eqn:Hdo; try done.
  - destruct (doAddData_spec rand_stream d Hd 0) with (fuel := fuel) (mt := mt)
      (this := this) (x := x) (seed := seed) as (this1' & seed1' & Hdo' & Hgrown);
      try done; try lia.
    rewrite Hdo in Hdo'. injection Hdo' as <- <-.
    destruct (doAddData_tight 0) with (fuel := fuel) (mt := mt) (this := this)
      (x := x) (seed := seed) (this' := this1) (seed' := seed1) as [Ht1 Hlen1];
      try done; try lia.
    destruct Hgrown as (Hinv1 & _).
    destruct this1 as [|cls1 data1 radius1 dtp1 children1]; [done|].
    cbn [item_children] in *.
    destruct (Z_le_gt_dec (map_size children1) (maxNodeCapacity mt)) as [Hfit|Hover].
    + rewrite (checkMaxCapacity_fits rand_stream d) in Hres by (done || lia).
      injection Hres as <- <- _. done.
    + destruct (checkMaxCapacity_splits rand_stream d Hd 0 (S fuel) mt cls1 data1
                  radius1 dtp1 children1 seed1)
        as (this2 & N0 & N1 & seed2 & Hcheck & _); try done; try lia.
      rewrite Hcheck in Hres. injection Hres as <- <- _.
      eapply (checkMaxCapacity_split_tight rand_stream d Hd 0 (S fuel) mt cls1 data1
                radius1 dtp1 children1 seed1 this2 N0 N1 seed2); try done; try lia.
      unfold map_size in *. lia.
  - destruct (doAddData_spec rand_stream d Hd (S h)) with (fuel := fuel) (mt := mt)
      (this := this) (x := x) (seed := seed) as (this1' & seed1' & Hdo' & Hgrown);
      try done; try lia.
    { intros h' [= <-] fuel' mt' c x' seed0 Hf Hm Hi Hn Hx' Hlen.
      apply (addData_spec rand_stream d Hd); try done; try lia.
      intros _ Hnil. rewrite Hnil in Hlen. simpl in Hlen. lia. }
    rewrite Hdo in Hdo'. injection Hdo' as <- <-.
    destruct (doAddData_tight (S h)) with (fuel := fuel) (mt := mt) (this := this)
      (x := x) (seed := seed) (this' := this1) (seed' := seed1) as [Ht1 Hlen1];
      try done; try lia.
    { intros h' [= <-] fuel' mt' c x' seed0 c' sig' seed0' Hf Hm Hcp Hi Hn Hx' Hlen
        Htc Hsz Hadd.
      eapply (IH fuel' mt' c x' seed0 c' sig' seed0'); try done; try lia.
      intros _ Hnil. rewrite Hnil in Hlen. simpl in Hlen. lia. }
    destruct Hgrown as (Hinv1 & _).
    destruct this1 as [|cls1 data1 radius1 dtp1 children1]; [done|].
    cbn [item_children] in *.
    destruct (Z_le_gt_dec (map_size children1) (maxNodeCapacity mt)) as [Hfit|Hover].
    + rewrite (checkMaxCapacity_fits rand_stream d) in Hres by (done || lia).
      injection Hres as <- <- _. done.
    + destruct (checkMaxCapacity_splits rand_stream d Hd (S h) (S fuel) mt cls1 data1
                  radius1 dtp1 children1 seed1)
        as (this2 & N0 & N1 & seed2 & Hcheck & _); try done; try lia.
      rewrite Hcheck in Hres. injection Hres as <- <- _.
      eapply (checkMaxCapacity_split_tight rand_stream d Hd (S h) (S fuel) mt cls1
                data1 radius1 dtp1 children1 seed1 this2 N0 N1 seed2);
        try done; try lia.
      unfold map_size in *. lia.
Qed.

End AddDataTightSpec.

(** The capacity invariants depend on the two capacities of the tree
    only. *)
Lemma tight_caps mt mt' h :
  minNodeCapacity mt' = minNodeCapacity mt ->
  maxNodeCapacity mt' = maxNodeCapacity mt ->
  forall i, tight mt h i -> tight mt' h i.
Proof.
  intros Hmin Hmax. induction h as [|h IH]; intros i; [done|].
  cbn [tight]. intros [Hr Hall]. split; [done|].
  eapply Forall_impl; [exact Hall|]. intros kv (Ht & Hcap & Hle).
  split; [by apply IH|]. split; [|done].
  destruct h; [done|]. cbn [cap_ok] in *. by rewrite Hmin, Hmax.
Qed.

Lemma root_tight_caps mt mt' h r :
  minNodeCapacity mt' = minNodeCapacity mt ->
  maxNodeCapacity mt' = maxNodeCapacity mt ->
  root_tight mt h r -> root_tight mt' h r.
Proof.
  intros Hmin Hmax (Ht & Hsize & Hdtp). split; [by apply (tight_caps mt)|].
  split; [by rewrite Hmax|done].
Qed.

Section AddTight.

Variable rand_stream : nat -> Z.
Variable d : Data -> Data -> Z.
Hypothesis Hd : metric d.

(** [add] into the empty tree. *)
Lemma add_first_tight fuel mt x seed :
  (6 <= fuel)%nat -> 3 <= maxNodeCapacity mt -> root mt = None ->
  exists r,
    add rand_stream d fuel mt x seed
      = Some (mk_mtree (minNodeCapacity mt) (maxNodeCapacity mt) (Some r), seed)
    /\ root_ok d true 0 r /\ indexed r = [x]
    /\ root_tight (mk_mtree (minNodeCapacity mt) (maxNodeCapacity mt) (Some r)) 0 r.
Proof.
  intros Hfuel Hmax Hroot.
  destruct (add_first rand_stream d Hd fuel mt x seed) as (r & Hadd & Hr & Hidx);
    try done.
  exists r. do 3 (split; [done|]).
  unfold add in Hadd. rewrite Hroot in Hadd.
  destruct fuel as [|[|fuel]]; try lia.
  unfold new_node in Hadd. rewrite addData_unfold, doAddData_unfold in Hadd.
  cbn [is_leaf_class map_find] in Hadd.
  unfold store_child in Hadd. cbn [item_data new_entry set_distanceToParent map_set
    item_radius item_distanceToParent item_children set_children updateRadius] in Hadd.
  rewrite checkMaxCapacity_fits in Hadd; [|lia|unfold map_size; simpl; lia].
  injection Hadd as <-.
  split; [|split; [cbn; unfold map_size; simpl; lia|done]].
  cbn. split; [lia|]. repeat constructor. simpl. lia.
Qed.

(** [add] into a tree that does not index [x] yet. *)
Lemma add_next_tight h fuel mt r x seed :
  (2 * h + 6 <= fuel)%nat -> 3 <= maxNodeCapacity mt ->
  2 * minNodeCapacity mt - 1 <= maxNodeCapacity mt ->
  root mt = Some r -> root_ok d true h r ->
  NoDup (indexed r) -> x ∉ indexed r -> root_tight mt h r ->
  exists r' seed' h',
    add rand_stream d fuel mt x seed
      = Some (mk_mtree (minNodeCapacity mt) (maxNodeCapacity mt) (Some r'), seed')
    /\ root_ok d true h' r' /\ indexed r' ≡ₚ x :: indexed r
    /\ root_tight mt h' r'.
Proof.
  intros Hfuel Hmax Hcaps Hroot (Hinv & Hcls & Hlen1 & Hlen2) Hnd Hx (Ht & Hsize & Hdtp).
  unfold add. rewrite Hroot. cbn zeta. rewrite (metric_sym d Hd x).
  assert (h <> O -> item_children r <> []) as Hne.
  { intros Hh Hnil. specialize (Hlen2 Hh). rewrite Hnil in Hlen2. simpl in Hlen2. lia. }
  destruct (addData_spec rand_stream d Hd h fuel mt r x seed)
    as (r1 & sig & seed1 & Hadd & Hres); try done.
  pose proof (addData_tight rand_stream d Hd h fuel mt r x seed r1 sig seed1
                Hfuel Hmax Hcaps Hinv Hnd Hx Hne Ht Hsize Hadd) as Hat.
  rewrite Hadd. destruct Hres as [[-> Hgrown]|(N0 & N1 & -> & Hhalves)].
  - destruct Hgrown as (Hinv1 & Hidx & _ & Hdtp1 & Hcls1 & Hlen).
    destruct Hat as [Ht1 Hsize1].
    exists r1, seed1, h. split; [done|]. split; [|split; [done|]].
    + split; [done|]. split; [by apply Hcls1|]. split; [lia|].
      intros Hh. specialize (Hlen2 Hh). lia.
    + split; [done|]. split; [done|]. by rewrite Hdtp1.
  - destruct Hhalves as (HN0 & HN1 & Hidx & Hne01).
    destruct Hat as (Ht0 & Ht1 & Hcap0 & Hcap1).
    set (newRoot := new_node RootNode (item_data r)).
    assert (inv d true (S (S h)) newRoot) as HnewRoot by (by apply fresh_node_inv).
    destruct (addChild_ready rand_stream d Hd true (S h) fuel mt newRoot N0
                (d (item_data newRoot) (item_data N0)) seed1)
      as (root1 & Hadd1 & Hinv1 & Hdata1 & Hdtp1 & Hcls1 & _ & Hch1 & Hidx1);
      try done; try lia.
    { cbn. apply not_elem_of_nil. }
    { apply (metric_sym d Hd). }
    rewrite Hadd1.
    assert (tight mt (S (S h)) root1) as Htr1.
    { eapply (addChild_ready_tight rand_stream d true (S h) fuel mt newRoot N0);
        try done; try lia.
      cbn. apply not_elem_of_nil. }
    destruct (addChild_ready rand_stream d Hd true (S h) fuel mt root1 N1
                (d (item_data root1) (item_data N1)) seed1)
      as (root2 & Hadd2 & Hinv2 & Hdata2 & Hdtp2 & Hcls2 & _ & Hch2 & Hidx2);
      try done; try lia.
    { rewrite Hch1. cbn. intros Hin. apply list_elem_of_singleton in Hin. done. }
    { apply (metric_sym d Hd). }
    rewrite Hadd2.
    assert (tight mt (S (S h)) root2) as Htr2.
    { eapply (addChild_ready_tight rand_stream d true (S h) fuel mt root1 N1);
        try done; try lia.
      rewrite Hch1. cbn. intros Hin. apply list_elem_of_singleton in Hin. done. }
    exists root2, seed1, (S h). split; [done|]. split; [|split].
    + split; [done|]. split; [by apply Hcls2, Hcls1|].
      rewrite (Permutation_length Hch2). cbn [length]. split; [lia|].
      intros _. rewrite (Permutation_length Hch1). cbn [length]. lia.
    + rewrite Hidx2, Hidx1. unfold newRoot, new_node. rewrite indexed_node.
      cbn. rewrite app_nil_r, <- Hidx. apply Permutation_app_comm.
    + split; [done|]. split.
      * unfold map_size. rewrite (Permutation_length Hch2). cbn [length].
        rewrite (Permutation_length Hch1). cbn. lia.
      * by rewrite Hdtp2, Hdtp1.
Qed.

Lemma run_adds_tight (S : list Data) :
  forall fuel mt seed L,
    built_tight d mt L -> NoDup (S ++ L) ->
    (2 * (length S + length L) + 6 <= fuel)%nat ->
    3 <= maxNodeCapacity mt ->
    2 * minNodeCapacity mt - 1 <= maxNodeCapacity mt ->
    exists mt' seed',
      (forall ops, run rand_stream d fuel (map Add S ++ ops) mt seed
                   = run rand_stream d fuel ops mt' seed')
      /\ built_tight d mt' (S ++ L)
      /\ minNodeCapacity mt' = minNodeCapacity mt
      /\ maxNodeCapacity mt' = maxNodeCapacity mt.
Proof.
  induction S as [|x S IH]; intros fuel mt seed L Hbuilt Hnd Hfuel Hmax Hcaps.
  { exists mt, seed. done. }
  cbn [app length] in *. apply NoDup_cons in Hnd as [Hx Hnd].
  assert (exists mt1 seed1,
            add rand_stream d fuel mt x seed = Some (mt1, seed1)
            /\ built_tight d mt1 (x :: L)
            /\ minNodeCapacity mt1 = minNodeCapacity mt
            /\ maxNodeCapacity mt1 = maxNodeCapacity mt)
    as (mt1 & seed1 & Hadd & Hbuilt1 & Hmin1 & Hmax1).
  { unfold built_tight in Hbuilt. destruct (root mt) as [r|] eqn:Hroot.
    - destruct Hbuilt as (h & Hr & Hidx & Hrt).
      pose proof (root_height_lt_indexed d _ _ _ Hr) as Hh.
      rewrite (Permutation_length Hidx) in Hh.
      destruct (add_next_tight h fuel mt r x seed)
        as (r' & seed' & h' & Hadd & Hr' & Hidx' & Hrt'); try done; try lia.
      { pose proof Hnd as Hnd'. apply NoDup_app in Hnd' as (_ & _ & HL).
        by rewrite Hidx. }
      { rewrite Hidx. intros HxL. apply Hx, elem_of_app. by right. }
      eexists _, _. split; [exact Hadd|]. split; [|done].
      unfold built_tight. cbn [root]. exists h'. split; [done|].
      split; [by rewrite Hidx', Hidx|]. by apply (root_tight_caps mt).
    - subst L.
      destruct (add_first_tight fuel mt x seed) as (r' & Hadd & Hr' & Hidx' & Hrt');
        try done; try lia.
      eexists _, _. split; [exact Hadd|]. split; [|done].
      unfold built_tight. cbn [root]. exists 0%nat. split; [done|].
      split; [by rewrite Hidx'|done]. }
  destruct (IH fuel mt1 seed1 (x :: L)) as (mt' & seed' & Hrun & Hbuilt' & Hmin' & Hmax');
    try done.
  { by rewrite <- Permutation_middle; apply NoDup_cons. }
  { cbn [length]. lia. }
  { by rewrite Hmax1. }
  { by rewrite Hmin1, Hmax1. }
  exists mt', seed'. split.
  { intros ops. cbn [map app run]. by rewrite Hadd. }
  split; [|split; congruence].
  unfold built_tight in *. destruct (root mt') as [r|].
  - destruct Hbuilt' as (h & Hr & Hidx & Hrt). exists h. split; [done|].
    split; [|done]. by rewrite Hidx, <- Permutation_middle.
  - by destruct S.
Qed.

End AddTight.

Section CheckSpec.

Variable d : Data -> Data -> Z.
Hypothesis Hd : metric d.

(** A node whose own assertions hold and whose children all pass the
    checks passes them. *)
Lemma check_node mt keyed h cls data radius dtp children :
  inv d keyed (S h) (Node cls data radius dtp children) ->
  tight mt (S h) (Node cls data radius dtp children) ->
  _checkDistanceToParent (Node cls data radius dtp children) = true ->
  _checkMinCapacity mt cls children = true ->
  _checkMaxCapacity mt children = true ->
  children <> [] ->
  Forall (fun kv => _check d mt kv.2 = Some (S h)) children ->
  _check d mt (Node cls data radius dtp children) = Some (S (S h)).
Proof.
  intros (Hleaf & [_ Hkeys] & Hall & _) [Hr Htall] Hdtp Hmin Hmax Hne Hchk.
  cbn [_check]. rewrite Hdtp, Hmin, Hmax.
  cbn [item_radius item_children] in *. unfold _checkRadius. cbn [item_radius].
  rewrite (proj2 (Z.leb_le _ _) Hr). cbn [andb].
  assert (forall known,
             (known = None /\ children <> []) \/ known = Some (S h) ->
             (fix over (l : ChildrenMap) (childHeight : option nat) : option nat :=
                match l with
                | [] =>
                    match childHeight with
                    | Some height => Some (S height)
                    | None => None
                    end
                | (key, child) :: l' =>
                    if (item_data child =? key) && _checkChildClass cls child
                       && _checkChildMetrics d data radius child
                    then
                      match _check d mt child with
                      | None => None
                      | Some height =>
                          over l' (match childHeight with
                                   | Some known => Some known
                                   | None => Some height
                                   end)
                      end
                    else None
                end) children known = Some (S (S h))) as Hover.
  { clear Hne Hmin Hmax.
    induction children as [|[key child] l IH]; intros known Hknown.
    - by destruct Hknown as [[_ ?]| ->].
    - apply Forall_cons in Hkeys as [Hkey Hkeys].
      apply Forall_cons in Hall as [(Hci & Hcdtp & Hcs & _) Hall].
      apply Forall_cons in Htall as [(_ & _ & Hsum) Htall].
      apply Forall_cons in Hchk as [Hc Hchk]. cbn [fst snd] in *.
      rewrite Hkey, Z.eqb_refl, Hc. cbn [andb].
      assert (_checkChildClass cls child = true) as ->.
      { unfold _checkChildClass. rewrite Hleaf, (inv_is_entry d _ _ _ Hci).
        destruct h as [|h]; [done|]. rewrite bool_decide_eq_false_2 by done.
        destruct Hcs as [Hcls _]. destruct child as [|ccls ? ? ? ?]; [done|].
        cbn in Hcls. subst ccls. by destruct h. }
      assert (_checkChildMetrics d data radius child = true) as ->.
      { unfold _checkChildMetrics. cbn zeta. rewrite <- Hcdtp, Z.eqb_refl.
        by apply Z.leb_le. }
      apply IH; try done. right. by destruct Hknown as [[-> _]| ->]. }
  apply Hover. by left.
Qed.

(** A subtree that is not the root passes the checks, which return its
    height. *)
Lemma check_item mt keyed h :
  forall c,
    inv d keyed h c -> child_shape h c -> tight mt h c -> cap_ok mt h c ->
    0 <= item_distanceToParent c ->
    _check d mt c = Some (S h).
Proof.
  induction h as [|h IH]; intros c Hinv Hshape Ht Hcap Hdtp.
  - destruct c as [data radius dtp|]; [|done]. cbn in Hinv. subst radius.
    cbn in *. unfold _checkRadius. cbn. by rewrite (proj2 (Z.leb_le _ _) Hdtp).
  - destruct c as [|cls data radius dtp children]; [done|].
    destruct Hshape as [Hcls Hlen]. cbn in Hcls. subst cls.
    cbn [item_children item_distanceToParent cap_ok] in *.
    apply (check_node mt keyed); try done.
    + destruct h; cbn; by apply Z.leb_le.
    + destruct h; cbn; apply Z.leb_le; lia.
    + apply Z.leb_le. lia.
    + intros ->. simpl in Hlen. lia.
    + destruct Hinv as (_ & _ & Hall & _). destruct Ht as [_ Htall].
      cbn [item_children] in Htall. rewrite Forall_forall in *.
      intros kv Hkv. destruct (Hall _ Hkv) as (Hci & Hcdtp & Hcs & _).
      destruct (Htall _ Hkv) as (Htc & Hcapc & _).
      apply IH; try done. rewrite Hcdtp. apply (metric_nonneg d Hd).
Qed.

(** The root of a tree passes the checks. *)
Lemma check_root mt keyed h r :
  root_ok d keyed h r -> root_tight mt h r -> _check d mt r = Some (S (S h)).
Proof.
  intros (Hinv & Hcls & Hlen1 & Hlen2) (Ht & Hsize & Hdtp).
  destruct r as [|cls data radius dtp children]; [done|].
  cbn in Hcls. subst cls. cbn [item_children item_distanceToParent] in *. subst dtp.
  apply (check_node mt keyed); try done.
  - by destruct h.
  - destruct h; cbn; apply Z.leb_le; unfold map_size; [lia|].
    specialize (Hlen2 ltac:(done)). lia.
  - by apply Z.leb_le.
  - intros ->. simpl in Hlen1. lia.
  - destruct Hinv as (_ & _ & Hall & _). destruct Ht as [_ Htall].
    cbn [item_children] in Htall. rewrite Forall_forall in *.
    intros kv Hkv. destruct (Hall _ Hkv) as (Hci & Hcdtp & Hcs & _).
    destruct (Htall _ Hkv) as (Htc & Hcapc & _).
    apply (check_item mt keyed); try done. rewrite Hcdtp. apply (metric_nonneg d Hd).
Qed.

Lemma built_tight_check mt L : built_tight d mt L -> mtree_check d mt = true.
Proof.
  unfold built_tight, mtree_check. destruct (root mt) as [r|]; [|done].
  intros (h & Hr & _ & Hrt). by rewrite (check_root mt true h r).
Qed.

End CheckSpec.

(** ** The debug checks on the trees that removals leave *)

Section BalanceTight.

Variable rand_stream : nat -> Z.
Variable d : Data -> Data -> Z.
Hypothesis Hd : metric d.

Lemma addChildren_tight keyed h fuel mt dist (l : ChildrenMap) :
  forall this seed this' seed',
    (3 <= fuel)%nat ->
    inv d keyed (S h) this ->
    keys_ok l -> Forall (fun kv => child_ready d keyed h kv.2) l ->
    (forall k, k ∈ l.*1 -> k ∉ (item_children this).*1) ->
    (forall c, dist c = d (item_data c) (item_data this)) ->
    tight mt (S h) this ->
    Forall (fun kv => tight mt h kv.2 /\ cap_ok mt h kv.2) l ->
    addChildren rand_stream d fuel mt this dist l seed = Some (this', seed') ->
    tight mt (S h) this'.
Proof.
  induction l as [|[k c] l IH];
    intros this seed this' seed' Hfuel Hinv Hkeys Hall Hfresh Hdist Ht Htl Hres.
  { cbn in Hres. by injection Hres as <- _. }
  destruct Hkeys as [Hsorted Hdata]. rewrite fmap_cons in Hsorted.
  apply Forall_cons in Hdata as [Hk Hdata]. apply Forall_cons in Hall as [Hc Hall].
  apply Forall_cons in Htl as [[Htc Hcapc] Htl].
  cbn [fst snd] in *.
  pose proof (sorted_head_notin _ _ Hsorted) as Hkl.
  apply StronglySorted_inv in Hsorted as [Hsorted _].
  cbn [addChildren] in Hres.
  assert (item_data c ∉ (item_children this).*1) as Hfc.
  { rewrite Hk. apply Hfresh. rewrite fmap_cons. apply list_elem_of_here. }
  destruct (addChild_ready rand_stream d Hd keyed h fuel mt this c (dist c) seed)
    as (this1 & Hadd & Hinv1 & Hdata1 & Hdtp1 & Hcls1 & _ & Hch1 & _); try done.
  rewrite Hadd in Hres.
  apply (IH this1 seed this' seed'); try done.
  - intros k' Hk'. rewrite Hch1, fmap_cons. cbn [fst]. rewrite Hk.
    apply not_elem_of_cons. split; [by intros ->|].
    apply Hfresh. rewrite fmap_cons. by apply list_elem_of_further.
  - intros c'. by rewrite Hdata1.
  - by eapply (addChild_ready_tight rand_stream d keyed h fuel mt this c).
Qed.

Lemma store_child_data this c distance :
  item_data (store_child this c distance) = item_data this.
Proof. by destruct this. Qed.

Lemma store_child_length this c distance :
  is_entry this = false ->
  item_data c ∉ (item_children this).*1 ->
  length (item_children (store_child this c distance))
  = S (length (item_children this)).
Proof.
  intros Hnode Hfresh. destruct this as [|cls data radius dtp children]; [done|].
  unfold store_child. cbn [item_children set_children updateRadius] in *.
  by rewrite (Permutation_length (map_set_perm _ _ children Hfresh)).
Qed.

Lemma store_child_dtp_radius this c distance :
  item_distanceToParent (store_child this c distance) = item_distanceToParent this
  /\ item_radius this <= item_radius (store_child this c distance).
Proof. destruct this; [done|]. cbn. split; [done|]. lia. Qed.

Lemma balanceChildren_donate_tight h fuel mt cls data radius dtp children rest
    kD theChild donor seed N T' seed' :
  (3 <= fuel)%nat -> 2 <= minNodeCapacity mt ->
  2 * minNodeCapacity mt - 1 <= maxNodeCapacity mt ->
  keys_ok children ->
  children ≡ₚ (item_data theChild, theChild) :: (kD, donor) :: rest ->
  Forall (sibling_ok d h data (item_data theChild)) children ->
  NoDup (keys_in 1 children) ->
  0 <= radius ->
  tight mt (S h) theChild ->
  map_size (item_children theChild) = minNodeCapacity mt - 1 ->
  Forall (fun kv => tight mt (S h) kv.2 /\ cap_ok mt (S h) kv.2
                    /\ item_distanceToParent kv.2 + item_radius kv.2 <= radius)
    ((kD, donor) :: rest) ->
  minNodeCapacity mt < map_size (item_children donor) ->
  match scan_grandchildren d theChild (item_children donor) None Infty with
  | (Some nearestGrandchild, Fin nearestGrandchildDistance) =>
      let donor' :=
        set_children donor
          (map_erase (item_data nearestGrandchild) (item_children donor)) in
      match addChild rand_stream d fuel mt theChild
              nearestGrandchild nearestGrandchildDistance seed with
      | None => None
      | Some (theChild', seed') =>
          Some (set_children (Node cls data radius dtp children)
                  (map_set (item_data theChild') theChild'
                     (map_set (item_data donor') donor' children)),
                theChild', seed')
      end
  | _ => None
  end = Some (N, T', seed') ->
  tight mt (S (S h)) (updateRadius N T')
  /\ length (item_children N) = length children.
Proof.
  intros Hfuel Hmin Hcaps Hkeys Hperm Hall Hnd Hr HtT HsizeT Htall Hdonor Hres.
  set (kT := item_data theChild) in *.
  assert ((kT, theChild) ∈ children) as HinT.
  { rewrite Hperm. apply list_elem_of_here. }
  assert ((kD, donor) ∈ children) as HinD.
  { rewrite Hperm. apply list_elem_of_further, list_elem_of_here. }
  pose proof (keys_ok_elem _ _ _ Hkeys HinD) as HkD.
  pose proof Hall as Hall'. rewrite Forall_forall in Hall'.
  destruct (Hall' _ HinT) as (HinvT & HdtpT & HclsT & _).
  destruct (Hall' _ HinD) as (HinvD & HdtpD & HclsD & _).
  cbn [fst snd] in *.
  apply Forall_cons in Htall as [(HtD & HcapD & HsumD) Htrest]. cbn [snd] in *.
  destruct donor as [|dcls ddata dradius ddtp dchildren]; [done|].
  cbn [item_children item_data item_radius item_distanceToParent] in *. subst ddata.
  pose proof HinvD as (HleafD & HkeysD & HallD & HcovD).
  destruct (scan_grandchildren_spec d theChild
              (fun g z => (exists k, (k, g) ∈ dchildren)
                          /\ z = d (item_data g) (item_data theChild))
              dchildren None Infty) as (g & z & Hscan & (kg & Hg) & Hz).
  { intros k g Hin. split; [by exists k|done]. }
  { left. do 2 (split; [done|]). intros ->. unfold map_size in Hdonor.
    simpl in Hdonor. lia. }
  rewrite Hscan in Hres. cbn zeta in Hres.
  pose proof (keys_ok_elem _ _ _ HkeysD Hg) as Hkg. subst kg.
  assert (child_ready d false h g) as Hready.
  { pose proof (inv_children_ready d _ _ _ _ _ _ _ HinvD) as Hrd.
    rewrite Forall_forall in Hrd. apply (Hrd _ Hg). }
  assert (keys_ok (item_children theChild)) as HkeysT.
  { destruct theChild; [done|]. by destruct HinvT as (_ & ? & _). }
  assert (item_data g ∉ (item_children theChild).*1) as Hfresh.
  { eapply (cousins_distinct children rest kT kD theChild
              (Node dcls kD dradius ddtp dchildren)); try done.
    cbn [item_children]. apply list_elem_of_fmap. by exists (item_data g, g). }
  rewrite (addChild_ready_store rand_stream d false h fuel mt theChild g z seed)
    in Hres by done.
  injection Hres as <- <- _. cbn [set_children item_data item_children updateRadius].
  rewrite store_child_data. fold kT.
  set (T' := store_child theChild g z).
  set (donor' := Node dcls kD dradius ddtp (map_erase (item_data g) dchildren)).
  set (children2 := map_set kT T' (map_set kD donor' children)).
  assert (children2 ≡ₚ (kT, T') :: (kD, donor') :: rest) as Hperm2.
  { unfold children2. eapply map_set_two; [apply Hkeys|exact Hperm]. }
  pose proof (map_find_Some _ _ _ (proj1 HkeysD) Hg) as Hfind.
  destruct HtD as [HrD HtDall]. cbn [item_children item_radius] in HtDall, HrD.
  pose proof HtDall as HtDall'. rewrite Forall_forall in HtDall'.
  destruct (HtDall' _ Hg) as (Htg & Hcapg & _). cbn [snd] in *.
  split; [|by rewrite (Permutation_length Hperm2), (Permutation_length Hperm)].
  cbn [tight item_radius item_children]. split; [lia|].
  rewrite Hperm2. apply Forall_cons. split; [|apply Forall_cons; split].
  - cbn [snd]. split; [|split; [|lia]].
    + destruct theChild as [|tcls tdata tradius tdtp tchildren]; [done|].
      by apply store_child_tight.
    + cbn [cap_ok]. unfold map_size in *. unfold T'.
      rewrite store_child_length; [lia| |done].
      by rewrite (inv_is_entry d _ _ _ HinvT).
  - cbn [snd]. unfold donor'. cbn [item_distanceToParent item_radius].
    split; [|split; [|lia]].
    + cbn [tight item_radius item_children]. split; [done|].
      by apply Forall_map_erase.
    + cbn [cap_ok item_children] in *. unfold map_size in *.
      rewrite (map_erase_length _ _ _ Hfind) in Hdonor, HcapD. lia.
  - eapply Forall_impl; [exact Htrest|]. intros kv (? & ? & ?).
    do 2 (split; [done|]). lia.
Qed.

Lemma balanceChildren_merge_tight h fuel mt cls data radius dtp children rest
    kM theChild cand seed N merged seed' :
  (3 <= fuel)%nat -> 2 <= minNodeCapacity mt ->
  2 * minNodeCapacity mt - 1 <= maxNodeCapacity mt ->
  keys_ok children ->
  children ≡ₚ (item_data theChild, theChild) :: (kM, cand) :: rest ->
  Forall (sibling_ok d h data (item_data theChild)) children ->
  NoDup (keys_in 1 children) ->
  0 <= radius ->
  tight mt (S h) theChild ->
  map_size (item_children theChild) = minNodeCapacity mt - 1 ->
  Forall (fun kv => tight mt (S h) kv.2 /\ cap_ok mt (S h) kv.2
                    /\ item_distanceToParent kv.2 + item_radius kv.2 <= radius)
    ((kM, cand) :: rest) ->
  map_size (item_children cand) <= minNodeCapacity mt ->
  match addChildren rand_stream d fuel mt cand
          (fun grandchild => d (item_data grandchild) (item_data cand))
          (item_children theChild) seed with
  | None => None
  | Some (merged, seed') =>
      Some (set_children (Node cls data radius dtp children)
              (map_erase (item_data theChild)
                 (map_set (item_data merged) merged children)),
            merged, seed')
  end = Some (N, merged, seed') ->
  tight mt (S (S h)) (updateRadius N merged)
  /\ length children = S (length (item_children N)).
Proof.
  intros Hfuel Hmin Hcaps Hkeys Hperm Hall Hnd Hr HtT HsizeT Htall Hcand Hres.
  set (kT := item_data theChild) in *.
  assert ((kT, theChild) ∈ children) as HinT.
  { rewrite Hperm. apply list_elem_of_here. }
  assert ((kM, cand) ∈ children) as HinM.
  { rewrite Hperm. apply list_elem_of_further, list_elem_of_here. }
  pose proof (keys_ok_elem _ _ _ Hkeys HinM) as HkM.
  pose proof Hall as Hall'. rewrite Forall_forall in Hall'.
  destruct (Hall' _ HinT) as (HinvT & HdtpT & HclsT & _).
  destruct (Hall' _ HinM) as (HinvM & HdtpM & HclsM & _).
  cbn [fst snd] in *.
  apply Forall_cons in Htall as [(HtM & HcapM & HsumM) Htrest]. cbn [snd] in *.
  assert (keys_ok (item_children theChild)) as HkeysT.
  { destruct theChild; [done|]. by destruct HinvT as (_ & ? & _). }
  assert (keys_ok (item_children cand)) as HkeysM.
  { destruct cand; [done|]. by destruct HinvM as (_ & ? & _). }
  assert (Forall (fun kv => child_ready d false h kv.2) (item_children theChild))
    as HreadyT.
  { destruct theChild; [done|]. by eapply inv_children_ready. }
  assert (forall k, k ∈ (item_children theChild).*1 -> k ∉ (item_children cand).*1)
    as Hfresh.
  { intros k Hk.
    by eapply (cousins_distinct children rest kM kT cand theChild);
      [done|rewrite Hperm; apply Permutation_swap|..]. }
  destruct (addChildren_spec rand_stream d Hd false h fuel mt
              (fun grandchild => d (item_data grandchild) (item_data cand))
              (item_children theChild) cand seed)
    as (merged0 & Hadd & HinvM' & HdataM' & HdtpM' & HclsM' & HchM'); try done.
  assert (tight mt (S h) merged0) as HtM'.
  { eapply (addChildren_tight false h fuel mt _ (item_children theChild) cand seed);
      try done.
    destruct HtT as [_ HtTall]. eapply Forall_impl; [exact HtTall|].
    by intros kv (? & ? & _). }
  rewrite Hadd in Hres. injection Hres as <- <- _.
  cbn [set_children item_children updateRadius].
  set (children2 := map_erase kT (map_set (item_data merged0) merged0 children)).
  assert (children2 ≡ₚ (kM, merged0) :: rest) as Hperm2.
  { unfold children2. rewrite HdataM', HkM.
    eapply map_set_erase; [apply Hkeys|exact Hperm]. }
  split; [|by rewrite (Permutation_length Hperm2), (Permutation_length Hperm)].
  cbn [tight item_radius item_children]. split; [lia|].
  rewrite Hperm2. apply Forall_cons. split.
  - cbn [snd]. split; [done|]. split; [|lia].
    cbn [cap_ok] in *. unfold map_size in *.
    rewrite (Permutation_length HchM'), length_app, retag_length. lia.
  - eapply Forall_impl; [exact Htrest|]. intros kv (? & ? & ?).
    do 2 (split; [done|]). lia.
Qed.

(** [balanceChildren] on a node one of whose children, [theChild], has
    fallen one below its minimum capacity. *)
Lemma balanceChildren_tight h fuel mt cls data radius dtp children theChild seed
    N expanded seed' :
  (3 <= fuel)%nat -> 2 <= minNodeCapacity mt ->
  2 * minNodeCapacity mt - 1 <= maxNodeCapacity mt ->
  keys_ok children ->
  (item_data theChild, theChild) ∈ children ->
  Forall (sibling_ok d h data (item_data theChild)) children ->
  NoDup (keys_in 1 children) ->
  0 <= radius ->
  tight mt (S h) theChild ->
  map_size (item_children theChild) = minNodeCapacity mt - 1 ->
  Forall (fun kv => kv.1 <> item_data theChild ->
                    tight mt (S h) kv.2 /\ cap_ok mt (S h) kv.2
                    /\ item_distanceToParent kv.2 + item_radius kv.2 <= radius)
    children ->
  balanceChildren rand_stream d fuel mt (Node cls data radius dtp children)
    theChild seed = Some (N, expanded, seed') ->
  tight mt (S (S h)) (updateRadius N expanded)
  /\ (length (item_children N) <= length children)%nat.
Proof.
  intros Hfuel Hmin Hcaps Hkeys HinT Hall Hnd Hr HtT HsizeT Htall Hres.
  unfold balanceChildren in Hres. cbn [item_children] in Hres.
  pose proof Hall as Hall'. rewrite Forall_forall in Hall'.
  assert (forall kS S rest,
            children ≡ₚ (item_data theChild, theChild) :: (kS, S) :: rest ->
            Forall (fun kv => tight mt (Datatypes.S h) kv.2
                              /\ cap_ok mt (Datatypes.S h) kv.2
                              /\ item_distanceToParent kv.2 + item_radius kv.2
                                 <= radius)
              ((kS, S) :: rest)) as Hothers.
  { intros kS S rest Hperm.
    pose proof (keys_ok_NoDup _ Hkeys) as Hn. rewrite Hperm, fmap_cons in Hn.
    apply NoDup_cons in Hn as [Hn _]. cbn [fst] in Hn.
    rewrite Hperm in Htall. apply Forall_cons in Htall as [_ Htall].
    rewrite Forall_forall in Htall. apply Forall_forall. intros [k c] Hin.
    apply (Htall _ Hin). cbn [fst]. intros ->. apply Hn.
    apply list_elem_of_fmap. by exists (item_data theChild, c). }
  destruct (scan_siblings_spec d mt theChild children children None Infty None Infty)
    as (dn & mc & Hscan & Hdn & Hmc & Hnone); [|done|done|].
  { intros kv Hkv. split; [done|]. destruct (Hall' _ Hkv) as (Hi & _).
    by rewrite (inv_is_entry d _ _ _ Hi). }
  rewrite Hscan in Hres. destruct dn as [donor|].
  - destruct Hdn as (kD & HinD & Hne & Hsize).
    destruct (two_elements _ _ _ HinT HinD) as (rest & Hperm).
    { intros [= E1 E2]. by subst donor. }
    destruct (Hall' _ HinD) as (_ & _ & HclsD & _). cbn [snd] in HclsD.
    destruct (balanceChildren_donate_tight h fuel mt cls data radius dtp
                children rest kD theChild donor seed N expanded seed')
      as [Ht Hlen]; try done.
    + by apply Hothers.
    + destruct donor as [|dcls ? ? ? dchildren]; [done|]. cbn [item_children].
      cbn in HclsD. rewrite (getMinCapacity_nonroot mt h) in Hsize by done.
      symmetry in Hsize. apply Z.gtb_lt in Hsize. done.
    + split; [done|lia].
  - destruct mc as [cand|]; [|done].
    destruct Hmc as (kM & HinM & Hne & Hsize).
    destruct (two_elements _ _ _ HinT HinM) as (rest & Hperm).
    { intros [= E1 E2]. by subst cand. }
    destruct (Hall' _ HinM) as (_ & _ & HclsM & _). cbn [snd] in HclsM.
    destruct (addChildren rand_stream d fuel mt cand _ (item_children theChild) seed)
      as [[merged seed1]|] eqn:Hadd; [|done].
    assert (expanded = merged) as -> by (by injection Hres).
    destruct (balanceChildren_merge_tight h fuel mt cls data radius dtp
                children rest kM theChild cand seed N merged seed')
      as [Ht Hlen]; try done.
    + by apply Hothers.
    + destruct cand as [|ccls ? ? ? cchildren]; [done|]. cbn [item_children].
      cbn in HclsM. rewrite (getMinCapacity_nonroot mt h) in Hsize by done.
      symmetry in Hsize. rewrite Z.gtb_ltb in Hsize. by apply Z.ltb_ge in Hsize.
    + by rewrite Hadd.
    + split; [done|lia].
Qed.

End BalanceTight.

Lemma updateRadius_children this c :
  item_children (updateRadius this c) = item_children this.
Proof. by destruct this. Qed.

Lemma map_erase_length_le k (m : ChildrenMap) :
  (length (map_erase k m) <= length m)%nat.
Proof. apply sublist_length, map_erase_sublist. Qed.

Section RemoveTight.

Variable rand_stream : nat -> Z.
Variable d : Data -> Data -> Z.
Hypothesis Hd : metric d.

Lemma try_children_tight h fuel mt cls data radius dtp children x :
  let this := Node cls data radius dtp children in
  rm_ok rand_stream d h fuel mt -> rm_tight rand_stream d h fuel mt ->
  (2 * h + 3 <= fuel)%nat -> 2 <= minNodeCapacity mt ->
  2 * minNodeCapacity mt - 1 <= maxNodeCapacity mt ->
  inv d false (S (S h)) this -> level_distinct this ->
  (2 <= length children)%nat ->
  tight mt (S (S h)) this ->
  forall (l : ChildrenMap) seed this' sig seed',
    (forall kv, kv ∈ l -> kv ∈ children) -> x ∈ indexed_in l ->
    try_children d (removeData rand_stream d fuel mt)
      (balanceChildren rand_stream d fuel mt) x (d x data) this l seed
    = Some (this', sig, seed') ->
    tight mt (S (S h)) this'
    /\ (length (item_children this') <= length children)%nat.
Proof.
  intros this Hrm Hrmt Hfuel Hmin Hcaps Hinv Hlevel Hlen Ht.
  pose proof Hinv as (Hleaf & Hkeys & Hall & Hcov).
  rewrite bool_decide_eq_false_2 in Hleaf by done.
  rewrite Forall_forall in Hall.
  pose proof Ht as [Hr Htall]. cbn [item_radius item_children this] in Hr, Htall.
  pose proof Htall as Htall'. rewrite Forall_forall in Htall'.
  induction l as [|[k c] l IH]; intros seed this' sig seed' Hl Hx Hres.
  { by apply elem_of_nil in Hx. }
  assert ((k, c) ∈ children) as Hin by (apply Hl, list_elem_of_here).
  destruct (Hall _ Hin) as (Hc & Hdtp & (Hcls & Hclen) & _). cbn [snd] in *.
  destruct (Htall' _ Hin) as (Htc & Hcapc & Hsumc). cbn [snd] in *.
  pose proof (keys_ok_elem _ _ _ Hkeys Hin) as Hk. subst k.
  cbn [try_children] in Hres. rewrite (inv_is_entry d _ _ _ Hc) in Hres.
  cbn [bool_decide] in Hres.
  destruct (decide (x ∈ indexed c)) as [Hxc|Hxc].
  - destruct (search_tests d Hd _ _ c data x Hc Hxc Hdtp) as [E1 E2].
    rewrite E1, E2 in Hres.
    assert (level_distinct c) as Hlc by (by eapply (level_distinct_child this)).
    destruct (Hrm c x seed) as (c' & sig1 & Hrmc & Hshrunk & Hsig); try done.
    pose proof (Hrmt c x seed c' sig1 seed Hc Hlc Hxc Hcls Htc Hcapc Hrmc)
      as [Htc' Hsig'].
    rewrite Hrmc in Hres.
    destruct Hshrunk as (Hc' & Hidx & Hdata & Hdtp' & Hcls' & Hsub & Hlen').
    destruct (replace_child children c c' x Hkeys Hin Hdata Hidx Hsub)
      as (Hkeys1 & Hperm1 & Hperm & Hidx1 & Hsub1 & Hlen1).
    cbn [item_children this set_children] in Hres.
    set (children1 := map_set (item_data c') c' children) in *.
    pose proof (siblings_strong d h cls data radius dtp children (item_data c) Hinv)
      as Hrest.
    destruct Hsig as [[-> Hlen2]|[-> Hlen2]].
    + injection Hres as <- _ _. split.
      * by apply replace_child_tight.
      * cbn [updateRadius item_children]. fold children1. lia.
    + destruct (balanceChildren rand_stream d fuel mt
                  (Node cls data radius dtp children1) c' seed)
        as [[[N expanded] seed2]|] eqn:Hbal; [|done].
      injection Hres as <- _ _.
      destruct (balanceChildren_tight rand_stream d Hd h fuel mt cls data radius dtp
                  children1 c' seed N expanded seed2) as [HtN HlenN];
        try done; try lia.
      { rewrite Hperm1, Hdata. apply list_elem_of_here. }
      { rewrite Hperm1. apply Forall_cons. split.
        - split; [done|]. split; [cbn [snd]; congruence|].
          split; [by apply Hcls'|]. cbn [fst]. by rewrite Hdata.
        - eapply Forall_impl; [exact Hrest|].
          intros kv (? & ? & ? & ?). split; [done|]. split; [done|]. done. }
      { eapply submseteq_NoDup_l; [apply Hsub1|]. apply (Hlevel 1%nat). }
      { rewrite Hperm1. apply Forall_cons. split.
        - cbn [fst]. by rewrite Hdata.
        - intros. apply Forall_forall. intros kv Hkv _. apply Htall'.
          eapply elem_of_sublist; [exact Hkv|apply map_erase_sublist]. }
      split; [done|]. rewrite updateRadius_children. lia.
  - assert (x ∈ indexed_in l) as Hx'.
    { rewrite indexed_in_cons in Hx. apply elem_of_app in Hx as [?|?]; done. }
    apply (IH seed this' sig seed'); [|done|].
    { intros kv Hkv. apply Hl. by apply list_elem_of_further. }
    revert Hres.
    destruct (_ <=? _); [|done]. destruct (_ <=? _); [|done].
    rewrite (removeData_absent rand_stream d false h) by (done || lia).
    cbn [item_children this]. rewrite map_set_id; [done|apply Hkeys|].
    by apply map_find_Some; [apply Hkeys|].
Qed.

Lemma doRemoveData_tight h fuel mt this x seed this' sig seed' :
  (forall h', h = S h' -> rm_ok rand_stream d h' fuel mt) ->
  (forall h', h = S h' -> rm_tight rand_stream d h' fuel mt) ->
  (2 * h + 1 <= fuel)%nat -> 2 <= minNodeCapacity mt ->
  2 * minNodeCapacity mt - 1 <= maxNodeCapacity mt ->
  inv d false (S h) this -> level_distinct this -> x ∈ indexed this ->
  (h <> O -> (2 <= length (item_children this))%nat) ->
  tight mt (S h) this ->
  doRemoveData rand_stream d (S fuel) mt this x (d x (item_data this)) seed
    = Some (this', sig, seed') ->
  tight mt (S h) this'
  /\ (length (item_children this') <= length (item_children this))%nat.
Proof.
  intros Hrm Hrmt Hfuel Hmin Hcaps Hinv Hlevel Hx Hlen Ht Hres.
  destruct this as [|cls data radius dtp children]; [done|].
  rewrite doRemoveData_unfold in Hres.
  pose proof Hinv as (Hleaf & Hkeys & Hall & Hcov).
  rewrite Hleaf in Hres. destruct h as [|h].
  - rewrite bool_decide_eq_true_2 in Hres by done.
    destruct (map_find x children) as [e|]; injection Hres as <- _ _.
    + cbn [set_children item_children]. split; [|apply map_erase_length_le].
      destruct Ht as [Hr Htall]. split; [done|]. by apply Forall_map_erase.
    + done.
  - rewrite bool_decide_eq_false_2 in Hres by done. cbn [item_data] in Hres.
    apply (try_children_tight h fuel mt cls data radius dtp children x
             (Hrm h eq_refl) (Hrmt h eq_refl)) with (l := children) (seed := seed)
             (sig := sig) (seed' := seed'); try done; try lia.
    + by apply Hlen.
    + by rewrite <- (indexed_node cls data radius dtp).
Qed.

(** [removeData] on a node that is not the root. *)
Lemma removeData_tight h :
  forall fuel mt, (2 * h + 3 <= fuel)%nat -> 2 <= minNodeCapacity mt ->
                  2 * minNodeCapacity mt - 1 <= maxNodeCapacity mt ->
                  rm_tight rand_stream d h fuel mt.
Proof.
  induction h as [|h IH];
    intros fuel mt Hfuel Hmin Hcaps c x seed c' sig seed' Hinv Hlevel Hx Hcls Ht Hcap
      Hres;
    (destruct fuel as [|[|fuel]]; try lia).
  - destruct (doRemoveData_found rand_stream d Hd 0 fuel mt c x seed)
      as (c1 & Hdo & Hshrunk); try done; try lia.
    destruct (doRemoveData_tight 0 fuel mt c x seed c1 Normal seed) as [Ht1 Hlen1];
      try done; try lia.
    rewrite removeData_unfold, Hdo in Hres. cbn zeta in Hres.
    destruct c as [|cls data radius dtp children]; [done|].
    cbn in Hcls. subst cls. cbn [Node_removeData] in Hres.
    pose proof Hshrunk as (Hinv' & _ & _ & _ & Hcls' & _ & Hlen').
    destruct c1 as [|cls' data' radius' dtp' children']; [done|].
    specialize (Hcls' LeafNode eq_refl). cbn in Hcls'. subst cls'.
    cbn [getMinCapacity item_children cap_ok] in *. unfold map_size in *.
    destruct (Z.ltb_spec (Z.of_nat (length children')) (minNodeCapacity mt));
      injection Hres as <- <- _; (split; [done|]); cbn [cap_ok item_children];
      unfold map_size; lia.
  - destruct (doRemoveData_found rand_stream d Hd (S h) fuel mt c x seed)
      as (c1 & Hdo & Hshrunk); try done; try lia.
    { intros h' [= <-]. apply removeData_found; [done|lia|done]. }
    { intros _. cbn [cap_ok] in Hcap. unfold map_size in Hcap. lia. }
    destruct (doRemoveData_tight (S h) fuel mt c x seed c1 Normal seed)
      as [Ht1 Hlen1]; try done; try lia.
    { intros h' [= <-]. apply removeData_found; [done|lia|done]. }
    { intros h' [= <-]. apply IH; [lia|done|done]. }
    { intros _. cbn [cap_ok] in Hcap. unfold map_size in Hcap. lia. }
    rewrite removeData_unfold, Hdo in Hres. cbn zeta in Hres.
    destruct c as [|cls data radius dtp children]; [done|].
    cbn in Hcls. subst cls. cbn [Node_removeData] in Hres.
    pose proof Hshrunk as (Hinv' & _ & _ & _ & Hcls' & _ & Hlen').
    destruct c1 as [|cls' data' radius' dtp' children']; [done|].
    specialize (Hcls' InternalNode eq_refl). cbn in Hcls'. subst cls'.
    cbn [getMinCapacity item_children cap_ok] in *. unfold map_size in *.
    destruct (Z.ltb_spec (Z.of_nat (length children')) (minNodeCapacity mt));
      injection Hres as <- <- _; (split; [done|]); cbn [cap_ok item_children];
      unfold map_size; lia.
Qed.

End RemoveTight.

Section RunTight.

Variable rand_stream : nat -> Z.
Variable d : Data -> Data -> Z.
Hypothesis Hd : metric d.

(** [remove] of an indexed object. *)
Lemma remove_found_tight h fuel mt r x seed :
  (2 * h + 3 <= fuel)%nat -> 2 <= minNodeCapacity mt ->
  2 * minNodeCapacity mt - 1 <= maxNodeCapacity mt ->
  root mt = Some r -> root_ok d false h r -> level_distinct r ->
  x ∈ indexed r -> root_tight mt h r ->
  exists root',
    remove rand_stream d fuel mt x seed
    = Some (true, mk_mtree (minNodeCapacity mt) (maxNodeCapacity mt) root', seed)
    /\ match root' with
       | None => indexed r ≡ₚ [x]
       | Some r' =>
           exists h', root_ok d false h' r' /\ level_distinct r'
                      /\ indexed r ≡ₚ x :: indexed r' /\ root_tight mt h' r'
       end.
Proof.
  intros Hfuel Hmin Hcaps Hroot (Hinv & Hcls & Hlen1 & Hlen2) Hlevel Hx
    (Ht & Hsize & Hdtp).
  unfold remove. rewrite Hroot. cbn zeta.
  destruct fuel as [|[|fuel]]; try lia.
  destruct (doRemoveData_found rand_stream d Hd h fuel mt r x seed)
    as (r' & Hdo & Hshrunk); try done; try lia.
  { intros h' ->. apply removeData_found; [done|lia|done]. }
  destruct (doRemoveData_tight rand_stream d Hd h fuel mt r x seed r' Normal seed)
    as [Ht' Hle']; try done; try lia.
  { intros h' ->. apply removeData_found; [done|lia|done]. }
  { intros h' ->. apply removeData_tight; [done|lia|done|done]. }
  rewrite removeData_unfold, Hdo. cbn zeta.
  pose proof (shrunk_level_distinct d _ _ _ _ Hshrunk Hlevel) as Hlevel'.
  pose proof Hshrunk as (Hinv' & Hidx & _ & Hdtp' & Hcls' & Hsub & Hlen').
  specialize (Hcls' _ Hcls).
  destruct r as [|cls data radius dtp children]; [done|].
  destruct r' as [|cls' data' radius' dtp' children']; [done|].
  cbn in Hcls, Hcls'. subst cls cls'.
  cbn [Node_removeData item_children item_distanceToParent] in *.
  unfold map_size in *. destruct h as [|h]; cbn [class_at getMinCapacity].
  - destruct (Z.ltb_spec (Z.of_nat (length children')) 1).
    + destruct children'; [|simpl in *; lia]. cbn [item_children].
      exists None. split; [done|]. exact Hidx.
    + exists (Some (Node RootLeafNode data' radius' dtp' children')).
      split; [done|]. exists 0%nat. split; [|split; [done|split; [done|]]].
      * split; [done|]. split; [done|]. cbn [item_children]. split; [lia|done].
      * split; [done|]. cbn [item_children item_distanceToParent].
        unfold map_size. split; [lia|congruence].
  - specialize (Hlen2 ltac:(done)).
    destruct (Z.ltb_spec (Z.of_nat (length children')) 2).
    + destruct children' as [|[k theChild] [|? ?]]; try (simpl in *; lia).
      unfold promote_only_child. cbn [item_children].
      pose proof Hinv' as (_ & Hkeys' & Hall' & _).
      apply Forall_cons in Hall' as [(Hc & _ & (Hccls & Hclen) & _) _].
      destruct Ht' as [_ Htall']. cbn [item_children] in Htall'.
      apply Forall_cons in Htall' as [(Htc & Hcapc & _) _].
      cbn [snd] in *.
      destruct theChild as [|ccls cdata cradius cdtp grandchildren]; [done|].
      cbn in Hccls. cbn [item_children cap_ok] in Hclen, Hcapc.
      set (newRoot := new_node (class_at true h) cdata).
      assert (match ccls with
              | InternalNode => Some (new_node RootNode cdata)
              | LeafNode => Some (new_node RootLeafNode cdata)
              | _ => None
              end = Some newRoot) as ->.
      { subst ccls. by destruct h. }
      pose proof Hc as (_ & Hgkeys & _).
      assert (inv d false (S h) newRoot) as HinvN0.
      { apply fresh_node_inv. by destruct h. }
      assert (Forall (fun kv => child_ready d false h kv.2) grandchildren) as Hready.
      { by eapply inv_children_ready. }
      assert (forall k', k' ∈ grandchildren.*1 -> k' ∉ (item_children newRoot).*1)
        as Hfr.
      { intros k' _. cbn. apply not_elem_of_nil. }
      assert (forall c, d (item_data newRoot) (item_data c)
                        = d (item_data c) (item_data newRoot)) as Hdist.
      { intros c. apply (metric_sym d Hd). }
      destruct (addChildren_spec rand_stream d Hd false h (S (S fuel)) mt
                  (fun grandchild => d (item_data newRoot) (item_data grandchild))
                  grandchildren newRoot seed)
        as (newRoot' & Hadd & HinvN & HdataN & HdtpN & HclsN & HchN);
        try done; try lia.
      assert (tight mt (S h) newRoot') as HtN.
      { apply (addChildren_tight rand_stream d Hd false h (S (S fuel)) mt
                 (fun grandchild => d (item_data newRoot) (item_data grandchild))
                 grandchildren newRoot seed newRoot' seed); try done; try lia.
        destruct Htc as [_ Htg]. cbn [item_children] in Htg.
        eapply Forall_impl; [exact Htg|]. by intros kv (? & ? & _). }
      rewrite Hadd.
      exists (Some newRoot'). split; [done|].
      exists h.
      cbn [new_node newRoot item_children] in HchN. rewrite app_nil_r in HchN.
      split; [|split; [|split]].
      * split; [done|]. split; [by apply HclsN|].
        rewrite (Permutation_length HchN), retag_length. split; [lia|]. intros _. lia.
      * intros n. rewrite keys_at_S, (keys_in_perm _ _ _ HchN), retag_keys_in.
        specialize (Hlevel' (S n)). rewrite keys_at_S in Hlevel'.
        cbn [item_children] in Hlevel'. rewrite keys_in_cons in Hlevel'.
        cbn [snd] in Hlevel'. rewrite keys_at_S in Hlevel'.
        cbn [item_children] in Hlevel'. by apply NoDup_app in Hlevel' as (? & _).
      * etrans; [exact Hidx|]. apply Permutation_skip.
        destruct newRoot' as [|ncls ndata nradius ndtp nchildren]; [done|].
        cbn [item_children] in HchN. rewrite !indexed_node, indexed_in_cons.
        cbn [snd]. rewrite indexed_node.
        rewrite (indexed_in_perm _ _ HchN), retag_indexed.
        unfold indexed_in at 2. by rewrite app_nil_r.
      * split; [done|]. split; [|by rewrite HdtpN].
        unfold map_size in *.
        rewrite (Permutation_length HchN), retag_length. lia.
    + exists (Some (Node RootNode data' radius' dtp' children')).
      split; [done|]. exists (S h). split; [|split; [done|split; [done|]]].
      * split; [done|]. split; [done|]. cbn [item_children]. split; [lia|].
        intros _. lia.
      * split; [done|]. cbn [item_children item_distanceToParent].
        unfold map_size. split; [lia|congruence].
Qed.

Lemma remaining_tight_remaining mt L :
  remaining_tight d mt L -> remaining d mt L.
Proof.
  unfold remaining_tight, remaining. destruct (root mt); [|done].
  intros (h & ? & ? & ? & _). by exists h.
Qed.

Lemma built_tight_remaining mt L :
  built_tight d mt L -> NoDup L -> remaining_tight d mt L.
Proof.
  intros Hb Hnd.
  assert (built d mt L) as Hb0.
  { unfold built_tight, built in *. destruct (root mt); [|done].
    destruct Hb as (h & ? & ? & _). by exists h. }
  clear Hb0. unfold built_tight, remaining_tight in *.
  destruct (root mt) as [r|]; [|done].
  destruct Hb as (h & (Hinv & Hrest) & Hidx & Hrt). exists h. split.
  { split; [by eapply inv_keyed_weaken|done]. }
  split; [|done]. eapply (keyed_level_distinct d); [exact Hinv|by rewrite Hidx].
Qed.

Lemma run_removes_tight (R : list Data) :
  forall fuel mt seed L,
    remaining_tight d mt L ->
    (2 * length L + 3 <= fuel)%nat ->
    2 <= minNodeCapacity mt ->
    2 * minNodeCapacity mt - 1 <= maxNodeCapacity mt ->
    exists mt',
      run rand_stream d fuel (map Remove R) mt seed
      = Some (mt', (set_removes L R).1, seed)
      /\ remaining_tight d mt' (set_removes L R).2
      /\ minNodeCapacity mt' = minNodeCapacity mt
      /\ maxNodeCapacity mt' = maxNodeCapacity mt.
Proof.
  induction R as [|x R IH]; intros fuel mt seed L Hrem Hfuel Hmin Hcaps.
  { exists mt. done. }
  cbn [map run set_removes].
  pose proof (remaining_NoDup d _ _ (remaining_tight_remaining _ _ Hrem)) as Hnd.
  assert (exists mt1,
            remove rand_stream d fuel mt x seed
            = Some (bool_decide (x ∈ L), mt1, seed)
            /\ remaining_tight d mt1 (filter (fun y => y <> x) L)
            /\ minNodeCapacity mt1 = minNodeCapacity mt
            /\ maxNodeCapacity mt1 = maxNodeCapacity mt)
    as (mt1 & Hremove & Hrem1 & Hmin1 & Hmax1).
  { destruct (decide (x ∈ L)) as [Hx|Hx].
    - rewrite bool_decide_eq_true_2 by done.
      pose proof Hrem as Hrem'. unfold remaining_tight in Hrem'.
      destruct (root mt) as [r|] eqn:Hroot.
      2:{ subst L. by apply elem_of_nil in Hx. }
      destruct Hrem' as (h & Hr & Hlevel & Hidx & Hrt).
      pose proof (root_height_lt_indexed d _ _ _ Hr) as Hh.
      rewrite (Permutation_length Hidx) in Hh.
      destruct (remove_found_tight h fuel mt r x seed)
        as (root' & Hremove & Hafter); try done; try lia.
      { by rewrite Hidx. }
      eexists. split; [exact Hremove|]. split; [|done].
      unfold remaining_tight. cbn [root].
      destruct root' as [r'|].
      + destruct Hafter as (h' & Hr' & Hlevel' & Hidx' & Hrt').
        exists h'. do 2 (split; [done|]). split.
        * symmetry. apply filter_present; [done|]. by rewrite <- Hidx, Hidx'.
        * by apply (root_tight_caps mt).
      + rewrite Hidx in Hafter.
        apply Permutation_nil_r. by apply filter_present.
    - rewrite bool_decide_eq_false_2 by done.
      rewrite (remove_absent rand_stream d fuel mt L x seed); try done.
      2:{ by apply remaining_tight_remaining. }
      eexists. split; [reflexivity|]. split; [|done].
      rewrite filter_absent by done. unfold remaining_tight in *. cbn [root].
      destruct (root mt) as [r|]; [|done].
      destruct Hrem as (h & ? & ? & ? & Hrt). exists h. do 3 (split; [done|]).
      by apply (root_tight_caps mt). }
  destruct (IH fuel mt1 seed (filter (fun y => y <> x) L))
    as (mt' & Hrun & Hrem' & Hmin' & Hmax'); try done; try lia.
  { pose proof (length_filter (fun y => y <> x) L). lia. }
  rewrite Hremove, Hrun.
  destruct (set_removes (filter (fun y => y <> x) L) R) as [founds L'].
  cbn [fst snd] in *. exists mt'. split; [done|]. split; [done|]. split; congruence.
Qed.

Lemma remaining_tight_check mt L : remaining_tight d mt L -> mtree_check d mt = true.
Proof.
  unfold remaining_tight, mtree_check. destruct (root mt) as [r|]; [|done].
  intros (h & Hr & _ & _ & Hrt). by rewrite (check_root d Hd mt false h r).
Qed.

(** The tree reached by inserting [S] and then removing [R], with what
    the checks need. *)
Lemma run_adds_removes_tight (S R : list Data) (fuel : nat) (mt : mtree) :
  root mt = None ->
  2 <= minNodeCapacity mt ->
  2 * minNodeCapacity mt - 1 <= maxNodeCapacity mt ->
  NoDup S -> (2 * length S + 6 <= fuel)%nat ->
  exists mt' seed',
    run rand_stream d fuel (map Add S ++ map Remove R) mt 0
    = Some (mt', (set_removes S R).1, seed')
    /\ remaining_tight d mt' (set_removes S R).2
    /\ minNodeCapacity mt' = minNodeCapacity mt
    /\ maxNodeCapacity mt' = maxNodeCapacity mt.
Proof.
  intros Hroot Hmin Hcaps Hnd Hfuel.
  destruct (run_adds_tight rand_stream d Hd S fuel mt 0%nat [])
    as (mt1 & seed1 & Hrun1 & Hbuilt & Hmin1 & Hmax1).
  { unfold built_tight. by rewrite Hroot. }
  { by rewrite app_nil_r. }
  { cbn [length]. lia. }
  { lia. }
  { done. }
  rewrite app_nil_r in Hbuilt.
  destruct (run_removes_tight R fuel mt1 seed1 S)
    as (mt' & Hrun2 & Hrem & Hmin' & Hmax'); try done; try lia.
  { by apply built_tight_remaining. }
  exists mt', seed1. rewrite Hrun1. split; [done|]. split; [done|].
  split; congruence.
Qed.

(** X9: on a tree with a minimum node capacity [m] of at least 2 and a maximum
    node capacity of at least [2 m - 1], and with a metric, the tree left
    by inserting distinct objects and then removing any objects passes the
    debug checks of [_check]: radii and distances to the parent are not
    negative, every node holds between its minimum and the maximum number
    of children, every child is stored under its own object with its exact
    distance to the parent, and its ball lies inside the ball of its
    parent. *)
Theorem reached_tree_passes_the_checks
    (S R : list Data) (fuel : nat) (mt : mtree) :
  root mt = None ->
  2 <= minNodeCapacity mt ->
  2 * minNodeCapacity mt - 1 <= maxNodeCapacity mt ->
  NoDup S -> (2 * length S + 6 <= fuel)%nat ->
  exists mt' founds seed',
    run rand_stream d fuel (map Add S ++ map Remove R) mt 0
    = Some (mt', founds, seed')
    /\ mtree_check d mt' = true.
Proof.
  intros Hroot Hmin Hcaps Hnd Hfuel.
  destruct (run_adds_removes_tight S R fuel mt)
    as (mt' & seed' & Hrun & Hrem & _); try done.
  exists mt', (set_removes S R).1, seed'. split; [done|].
  by eapply remaining_tight_check.
Qed.


End RunTight.

Lemma entry_depths_node cls data radius dtp (children : ChildrenMap) :
  entry_depths (Node cls data radius dtp children)
  = children ≫= (fun kv => map S (entry_depths kv.2)).
Proof.
  cbn [entry_depths]. induction children as [|[k c] l IH]; [done|].
  rewrite bind_cons. cbn [snd]. by rewrite IH.
Qed.

Lemma inv_entry_depths d keyed h :
  forall i, inv d keyed h i -> Forall (fun n => n = h) (entry_depths i).
Proof.
  induction h as [|h IH]; intros i Hinv.
  - destruct i; [|done]. by repeat constructor.
  - destruct i as [|cls data radius dtp children]; [done|].
    destruct Hinv as (_ & _ & Hall & _). rewrite entry_depths_node.
    apply Forall_forall. intros n Hn.
    apply list_elem_of_bind in Hn as (kv & Hn & Hkv).
    apply list_elem_of_fmap in Hn as (n' & -> & Hn').
    rewrite Forall_forall in Hall. destruct (Hall _ Hkv) as (Hi & _).
    pose proof (IH _ Hi) as Hc. rewrite Forall_forall in Hc. by rewrite (Hc _ Hn').
Qed.

Section Balanced.

Variable rand_stream : nat -> Z.
Variable d : Data -> Data -> Z.
Hypothesis Hd : metric d.

(** X10: on a tree with a minimum node capacity of at least 2 and a larger
    maximum node capacity, and with a metric, the tree left by inserting
    distinct objects and then removing any objects is balanced: all its
    entries are at the same depth (what the assertion on [childHeight]
    that is commented out in [Node::_check] would test). *)
Theorem reached_tree_is_balanced (S R : list Data) (fuel : nat) (mt : mtree) :
  root mt = None ->
  2 <= minNodeCapacity mt -> minNodeCapacity mt < maxNodeCapacity mt ->
  NoDup S -> (2 * length S + 6 <= fuel)%nat ->
  exists mt' founds seed',
    run rand_stream d fuel (map Add S ++ map Remove R) mt 0
    = Some (mt', founds, seed')
    /\ balanced mt'.
Proof.
  intros Hroot Hmin Hmax Hnd Hfuel.
  destruct (run_adds_removes rand_stream d Hd S R fuel mt)
    as (mt' & seed' & Hrun & Hrem & _); try done.
  exists mt', (set_removes S R).1, seed'. split; [done|].
  unfold remaining in Hrem. unfold balanced. destruct (root mt') as [r|]; [|done].
  destruct Hrem as (h & (Hinv & _) & _). exists (Datatypes.S h).
  by eapply inv_entry_depths.
Qed.

End Balanced.

Lemma reached_tree_passes_the_checks_witness :
  exists mt' founds seed',
    run (rand_of []) line_distance 16
      (map Add [3; 1; 2; 5; 4] ++ map Remove [2; 7; 2; 5]) (mtree_new 2 3) 0
    = Some (mt', founds, seed')
    /\ mtree_check line_distance mt' = true.
Proof.
  apply (reached_tree_passes_the_checks (rand_of []) line_distance
           line_distance_metric [3; 1; 2; 5; 4] [2; 7; 2; 5] 16 (mtree_new 2 3)).
  - reflexivity.
  - vm_compute. discriminate.
  - vm_compute. discriminate.
  - apply (bool_decide_unpack _). vm_compute. exact I.
  - simpl. lia.
Defined.

Lemma reached_tree_is_balanced_witness :
  exists mt' founds seed',
    run (rand_of []) line_distance 16
      (map Add [3; 1; 2; 5; 4] ++ map Remove [2; 7; 2; 5]) (mtree_new 2 3) 0
    = Some (mt', founds, seed')
    /\ balanced mt'.
Proof.
  apply (reached_tree_is_balanced (rand_of []) line_distance
           line_distance_metric [3; 1; 2; 5; 4] [2; 7; 2; 5] 16 (mtree_new 2 3)).
  - reflexivity.
  - vm_compute. discriminate.
  - vm_compute. reflexivity.
  - apply (bool_decide_unpack _). vm_compute. exact I.
  - simpl. lia.
Defined.

